(** * HEX toolchain: the assembler (asm.cpp) and the simulator (sim.cpp)

    A shallow embedding of the assembler's sizing, layout and emission code
    and of the simulator's fetch/dispatch loop, followed by the properties
    proved about them.

    Conventions of the embedding.
    - A C++ [int] is a [Z] in the range [-2^31, 2^31); arithmetic on it is
      followed by [wrap32], the two's-complement wrap-around of the targets
      the tools are built for.  A [uint32_t] is a [Z] in [0, 2^32) and its
      arithmetic is followed by [u32].
    - A thrown [std::runtime_error] is the outcome [Throws]; dereferencing a
      null pointer or indexing outside an array is the outcome [Undefined].
    - Loops are functions with fuel; for the bounded loops a lemma shows that
      the fuel provided is never used up. *)

From Stdlib Require Import ZArith List String Lia Bool.
From stdpp Require Import base gmap strings list pretty.
Import ListNotations.

Local Open Scope Z_scope.

(* ===================================================================== *)
(** * Machine integers *)
(* ===================================================================== *)

Module Int.

(** [int]: 32-bit two's complement. *)
Definition min_int : Z := - 2 ^ 31.
Definition max_int : Z := 2 ^ 31 - 1.

Definition in_int (z : Z) : Prop := min_int <= z <= max_int.

(** Conversion of a mathematical result to [int]. *)
Definition wrap32 (z : Z) : Z := (z + 2 ^ 31) mod 2 ^ 32 - 2 ^ 31.

(** Conversion of a mathematical result to [uint32_t]. *)
Definition u32 (z : Z) : Z := z mod 2 ^ 32.

Definition in_u32 (z : Z) : Prop := 0 <= z < 2 ^ 32.

(** [(int) x] for a [uint32_t] x. *)
Definition signed (z : Z) : Z := wrap32 z.

End Int.
Import Int.

(* ===================================================================== *)
(** * Outcomes of running a piece of the tools *)
(* ===================================================================== *)

Inductive UB : Type :=
| NullDereference              (* [p->f()] with [p == nullptr] *)
| OutOfBounds (index : Z).     (* [a[i]] with [i] outside the array *)

Inductive outcome (A : Type) : Type :=
| Returns (a : A)
| Throws (what : string)       (* std::runtime_error, caught in main *)
| Undefined (ub : UB).
Arguments Returns {A} a.
Arguments Throws {A} what.
Arguments Undefined {A} ub.

Definition obind {A B} (m : outcome A) (k : A -> outcome B) : outcome B :=
  match m with
  | Returns a => k a
  | Throws w => Throws w
  | Undefined u => Undefined u
  end.

Declare Scope outcome_scope.
Delimit Scope outcome_scope with outcome.
Notation "x <- m ;; k" := (obind m (fun x => k))
  (at level 100, m at next level, right associativity) : outcome_scope.
Local Open Scope outcome_scope.

Definition succeeded {A} (m : outcome A) : bool :=
  match m with Returns _ => true | _ => false end.

Definition thrown {A} (m : outcome A) : bool :=
  match m with Throws _ => true | _ => false end.

(* ===================================================================== *)
(** * The instruction set shared by the two tools *)
(* ===================================================================== *)

Module Hex.

Inductive Instr : Type :=
| LDAM | LDBM | STAM | LDAC | LDBC | LDAP | LDAI | LDBI | STAI
| BR | BRZ | BRN | OPR | PFIX | NFIX.

Inductive OprInstr : Type := BRB | ADD | SUB | SVC.

Inductive Syscall : Type := EXIT | WRITE | READ.

Definition allInstr : list Instr :=
  [LDAM; LDBM; STAM; LDAC; LDBC; LDAP; LDAI; LDBI; STAI;
   BR; BRZ; BRN; OPR; PFIX; NFIX].
Definition allOprInstr : list OprInstr := [BRB; ADD; SUB; SVC].
Definition allSyscall : list Syscall := [EXIT; WRITE; READ].

(** The numeric values of the enumerators.  The header that declares the
    three enumerations is not among the sources, so the values are a
    parameter of the development: [static_cast<int>(e)] is [instrOpc e]. *)
Class Encoding : Type := {
  instrOpc : Instr -> Z;
  oprInstrOpc : OprInstr -> Z;
  syscallOpc : Syscall -> Z
}.

(** What both tools rely on: an opcode fits the high nibble of a byte, a
    sub-opcode fits [oreg], and the enumerators of one enumeration are
    distinct (a [switch] could not list them otherwise). *)
Record EncodingOk (E : Encoding) : Prop := {
  instrOpc_range : forall i, 0 <= instrOpc i < 16;
  instrOpc_inj : forall i j, instrOpc i = instrOpc j -> i = j;
  oprInstrOpc_range : forall o, 0 <= oprInstrOpc o < 2 ^ 32;
  oprInstrOpc_inj : forall o p, oprInstrOpc o = oprInstrOpc p -> o = p;
  syscallOpc_range : forall s, 0 <= syscallOpc s < 2 ^ 32;
  syscallOpc_inj : forall s t, syscallOpc s = syscallOpc t -> s = t
}.

Section Decode.
Context {E : Encoding}.

(** [static_cast<Instr>(n)] followed by a [switch]: the case whose
    enumerator has value [n], or the [default] branch. *)
Definition toInstr (n : Z) : option Instr :=
  List.find (fun i => instrOpc i =? n) allInstr.
Definition toOprInstr (n : Z) : option OprInstr :=
  List.find (fun o => oprInstrOpc o =? n) allOprInstr.
Definition toSyscall (n : Z) : option Syscall :=
  List.find (fun s => syscallOpc s =? n) allSyscall.
End Decode.

(** Modelled from the spec: the opcode enumeration of the missing header,
    in the numbering of the spec's section 4.4 (PFIX is 0xD, NFIX is 0xC);
    the sub-opcodes and the syscalls are numbered from 0 in the order in
    which the spec lists them (BRB, SVC, ADD, SUB and EXIT, WRITE, READ). *)
Definition specEncoding : Encoding := {|
  instrOpc i :=
    match i with
    | LDAM => 0 | LDBM => 1 | LDAC => 2 | LDBC => 3
    | LDAP => 4 | LDAI => 5 | LDBI => 6 | STAI => 7
    | BR => 8 | BRZ => 9 | BRN => 10 | STAM => 11
    | NFIX => 12 | PFIX => 13 | OPR => 15
    end;
  oprInstrOpc o :=
    match o with BRB => 0 | SVC => 1 | ADD => 2 | SUB => 3 end;
  syscallOpc s :=
    match s with EXIT => 0 | WRITE => 1 | READ => 2 end
|}.

End Hex.

(* ===================================================================== *)
(** * The assembler, asm.cpp *)
(* ===================================================================== *)

Module Asm.
Import Hex.

(** ** Tokens *)

Inductive Token : Type :=
| NUMBER | MINUS | DATA | PROC | FUNC
| LDAM | LDBM | STAM | LDAC | LDBC | LDAP | LDAI | LDBI | STAI
| BR | BRZ | BRN | BRB | SVC | ADD | SUB | OPR
| IDENTIFIER | NONE | END_OF_FILE.

Definition Token_eqb (a b : Token) : bool :=
  match a, b with
  | NUMBER, NUMBER | MINUS, MINUS | DATA, DATA | PROC, PROC | FUNC, FUNC
  | LDAM, LDAM | LDBM, LDBM | STAM, STAM | LDAC, LDAC | LDBC, LDBC
  | LDAP, LDAP | LDAI, LDAI | LDBI, LDBI | STAI, STAI
  | BR, BR | BRZ, BRZ | BRN, BRN | BRB, BRB | SVC, SVC | ADD, ADD
  | SUB, SUB | OPR, OPR | IDENTIFIER, IDENTIFIER | NONE, NONE
  | END_OF_FILE, END_OF_FILE => true
  | _, _ => false
  end.

Definition tokenEnumStr (token : Token) : string :=
  match token with
  | NUMBER => "NUMBER" | MINUS => "MINUS" | DATA => "DATA"
  | PROC => "PROC" | FUNC => "FUNC"
  | LDAM => "LDAM" | LDBM => "LDBM" | STAM => "STAM"
  | LDAC => "LDAC" | LDBC => "LDBC" | LDAP => "LDAP"
  | LDAI => "LDAI" | LDBI => "LDBI" | STAI => "STAI"
  | BR => "BR" | BRZ => "BRZ" | BRN => "BRN"
  | BRB => "BRB" | SVC => "SVC" | ADD => "ADD" | SUB => "SUB"
  | OPR => "OPR" | IDENTIFIER => "IDENTIFIER" | NONE => "NONE"
  | END_OF_FILE => "END_OF_FILE"
  end.

Definition tokenToInstr (token : Token) : outcome Instr :=
  match token with
  | LDAM => Returns Hex.LDAM | LDBM => Returns Hex.LDBM
  | STAM => Returns Hex.STAM | LDAC => Returns Hex.LDAC
  | LDBC => Returns Hex.LDBC | LDAP => Returns Hex.LDAP
  | LDAI => Returns Hex.LDAI | LDBI => Returns Hex.LDBI
  | STAI => Returns Hex.STAI | BR => Returns Hex.BR
  | BRZ => Returns Hex.BRZ | BRN => Returns Hex.BRN
  | OPR => Returns Hex.OPR
  | _ => Throws ("unexpected instrucion token: " ++ tokenEnumStr token)
  end.

Definition tokenToOprInstr (token : Token) : outcome OprInstr :=
  match token with
  | BRB => Returns Hex.BRB | SVC => Returns Hex.SVC
  | ADD => Returns Hex.ADD | SUB => Returns Hex.SUB
  | _ => Throws ("unexpected operand instrucion token: " ++ tokenEnumStr token)
  end.

(** ** Instruction encoding sizes *)

(** The loop of [numNibbles]: [while (value >= 16) { value >>= 4; n++; }]. *)
Fixpoint numNibbles_loop (fuel : nat) (value n : Z) : Z :=
  match fuel with
  | O => n
  | S fuel' =>
      if 16 <=? value
      then numNibbles_loop fuel' (Z.shiftr value 4) (n + 1)
      else n
  end.

(** A non-negative [int] is below [16^8]: the loop body runs at most seven
    times (lemma [numNibbles_loop_exit] below). *)
Definition numNibbles_fuel : nat := 8.

Definition numNibbles (value : Z) : Z :=
  if value =? 0 then 1
  else
    let value := if value <? 0 then Z.lnot value else value in
    numNibbles_loop numNibbles_fuel value 1.

(** The loop of [instrLen]:
    [while (length < numNibbles(labelOffset - byteOffset - length)) length++;] *)
Fixpoint instrLen_loop (fuel : nat) (labelOffset byteOffset length : Z) : Z :=
  match fuel with
  | O => length
  | S fuel' =>
      if length <? numNibbles (wrap32 (labelOffset - byteOffset - length))
      then instrLen_loop fuel' labelOffset byteOffset (wrap32 (length + 1))
      else length
  end.

(** [numNibbles] is at most 8 on an [int], so [length] stops at 8 at the
    latest (lemma [instrLen_loop_exit] below). *)
Definition instrLen_fuel : nat := 8.

Definition instrLen (labelOffset byteOffset : Z) : Z :=
  instrLen_loop instrLen_fuel labelOffset byteOffset 1.

(** ** Directives *)

(** The class hierarchy under [Directive] as a variant.  [Data], [Func],
    [Proc], [Label] and [InstrOp] are only ever constructed with the tokens
    DATA, FUNC, PROC, IDENTIFIER and OPR; [InstrImm] and [InstrLabel] keep
    the opcode token they were parsed from.  The [labelValue] members are
    not initialised by the constructors: their initial contents are part of
    the program the layout starts from. *)
Inductive Directive : Type :=
| Data (value : Z)
| Func (identifier : string)
| Proc (identifier : string)
| Label (label : string) (labelValue : Z)
| InstrImm (token : Token) (immValue : Z)
| InstrLabel (token : Token) (label : string) (labelValue : Z)
| InstrOp (opcode : Token).

Definition getToken (d : Directive) : Token :=
  match d with
  | Data _ => DATA
  | Func _ => FUNC
  | Proc _ => PROC
  | Label _ _ => IDENTIFIER
  | InstrImm token _ => token
  | InstrLabel token _ _ => token
  | InstrOp _ => OPR
  end.

Definition operandIsLabel (d : Directive) : bool :=
  match d with InstrLabel _ _ _ => true | _ => false end.

(** [(v < 0 && numNibbles(v) == 1) ? 2 : numNibbles(v)], shared by
    [InstrImm::getSize] and [InstrLabel::getSize]. *)
Definition immSize (v : Z) : Z :=
  if (v <? 0) && (numNibbles v =? 1) then 2 else numNibbles v.

Definition getSize (d : Directive) : Z :=
  match d with
  | Data _ => 4
  | Func _ | Proc _ | Label _ _ => 0
  | InstrImm _ immValue => immSize immValue
  | InstrLabel _ _ labelValue => immSize labelValue
  | InstrOp _ => 1
  end.

Section WithEncoding.
Context {E : Encoding}.

Definition instrToInstrOpc (instr : Instr) : Z := instrOpc instr.

Definition tokenToInstrOpc (token : Token) : outcome Z :=
  i <- tokenToInstr token ;; Returns (instrOpc i).

Definition tokenToOprInstrOpc (token : Token) : outcome Z :=
  o <- tokenToOprInstr token ;; Returns (oprInstrOpc o).

Definition getValue (d : Directive) : outcome Z :=
  match d with
  | Data value => Returns value
  | Func _ | Proc _ => Returns 0
  | Label _ labelValue => Returns labelValue
  | InstrImm _ immValue => Returns immValue
  | InstrLabel _ _ labelValue => Returns labelValue
  | InstrOp opcode => tokenToOprInstrOpc opcode
  end.
End WithEncoding.

(** The constructor of [InstrOp] rejects every operand but the four
    sub-opcodes. *)
Definition mkInstrOp (opcode : Token) : outcome Directive :=
  match opcode with
  | BRB | ADD | SUB | SVC => Returns (InstrOp opcode)
  | _ => Throws ("unexpected operand to OPR " ++ tokenEnumStr opcode)
  end.

(** ** Lexer *)

(** [declareKeywords]. *)
Definition keywords : list (string * Token) :=
  [("ADD", ADD); ("BRN", BRN); ("BR", BR); ("BRB", BRB); ("BRZ", BRZ);
   ("DATA", DATA); ("FUNC", FUNC); ("LDAC", LDAC); ("LDAI", LDAI);
   ("LDAM", LDAM); ("LDAP", LDAP); ("LDBC", LDBC); ("LDBI", LDBI);
   ("LDBM", LDBM); ("OPR", OPR); ("PROC", PROC); ("STAI", STAI);
   ("STAM", STAM); ("SUB", SUB); ("SVC", SVC)].

(** [Table::lookup]: the token of a keyword, IDENTIFIER for any other
    name (which the table then remembers as an identifier). *)
Definition lookup (name : string) : Token :=
  match List.find (fun kw => String.eqb (fst kw) name) keywords with
  | Some kw => snd kw
  | None => IDENTIFIER
  end.

(** The lexer is embedded at its interface to the parser: the sequence of
    lexemes that [readToken] recognises in the file, a word with its text
    and a number with the natural number its digits denote.  A word is a
    keyword or an identifier, as [lookup] decides; [Other] is a character
    that starts no lexeme.  At the end of the file [readToken] keeps
    returning END_OF_FILE. *)
Inductive Lexeme : Type :=
| Word (identifier : string)
| Number (digits : Z)
| Minus
| Other.

(** [value = std::strtoul(number.c_str(), nullptr, 10)]: [strtoul]
    saturates at [ULONG_MAX], 64 bits wide on the targets, and the
    assignment to the [unsigned] member keeps the low 32 bits. *)
Definition numberValue (digits : Z) : Z :=
  u32 (Z.min digits (2 ^ 64 - 1)).

Record Lexer : Type := mkLexer {
  tokens : list Lexeme;
  identifier : string;
  value : Z;                 (* unsigned *)
  lastToken : Token
}.

Definition getNextToken (lexer : Lexer) : Token * Lexer :=
  match tokens lexer with
  | [] => (END_OF_FILE,
           mkLexer [] (identifier lexer) (value lexer) END_OF_FILE)
  | Word id :: rest =>
      (lookup id, mkLexer rest id (value lexer) (lookup id))
  | Number digits :: rest =>
      (NUMBER, mkLexer rest (identifier lexer) (numberValue digits) NUMBER)
  | Minus :: rest =>
      (MINUS, mkLexer rest (identifier lexer) (value lexer) MINUS)
  | Other :: rest =>
      (NONE, mkLexer rest (identifier lexer) (value lexer) NONE)
  end.

Definition getIdentifier (lexer : Lexer) : string := identifier lexer.
Definition getNumber (lexer : Lexer) : Z := value lexer.
Definition getLastToken (lexer : Lexer) : Token := lastToken lexer.

(** ** Parser *)

Definition expectLast (token : Token) (lexer : Lexer) : outcome unit :=
  if Token_eqb token (getLastToken lexer) then Returns tt
  else Throws ("expected " ++ tokenEnumStr token).

Definition expectNext (token : Token) (lexer : Lexer) : outcome Lexer :=
  let lexer := snd (getNextToken lexer) in
  _ <- expectLast token lexer ;; Returns lexer.

(** [-lexer.getNumber()] negates an [unsigned]; the result is converted to
    [int] on return. *)
Definition parseInteger (lexer : Lexer) : outcome (Z * Lexer) :=
  if Token_eqb (getLastToken lexer) MINUS then
    lexer <- expectNext NUMBER lexer ;;
    Returns (wrap32 (u32 (- getNumber lexer)), lexer)
  else
    _ <- expectLast NUMBER lexer ;;
    Returns (wrap32 (getNumber lexer), lexer).

Definition parseIdentifier (lexer : Lexer) : string * Lexer :=
  let lexer := snd (getNextToken lexer) in
  (getIdentifier lexer, lexer).

Definition parseDirective (lexer : Lexer) : outcome (Directive * Lexer) :=
  match getLastToken lexer with
  | DATA =>
      let lexer := snd (getNextToken lexer) in
      r <- parseInteger lexer ;; Returns (Data (fst r), snd r)
  | FUNC =>
      let r := parseIdentifier lexer in Returns (Func (fst r), snd r)
  | PROC =>
      let r := parseIdentifier lexer in Returns (Proc (fst r), snd r)
  | IDENTIFIER =>
      (* [labelValue] is left uninitialised; the embedding starts it at 0 *)
      Returns (Label (getIdentifier lexer) 0, lexer)
  | OPR =>
      let r := getNextToken lexer in
      d <- mkInstrOp (fst r) ;; Returns (d, snd r)
  | LDAM | LDBM | STAM | LDAC | LDBC | LDAI | LDBI | STAI | LDAP
  | BRN | BR | BRZ =>
      let opcode := getLastToken lexer in
      let r := getNextToken lexer in
      if Token_eqb (fst r) IDENTIFIER then
        Returns (InstrLabel opcode (getIdentifier (snd r)) 0, snd r)
      else
        r <- parseInteger (snd r) ;; Returns (InstrImm opcode (fst r), snd r)
  | t => Throws ("unrecognised token " ++ tokenEnumStr t)
  end.

(** [while (lexer.getNextToken() != Token::END_OF_FILE)
       program.push_back(parseDirective());]
    [None] when the fuel is used up; every iteration consumes a token, so
    one unit of fuel per pending token and one more is enough. *)
Fixpoint parseProgram_loop (fuel : nat) (lexer : Lexer)
    (program : list Directive) : option (outcome (list Directive)) :=
  match fuel with
  | O => None
  | S fuel' =>
      let r := getNextToken lexer in
      if Token_eqb (fst r) END_OF_FILE then Some (Returns program)
      else
        match parseDirective (snd r) with
        | Returns (d, lexer') =>
            parseProgram_loop fuel' lexer' (program ++ [d])
        | Throws w => Some (Throws w)
        | Undefined u => Some (Undefined u)
        end
  end.

Definition parseProgram_fuel (lexer : Lexer) : nat :=
  S (List.length (tokens lexer)).

Definition parseProgram (lexer : Lexer) : option (outcome (list Directive)) :=
  parseProgram_loop (parseProgram_fuel lexer) lexer [].

(** The lexer as [main] has it when parsing starts. *)
Definition openLexer (tokens : list Lexeme) : Lexer :=
  mkLexer tokens "" 0 NONE.

(** ** Label map *)

(** A [Label*] into the directive vector is the index of the directive it
    points to: the vector is never resized after parsing, so the pointer and
    the index designate the same object, and an update of the directive
    through the vector is seen through the map. *)
Fixpoint createLabelMap_from (i : nat) (program : list Directive)
    (labelMap : gmap string nat) : outcome (gmap string nat) :=
  match program with
  | [] => Returns labelMap
  | directive :: rest =>
      if Token_eqb (getToken directive) IDENTIFIER then
        match directive with
        | Label label _ =>
            createLabelMap_from (S i) rest (<[label := i]> labelMap)
        | _ => Undefined NullDereference   (* the dynamic_cast failed *)
        end
      else createLabelMap_from (S i) rest labelMap
  end.

Definition createLabelMap (program : list Directive)
    : outcome (gmap string nat) :=
  createLabelMap_from 0 program ∅.

(** ** Layout and label resolution *)

(** [if (byteOffset & 0x3) byteOffset += 4 - (byteOffset & 0x3);] *)
Definition alignData (byteOffset : Z) : Z :=
  if Z.land byteOffset 3 =? 0 then byteOffset
  else wrap32 (byteOffset + (4 - Z.land byteOffset 3)).

(** [labelMap[name]->getValue()]: [operator[]] default-inserts a null
    pointer for an unknown name, which is then dereferenced. *)
Definition labelMapValue (program : list Directive)
    (labelMap : gmap string nat) (name : string) : outcome Z :=
  match labelMap !! name with
  | None => Undefined NullDereference
  | Some j =>
      match program !! j with
      | Some (Label _ labelValue) => Returns labelValue
      | _ => Undefined NullDereference
      end
  end.

(** The body of the [for] loop of [resolveLabels] for the directive at
    index [i]; the result is the updated vector and the offset after the
    directive. *)
Definition layoutDirective (labelMap : gmap string nat) (i : nat)
    (directive : Directive) (program : list Directive) (byteOffset : Z)
    : outcome (list Directive * Z) :=
  let byteOffset :=
    if Token_eqb (getToken directive) DATA then alignData byteOffset
    else byteOffset in
  program <-
    (if Token_eqb (getToken directive) IDENTIFIER then
       match directive with
       | Label label _ => Returns (<[i := Label label byteOffset]> program)
       | _ => Undefined NullDereference
       end
     else Returns program) ;;
  program <-
    (match directive with
     | InstrLabel token label _ =>
         labelValue <- labelMapValue program labelMap label ;;
         let offset := wrap32 (labelValue - byteOffset) in
         let newValue :=
           wrap32 (offset - instrLen labelValue byteOffset) in
         Returns (<[i := InstrLabel token label newValue]> program)
     | _ => Returns program
     end) ;;
  match program !! i with
  | Some directive =>
      Returns (program, wrap32 (byteOffset + getSize directive))
  | None => Returns (program, byteOffset)
  end.

(** One execution of the [for] loop, from index [i] on; [n] counts the
    directives still to visit.  [entered] collects, for the proofs, the
    value of [byteOffset] with which each directive was reached. *)
Fixpoint layoutPass_from (n i : nat) (labelMap : gmap string nat)
    (program : list Directive) (byteOffset : Z) (entered : list Z)
    : outcome (list Directive * Z * list Z) :=
  match n with
  | O => Returns (program, byteOffset, entered)
  | S n' =>
      match program !! i with
      | None => Returns (program, byteOffset, entered)
      | Some directive =>
          r <- layoutDirective labelMap i directive program byteOffset ;;
          layoutPass_from n' (S i) labelMap (fst r) (snd r)
                          (entered ++ [byteOffset])
      end
  end.

Definition layoutPass (labelMap : gmap string nat)
    (program : list Directive) : outcome (list Directive * Z * list Z) :=
  layoutPass_from (List.length program) 0 labelMap program 0 [].

(** [while (lastSize != byteOffset) { lastSize = byteOffset; ... }]
    [None] when the fuel is used up. *)
Fixpoint resolveLabels_loop (fuel : nat) (labelMap : gmap string nat)
    (program : list Directive) (lastSize byteOffset : Z)
    : option (outcome (list Directive)) :=
  match fuel with
  | O => None
  | S fuel' =>
      if lastSize =? byteOffset then Some (Returns program)
      else
        match layoutPass labelMap program with
        | Returns (program, byteOffset', _) =>
            resolveLabels_loop fuel' labelMap program byteOffset byteOffset'
        | Throws w => Some (Throws w)
        | Undefined u => Some (Undefined u)
        end
  end.

Definition resolveLabels (fuel : nat) (program : list Directive)
    (labelMap : gmap string nat) : option (outcome (list Directive)) :=
  resolveLabels_loop fuel labelMap program (-1) 0.

(** ** Listing *)

(** [emitProgramText]: the lines of the listing, as the offset, the
    directive and the size printed on each. *)
Fixpoint emitProgramText_from (program : list Directive) (byteOffset : Z)
    : list (Z * Directive * Z) :=
  match program with
  | [] => []
  | directive :: rest =>
      let byteOffset :=
        if Token_eqb (getToken directive) DATA
           && negb (Z.land byteOffset 3 =? 0)
        then wrap32 (byteOffset + (4 - Z.land byteOffset 3))
        else byteOffset in
      (byteOffset, directive, getSize directive)
        :: emitProgramText_from rest
             (wrap32 (byteOffset + getSize directive))
  end.

Definition emitProgramText (program : list Directive)
    : list (Z * Directive * Z) :=
  emitProgramText_from program 0.

(** ** Binary emission *)

(** A [char] written to the file, as the byte it becomes. *)
Definition toByte (z : Z) : Z := z mod 256.

(** The bytes of an [int] object, in memory order. *)
Definition intBytes (v : Z) : list Z :=
  [Z.land v 255; Z.land (Z.shiftr v 8) 255;
   Z.land (Z.shiftr v 16) 255; Z.land (Z.shiftr v 24) 255].

Section Emit.
Context {E : Encoding}.

(** [for (size_t i = size-1; i > 0; i--)] of [emitProgramBin]; [i] is
    the loop variable. *)
Fixpoint emitPrefixes (i : nat) (instr : Instr) (directive : Directive)
    : outcome (list Z) :=
  match i with
  | O => Returns []
  | S i' =>
      v <- getValue directive ;;
      let instrValue :=
        toByte (Z.lor (Z.shiftl (instrToInstrOpc instr) 4)
                      (Z.land (Z.shiftr v (Z.of_nat i * 4)) 15)) in
      rest <- emitPrefixes i' instr directive ;;
      Returns (instrValue :: rest)
  end.

(** The body of the [for] loop of [emitProgramBin]: the bytes written
    for one directive and the offset after it. *)
Definition emitDirective (directive : Directive) (byteOffset : Z)
    : outcome (list Z * Z) :=
  let size := getSize directive in
  if Token_eqb (getToken directive) DATA then
    let paddingBytes :=
      if Z.land byteOffset 3 =? 0 then 0 else 4 - Z.land byteOffset 3 in
    let padding := List.repeat 0 (Z.to_nat paddingBytes) in
    let byteOffset := wrap32 (byteOffset + paddingBytes) in
    match directive with
    | Data value =>
        Returns (padding ++ List.firstn (Z.to_nat size) (intBytes value),
                 wrap32 (byteOffset + size))
    | _ => Undefined NullDereference
    end
  else if 0 <? size then
    prefixes <-
      (if 1 <? size then
         v <- getValue directive ;;
         let instr := if v <? 0 then NFIX else PFIX in
         emitPrefixes (Z.to_nat (size - 1)) instr directive
       else Returns []) ;;
    opc <- tokenToInstrOpc (getToken directive) ;;
    v <- getValue directive ;;
    let instrValue :=
      toByte (Z.lor (Z.shiftl (Z.land opc 15) 4) (Z.land v 15)) in
    Returns (prefixes ++ [instrValue],
             wrap32 (byteOffset + Z.of_nat (List.length prefixes) + 1))
  else Returns ([], byteOffset).

Fixpoint emitProgramBin_from (program : list Directive)
    (written : list Z) (byteOffset : Z) : outcome (list Z * Z) :=
  match program with
  | [] => Returns (written, byteOffset)
  | directive :: rest =>
      r <- emitDirective directive byteOffset ;;
      emitProgramBin_from rest (written ++ fst r) (snd r)
  end.

(** The bytes written to the output file and the final [byteOffset]. *)
Definition emitProgramBin (program : list Directive)
    : outcome (list Z * Z) :=
  emitProgramBin_from program [] 0.
End Emit.

(** ** Driver *)

(** What [main] leaves behind: how it ended, and the output file.  The file
    is opened only after [resolveLabels] has returned. *)
Inductive OutputFile : Type :=
| NotCreated
| Incomplete                 (* opened, emission did not finish *)
| Written (bytes : list Z).

Inductive Exit : Type :=
| ExitSuccess                (* return 0 *)
| ExitError (what : string)  (* "Error: ..." on stderr, exit(1) *)
| Crash (ub : UB).           (* no handler runs *)

Section Main.
Context {E : Encoding}.

(** [main] from [parser.parseProgram()] on, without [--tokens] and
    [--tree]; [fuel] bounds the iterations of [resolveLabels]. *)
Definition assemble (fuel : nat) (tokens : list Lexeme)
    : option (Exit * OutputFile) :=
  match parseProgram (openLexer tokens) with
  | None => None
  | Some (Throws w) => Some (ExitError w, NotCreated)
  | Some (Undefined u) => Some (Crash u, NotCreated)
  | Some (Returns program) =>
      match createLabelMap program with
      | Throws w => Some (ExitError w, NotCreated)
      | Undefined u => Some (Crash u, NotCreated)
      | Returns labelMap =>
          match resolveLabels fuel program labelMap with
          | None => None
          | Some (Throws w) => Some (ExitError w, NotCreated)
          | Some (Undefined u) => Some (Crash u, NotCreated)
          | Some (Returns program) =>
              match emitProgramBin program with
              | Throws w => Some (ExitError w, Incomplete)
              | Undefined u => Some (Crash u, Incomplete)
              | Returns (bytes, _) => Some (ExitSuccess, Written bytes)
              end
          end
      end
  end.
End Main.

End Asm.

(* ===================================================================== *)
(** * The simulator, sim.cpp *)
(* ===================================================================== *)

Module Sim.
Import Hex.

Definition MEMORY_SIZE_WORDS : Z := 200000.

(** The host streams behind [fileIO].  The functions [output] and [input]
    are declared in a header that is not among the sources; they are a
    parameter of the development, with the state of the streams they act
    on.  [noFiles] is that state for the empty vector [fileIO] starts as. *)
Class HostIO : Type := {
  IOState : Type;
  noFiles : IOState;
  output : IOState -> Z -> Z -> IOState;    (* output(fileIO, value, stream) *)
  input : IOState -> Z -> Z * IOState       (* input(fileIO, stream) *)
}.

Section WithHost.
Context {E : Encoding} {H : HostIO}.

(** The members of [Processor].  [memory] gives the contents of the
    array at the indices below [MEMORY_SIZE_WORDS]; [instrEnum] holds the
    numeric value the [static_cast] produced. *)
Record Processor : Type := mkProcessor {
  pc : Z;
  areg : Z;
  breg : Z;
  oreg : Z;
  instr : Z;
  memory : Z -> Z;
  fileIO : IOState;
  running : bool;
  tracing : bool;
  cycles : Z;
  instrEnum : Z
}.

Definition set_pc (v : Z) (p : Processor) : Processor :=
  mkProcessor v (areg p) (breg p) (oreg p) (instr p) (memory p)
              (fileIO p) (running p) (tracing p) (cycles p) (instrEnum p).
Definition set_areg (v : Z) (p : Processor) : Processor :=
  mkProcessor (pc p) v (breg p) (oreg p) (instr p) (memory p)
              (fileIO p) (running p) (tracing p) (cycles p) (instrEnum p).
Definition set_breg (v : Z) (p : Processor) : Processor :=
  mkProcessor (pc p) (areg p) v (oreg p) (instr p) (memory p)
              (fileIO p) (running p) (tracing p) (cycles p) (instrEnum p).
Definition set_oreg (v : Z) (p : Processor) : Processor :=
  mkProcessor (pc p) (areg p) (breg p) v (instr p) (memory p)
              (fileIO p) (running p) (tracing p) (cycles p) (instrEnum p).
Definition set_instr (v : Z) (p : Processor) : Processor :=
  mkProcessor (pc p) (areg p) (breg p) (oreg p) v (memory p)
              (fileIO p) (running p) (tracing p) (cycles p) (instrEnum p).
Definition set_memory (m : Z -> Z) (p : Processor) : Processor :=
  mkProcessor (pc p) (areg p) (breg p) (oreg p) (instr p) m
              (fileIO p) (running p) (tracing p) (cycles p) (instrEnum p).
Definition set_fileIO (io : IOState) (p : Processor) : Processor :=
  mkProcessor (pc p) (areg p) (breg p) (oreg p) (instr p) (memory p)
              io (running p) (tracing p) (cycles p) (instrEnum p).
Definition set_running (b : bool) (p : Processor) : Processor :=
  mkProcessor (pc p) (areg p) (breg p) (oreg p) (instr p) (memory p)
              (fileIO p) b (tracing p) (cycles p) (instrEnum p).
Definition set_cycles (v : Z) (p : Processor) : Processor :=
  mkProcessor (pc p) (areg p) (breg p) (oreg p) (instr p) (memory p)
              (fileIO p) (running p) (tracing p) v (instrEnum p).
Definition set_instrEnum (v : Z) (p : Processor) : Processor :=
  mkProcessor (pc p) (areg p) (breg p) (oreg p) (instr p) (memory p)
              (fileIO p) (running p) (tracing p) (cycles p) v.

(** [Processor() : running(true), tracing(false), cycles(0) {}]
    The vector [fileIO] is default-constructed empty.  The other members,
    of scalar and array type, keep whatever the storage of the object holds;
    [storage] stands for those contents. *)
Definition newProcessor (storage : Processor) : Processor :=
  mkProcessor (pc storage) (areg storage) (breg storage) (oreg storage)
              (instr storage) (memory storage) noFiles
              true false 0 (instrEnum storage).

(** [memory[index]] as an rvalue: [std::array::operator[]] does not check
    the index. *)
Definition readMemory (p : Processor) (index : Z) : outcome Z :=
  if index <? MEMORY_SIZE_WORDS then Returns (memory p index)
  else Undefined (OutOfBounds index).

(** [memory[index] = v]. *)
Definition writeMemory (p : Processor) (index v : Z) : outcome Processor :=
  if index <? MEMORY_SIZE_WORDS
  then Returns (set_memory (fun i => if i =? index then v else memory p i) p)
  else Undefined (OutOfBounds index).

(** Byte [b] of the image lives in word [b >> 2] at bit [(b & 3) << 3]. *)
Definition storeByte (m : Z -> Z) (b : Z) (byte : Z) : Z -> Z :=
  let shift := Z.shiftl (Z.land b 3) 3 in
  fun i =>
    if i =? Z.shiftr b 2
    then Z.lor (Z.land (m i) (Z.lnot (Z.shiftl 255 shift)))
               (Z.shiftl byte shift)
    else m i.

Fixpoint storeBytes (m : Z -> Z) (b : Z) (bytes : list Z) : Z -> Z :=
  match bytes with
  | [] => m
  | byte :: rest => storeBytes (storeByte m b byte) (b + 1) rest
  end.

(** [load]: [file.read(memory.data(), fileSize)] copies the file over the
    first [fileSize] bytes of the array, whatever [fileSize] is. *)
Definition load (file : list Z) (p : Processor) : outcome Processor :=
  if Z.of_nat (List.length file) <=? 4 * MEMORY_SIZE_WORDS
  then Returns (set_memory (storeBytes (memory p) 0 file) p)
  else Undefined (OutOfBounds MEMORY_SIZE_WORDS).

Definition syscall (p : Processor) : outcome Processor :=
  w1 <- readMemory p 1 ;;
  let spWordIndex := Z.shiftr w1 2 in
  match toSyscall (areg p) with
  | Some EXIT => Returns (set_running false p)
  | Some WRITE =>
      v <- readMemory p (u32 (spWordIndex + 2)) ;;
      s <- readMemory p (u32 (spWordIndex + 3)) ;;
      Returns (set_fileIO (output (fileIO p) v s) p)
  | Some READ =>
      s <- readMemory p (u32 (spWordIndex + 2)) ;;
      let r := input (fileIO p) s in
      writeMemory (set_fileIO (snd r) p) (u32 (spWordIndex + 1)) (u32 (fst r))
  | None => Throws ("invalid syscall: " ++ pretty (areg p))
  end.

(** The first four statements of the loop body of [run]: fetch a byte,
    advance [pc], accumulate the operand and decode the opcode. *)
Definition fetch (p : Processor) : outcome Processor :=
  w <- readMemory p (Z.shiftr (pc p) 2) ;;
  let instr :=
    Z.land (Z.shiftr w (Z.shiftl (Z.land (pc p) 3) 3)) 255 in
  let p := set_instr instr p in
  let p := set_pc (u32 (pc p + 1)) p in
  let p := set_oreg (Z.lor (oreg p) (Z.land instr 15)) p in
  Returns (set_instrEnum (Z.land (Z.shiftr instr 4) 15) p).

(** The inner [switch] of the OPR case. *)
Definition executeOpr (p : Processor) : outcome Processor :=
  match toOprInstr (oreg p) with
  | Some BRB => Returns (set_oreg 0 (set_pc (breg p) p))
  | Some ADD => Returns (set_oreg 0 (set_areg (u32 (areg p + breg p)) p))
  | Some SUB => Returns (set_oreg 0 (set_areg (u32 (areg p - breg p)) p))
  | Some SVC => syscall p
  | None => Throws ("invalid OPR: " ++ pretty (oreg p))
  end.

(** The [switch (instrEnum)] of [run]. *)
Definition execute (p : Processor) : outcome Processor :=
  match toInstr (instrEnum p) with
  | Some LDAM =>
      v <- readMemory p (oreg p) ;;
      Returns (set_oreg 0 (set_areg v p))
  | Some LDBM =>
      v <- readMemory p (oreg p) ;;
      Returns (set_oreg 0 (set_breg v p))
  | Some STAM =>
      p <- writeMemory p (oreg p) (areg p) ;;
      Returns (set_oreg 0 p)
  | Some LDAC => Returns (set_oreg 0 (set_areg (oreg p) p))
  | Some LDBC => Returns (set_oreg 0 (set_breg (oreg p) p))
  | Some LDAP => Returns (set_oreg 0 (set_areg (u32 (pc p + oreg p)) p))
  | Some LDAI =>
      v <- readMemory p (u32 (Z.shiftr (areg p) 2 + oreg p)) ;;
      Returns (set_oreg 0 (set_areg v p))
  | Some LDBI =>
      v <- readMemory p (u32 (Z.shiftr (breg p) 2 + oreg p)) ;;
      Returns (set_oreg 0 (set_breg v p))
  | Some STAI =>
      p <- writeMemory p (u32 (Z.shiftr (breg p) 2 + oreg p)) (areg p) ;;
      Returns (set_oreg 0 p)
  | Some BR => Returns (set_oreg 0 (set_pc (u32 (pc p + oreg p)) p))
  | Some BRZ =>
      let p := if areg p =? 0 then set_pc (u32 (pc p + oreg p)) p else p in
      Returns (set_oreg 0 p)
  | Some BRN =>
      let p :=
        if signed (areg p) <? 0 then set_pc (u32 (pc p + oreg p)) p
        else p in
      Returns (set_oreg 0 p)
  | Some PFIX => Returns (set_oreg (u32 (Z.shiftl (oreg p) 4)) p)
  | Some NFIX =>
      Returns (set_oreg (Z.lor 4294967040 (u32 (Z.shiftl (oreg p) 4))) p)
  | Some OPR =>
      p <- executeOpr p ;;
      Returns (set_oreg 0 p)
  | None => Throws "invalid instruction"
  end.

(** One iteration of the loop of [run].  The trace, when enabled, only
    prints, and reads the memory cells the instruction itself reads; it
    is left out. *)
Definition step (p : Processor) : outcome Processor :=
  p <- fetch p ;;
  p <- execute p ;;
  Returns (set_cycles ((cycles p + 1) mod 2 ^ 64) p).

(** [while (running) { ... }]; [None] when the fuel is used up. *)
Fixpoint run (fuel : nat) (p : Processor) : option (outcome Processor) :=
  match fuel with
  | O => None
  | S fuel' =>
      if running p then
        match step p with
        | Returns p => run fuel' p
        | other => Some other
        end
      else Some (Returns p)
  end.

(** [main]: construct, load and run. *)
Definition simulate (fuel : nat) (storage : Processor) (file : list Z)
    : option (outcome Processor) :=
  match load file (newProcessor storage) with
  | Returns p => run fuel p
  | other => Some other
  end.
End WithHost.

(** A host for examples: the bytes written, latest first, and an input
    that is always at its end. *)
Definition logHost : HostIO := {|
  IOState := list (Z * Z);
  noFiles := [];
  output io v s := (v, s) :: io;
  input io s := (4294967295, io)
|}.

End Sim.

(* ===================================================================== *)
(** * Statements of the specification and example inputs *)
(* ===================================================================== *)

Import Hex Asm Sim.

(** [n] is the smallest number of nibbles, at least one, that holds the
    non-negative [v]. *)
Definition least_nibbles (v n : Z) : Prop :=
  1 <= n /\ v < 16 ^ n /\ forall m, 1 <= m -> v < 16 ^ m -> n <= m.

(** The nibble count in the words of the specification: 1 for zero, the
    smallest [n >= 1] with [v < 16^n] for a positive [v], and the same rule
    applied to the complement for a negative [v]. *)
Definition nibbles_spec_nonneg (v n : Z) : Prop :=
  (v = 0 /\ n = 1) \/ (0 < v /\ least_nibbles v n).

Definition nibbles_spec (v n : Z) : Prop :=
  (0 <= v /\ nibbles_spec_nonneg v n) \/
  (v < 0 /\ nibbles_spec_nonneg (Z.lnot v) n).

(** The statement of the specification about a laid-out program: on every
    line of the listing that holds a label reference, the stored value is
    the offset of the target minus the offset of the byte after the
    instruction. *)
Definition displacementsResolved (program : list Directive)
    (labelMap : gmap string nat) : Prop :=
  forall i at_ token label v size,
    emitProgramText program !! i = Some (at_, InstrLabel token label v, size) ->
    exists target,
      labelMapValue program labelMap label = Returns target /\
      v = target - (at_ + size).


(** Every label reference of the program names an entry of the label map. *)
Definition labelsResolve (program : list Directive)
    (labelMap : gmap string nat) : bool :=
  forallb (fun d => match d with
                    | InstrLabel _ label _ => bool_decide (is_Some (labelMap !! label))
                    | _ => true
                    end) program.

(** One pass of the layout, without the record of the placements. *)
Definition passResult (labelMap : gmap string nat) (program : list Directive)
    : outcome (list Directive * Z) :=
  r <- layoutPass labelMap program ;; Returns (fst (fst r), snd (fst r)).

(** *** A program whose layout oscillates

    [bytes] bytes of instructions without label operands: [LDAC 268435456]
    takes eight bytes, [LDAC 0] one. *)
Definition fillerSource (bytes : nat) : list Lexeme :=
  concat (List.repeat [Word "LDAC"; Number 268435456] (bytes / 8))
  ++ concat (List.repeat [Word "LDAC"; Number 0] (bytes mod 8)).

Definition filler (bytes : nat) : list Directive :=
  List.repeat (InstrImm Asm.LDAC 268435456) (bytes / 8)
  ++ List.repeat (InstrImm Asm.LDAC 0) (bytes mod 8).

(** The source text
<<
      BR L
    M BR N
      (16 bytes of instructions)
    N BR q
    q (236 bytes of instructions)
      BR M
      (3832 bytes of instructions)
      DATA 0
    L
>> *)
Definition oscillatingSource : list Lexeme :=
  [Word "BR"; Word "L";
   Word "M";
   Word "BR"; Word "N"]
  ++ fillerSource 16
  ++ [Word "N";
      Word "BR"; Word "q";
      Word "q"]
  ++ fillerSource 236
  ++ [Word "BR"; Word "M"]
  ++ fillerSource 3832
  ++ [Word "DATA"; Number 0;
      Word "L"].

(** Its directives, with the given contents of the seven [labelValue]
    members, in program order. *)
Definition oscillatingWith (toL atM toN atN toQ atQ toM atL : Z)
    : list Directive :=
  [InstrLabel Asm.BR "L" toL; Label "M" atM; InstrLabel Asm.BR "N" toN]
  ++ filler 16
  ++ [Label "N" atN; InstrLabel Asm.BR "q" toQ; Label "q" atQ]
  ++ filler 236
  ++ [InstrLabel Asm.BR "M" toM]
  ++ filler 3832
  ++ [Data 0; Label "L" atL].

Definition oscillating : list Directive :=
  oscillatingWith 0 0 0 0 0 0 0 0.

Definition oscillatingLabels : gmap string nat :=
  list_to_map [("M", 1%nat); ("N", 5%nat); ("q", 7%nat); ("L", 522%nat)].

(** The layout after the first pass, in which the forward references
    read the initial contents 0 of the labels [L], [N] and [q]: [BR L]
    takes 2 bytes, [M] is at 2, [BR N] takes 2 bytes, [N] is at 20,
    [BR q] takes 2 bytes, [q] is at 22, [BR M] at 258 takes 3 bytes, the
    data word is aligned from 4093 to 4096 and [L] is at 4100. *)
Definition oscillatingFirst : list Directive :=
  oscillatingWith (-1) 2 (-3) 20 (-22) 22 (-259) 4100.

(** The two layouts between which the later passes alternate.

    With [L] read as 4096, [BR L] takes 3 bytes and [M] is at 3; [BR N]
    sees [N], read as 21, 18 bytes ahead and takes 2 bytes; [BR M] at 258
    is 255 bytes past [M] and takes 3 bytes; the filler ends at 4093, the
    data word is aligned to 4096 and [L] is at 4100: 4100 bytes.

    With [L] read as 4100, [BR L] takes 4 bytes and [M] is at 4; [BR N]
    sees [N] 17 bytes ahead and takes 1 byte; [BR M] at 258 is 254 bytes
    past [M] and takes 2 bytes; the filler ends at 4092, where the data
    word needs no padding, and [L] is at 4096: 4096 bytes. *)
Definition oscillatingLong : list Directive :=
  oscillatingWith 4093 3 16 21 0 22 (-258) 4100.

Definition oscillatingShort : list Directive :=
  oscillatingWith 4096 4 15 21 0 22 (-256) 4096.

(** The value of [byteOffset] after the directives of [program], starting
    from [byteOffset]: each directive is placed at the running offset,
    aligned first if it is data, and advances it by its size. *)
Fixpoint offsetAfter (program : list Directive) (byteOffset : Z) : Z :=
  match program with
  | [] => byteOffset
  | directive :: rest =>
      let at_ := if Token_eqb (getToken directive) DATA
                 then alignData byteOffset else byteOffset in
      offsetAfter rest (wrap32 (at_ + getSize directive))
  end.

(** The padding in front of a data word at running offset [byteOffset]. *)
Definition paddingBefore (byteOffset : Z) : Z :=
  if byteOffset mod 4 =? 0 then 0 else 4 - byteOffset mod 4.

(** The byte at byte address [b] of a memory image, as [run] extracts it. *)
Definition byteAt (m : Z -> Z) (b : Z) : Z :=
  Z.land (Z.shiftr (m (Z.shiftr b 2)) (Z.shiftl (Z.land b 3) 3)) 255.

(** An instruction byte: opcode in the high nibble, operand bits in the low
    nibble. *)
Definition opByte {E : Encoding} (i : Instr) (nibble : Z) : Z :=
  Z.lor (Z.shiftl (instrOpc i) 4) nibble.

(** The statement of the specification about [oreg] at the end of a step
    that dispatched on the state [p1] and left the state [p2]: cleared,
    except after PFIX, NFIX and OPR with sub-opcode SVC. *)
Definition oregAsSpecified {E : Encoding} {H : HostIO}
    (p1 p2 : Processor) : Prop :=
  match toInstr (instrEnum p1) with
  | Some Hex.PFIX => oreg p2 = u32 (Z.shiftl (oreg p1) 4)
  | Some Hex.NFIX => oreg p2 = Z.lor 4294967040 (u32 (Z.shiftl (oreg p1) 4))
  | Some Hex.OPR =>
      match toOprInstr (oreg p1) with
      | Some Hex.SVC => oreg p2 = oreg p1
      | _ => oreg p2 = 0
      end
  | _ => oreg p2 = 0
  end.

(** The same with OPR-SVC clearing [oreg] like the other opcodes. *)
Definition oregAfterDispatch {E : Encoding} {H : HostIO}
    (p1 p2 : Processor) : Prop :=
  match toInstr (instrEnum p1) with
  | Some Hex.PFIX => oreg p2 = u32 (Z.shiftl (oreg p1) 4)
  | Some Hex.NFIX => oreg p2 = Z.lor 4294967040 (u32 (Z.shiftl (oreg p1) 4))
  | _ => oreg p2 = 0
  end.

(** A processor about to execute [OPR SVC] with the EXIT syscall selected,
    under the numbering [specEncoding]: every memory word holds the byte
    [OPR|SVC] in its low lane. *)
Definition atExitCall : @Processor logHost :=
  @mkProcessor logHost 0 0 0 0 0 (fun _ => 241) [] true false 0 0.

(** Storage for a processor object in which every register and every memory
    word holds [junk]. *)
Definition filledStorage (junk : Z) : @Processor logHost :=
  @mkProcessor logHost junk junk junk junk junk (fun _ => junk) []
               false true junk junk.

(** Storage in which the four registers happen to be zero. *)
Definition zeroedStorage : @Processor logHost := filledStorage 0.

(** *** Parse errors

    The conditions below are about a lexer whose last token is the token at
    statement position, as [parseDirective] finds it. *)

Definition addressedOpcode (t : Token) : bool :=
  match t with
  | Asm.LDAM | Asm.LDBM | Asm.STAM | Asm.LDAC | Asm.LDBC | Asm.LDAP
  | Asm.LDAI | Asm.LDBI | Asm.STAI | Asm.BR | Asm.BRZ | Asm.BRN => true
  | _ => false
  end.

Definition statementToken (t : Token) : bool :=
  match t with
  | DATA | FUNC | PROC | IDENTIFIER | Asm.OPR => true
  | _ => addressedOpcode t
  end.

Definition oprOperand (t : Token) : bool :=
  match t with
  | Asm.BRB | Asm.ADD | Asm.SUB | Asm.SVC => true
  | _ => false
  end.

(** The statement expects a signed integer after its first token: it is a
    DATA statement, or an addressed opcode not followed by an identifier. *)
Definition integerExpected (lexer : Lexer) : bool :=
  Token_eqb (getLastToken lexer) DATA
  || (addressedOpcode (getLastToken lexer)
      && negb (Token_eqb (fst (getNextToken lexer)) IDENTIFIER)).

(** For a lexer whose last token starts the integer: a MINUS that is not
    followed by a NUMBER. *)
Definition minusWithoutNumber (lexer : Lexer) : bool :=
  Token_eqb (getLastToken lexer) MINUS
  && negb (Token_eqb (fst (getNextToken lexer)) NUMBER).

(** For a lexer whose last token starts the integer: the tokens are not
    [NUMBER] and not [MINUS NUMBER]. *)
Definition notSignedInteger (lexer : Lexer) : bool :=
  if Token_eqb (getLastToken lexer) MINUS
  then negb (Token_eqb (fst (getNextToken lexer)) NUMBER)
  else negb (Token_eqb (getLastToken lexer) NUMBER).

(** The three error conditions as the specification lists them. *)
Definition statementErrorAsSpecified (lexer : Lexer) : bool :=
  negb (statementToken (getLastToken lexer))
  || (Token_eqb (getLastToken lexer) Asm.OPR
      && negb (oprOperand (fst (getNextToken lexer))))
  || (integerExpected lexer
      && minusWithoutNumber (snd (getNextToken lexer))).

(** The same, with the second condition widened to every token sequence
    that is not a signed integer. *)
Definition statementError (lexer : Lexer) : bool :=
  negb (statementToken (getLastToken lexer))
  || (Token_eqb (getLastToken lexer) Asm.OPR
      && negb (oprOperand (fst (getNextToken lexer))))
  || (integerExpected lexer
      && notSignedInteger (snd (getNextToken lexer))).

(** [statementsParsed lexer lexer']: the loop of [parseProgram], started
    with [lexer], parses zero or more statements without error and is then
    about to test the next token of [lexer']. *)
Inductive statementsParsed : Lexer -> Lexer -> Prop :=
| parsed_none lexer : statementsParsed lexer lexer
| parsed_more lexer d lexer1 lexer2 :
    fst (getNextToken lexer) <> END_OF_FILE ->
    parseDirective (snd (getNextToken lexer)) = Returns (d, lexer1) ->
    statementsParsed lexer1 lexer2 ->
    statementsParsed lexer lexer2.

(** The lexer of [parseDirective] on the source [DATA foo]. *)
Definition atDataFoo : Lexer :=
  snd (getNextToken (openLexer [Word "DATA"; Word "foo"])).

(** Some statement that the loop of [parseProgram] reaches is in error. *)
Definition reachesError (lexer : Lexer) : Prop :=
  exists lexer1,
    statementsParsed lexer lexer1 /\
    fst (getNextToken lexer1) <> END_OF_FILE /\
    statementError (snd (getNextToken lexer1)) = true.

(** *** Proof steps

    Case analysis on an equation about [layoutDirective]. *)
Ltac layout_cases H :=
  unfold layoutDirective in H;
  match type of H with
  | context [getToken ?d] => destruct d; cbn [getToken] in H
  end;
  repeat (first
    [ match type of H with
      | context [Token_eqb ?a ?b] => destruct (Token_eqb a b)
      end
    | match type of H with
      | context [labelMapValue ?p ?m ?l] =>
          destruct (labelMapValue p m l) eqn:?
      end
    | match type of H with
      | context [match ?x !! ?i with _ => _ end] =>
          destruct (x !! i) eqn:?
      end ];
    cbn [obind] in H);
  try discriminate H.

(** Evaluation of the emitter on a single [InstrImm] of size [size], up to
    the bytes themselves. *)
Ltac emit_imm size :=
  unfold emitProgramBin; cbn [emitProgramBin_from]; unfold emitDirective;
  cbn [getToken getSize Token_eqb];
  match goal with
  | |- context [immSize ?v] => change (immSize v) with size
  end;
  match goal with
  | |- context [0 <? size] => change (0 <? size) with true
  end;
  cbv iota;
  cbn [getValue obind tokenToInstrOpc tokenToInstr].

(** *** The program of the test suite's exit0.S, laid out *)
Definition exitProgram : list Directive :=
  [InstrLabel Asm.BR "start" 7; Data 16383; Label "start" 8;
   InstrImm Asm.LDAC 0; InstrImm Asm.LDBM 1; InstrImm Asm.STAI 2;
   InstrImm Asm.LDAC 0; InstrOp Asm.SVC].

Definition exitLabels : gmap string nat := {[ "start" := 2%nat ]}.

(* ===================================================================== *)
(** * Further statements about the assembler and the simulator *)
(* ===================================================================== *)

(** A directive without the contents of its [labelValue] member. *)
Definition skeleton (d : Directive) : Directive :=
  match d with
  | Label label _ => Label label 0
  | InstrLabel token label _ => InstrLabel token label 0
  | _ => d
  end.

(** The directives the parser builds: an instruction with an operand has
    the token of an addressed opcode, OPR one of the four sub-opcodes. *)
Definition wellFormed (d : Directive) : bool :=
  match d with
  | InstrImm token _ | InstrLabel token _ _ => addressedOpcode token
  | InstrOp opcode => oprOperand opcode
  | _ => true
  end.

Definition isLabel (o : option Directive) : bool :=
  match o with Some (Label _ _) => true | _ => false end.

(** The label reference [d], at index [i], names a label that is declared
    in front of it. *)
Definition refersBack (labelMap : gmap string nat) (program : list Directive)
    (i : nat) (d : Directive) : bool :=
  match d with
  | InstrLabel _ label _ =>
      match labelMap !! label with
      | Some j => (j <? i)%nat
      | None => false
      end
  | _ => true
  end.

(** Every label reference of the program is a backward reference. *)
Definition backwardOnly (labelMap : gmap string nat)
    (program : list Directive) : bool :=
  forallb (fun b : bool => b) (imap (refersBack labelMap program) program).

(** The offset at which a directive is placed when the running offset is
    [byteOffset]. *)
Definition placedAt (d : Directive) (byteOffset : Z) : Z :=
  if Token_eqb (getToken d) DATA then alignData byteOffset else byteOffset.

(** A program with backward references only: a loop that counts down. *)
Definition countdownProgram : list Directive :=
  [InstrImm Asm.LDAC 5; Label "loop" 0; InstrImm Asm.LDBC 1;
   InstrOp Asm.SUB; InstrLabel Asm.BRZ "loop" 0; InstrLabel Asm.BR "loop" 0;
   Data 7].

Definition countdownLabels : gmap string nat := {[ "loop" := 1%nat ]}.

(** Two vectors with the same skeleton that hold the same directives below
    index [i]. *)
Definition agreeBelow (i : nat) (P Q : list Directive) : Prop :=
  map skeleton P = map skeleton Q /\
  forall j, (j < i)%nat -> P !! j = Q !! j.

(** Every label reference names a label whose declaration, as the label map
    has it, stands in front of the reference. *)
Definition backRefs (labelMap : gmap string nat) (P : list Directive) : Prop :=
  forall k token label v,
    P !! k = Some (InstrLabel token label v) ->
    exists j, labelMap !! label = Some j /\ (j < k)%nat.

(** What [createLabelMap] establishes and the layout relies on: the only
    directives with the token IDENTIFIER are labels, the entries of the map
    point to labels, and (third part) every reference has an entry. *)
Definition layoutReady (labelMap : gmap string nat) (P : list Directive)
    : Prop :=
  (forall k d, P !! k = Some d -> getToken d = IDENTIFIER ->
               isLabel (Some d) = true) /\
  (forall label j, labelMap !! label = Some j -> isLabel (P !! j) = true) /\
  (forall k token label v,
      P !! k = Some (InstrLabel token label v) ->
      is_Some (labelMap !! label)).

(** *** Running emitted code *)

(** The value an instruction directive carries as its operand. *)
Definition operand (d : Directive) : option Z :=
  match d with
  | InstrImm _ immValue => Some immValue
  | InstrLabel _ _ labelValue => Some labelValue
  | _ => None
  end.

(** The bytes [bytes] stand in the memory image [m] from byte address
    [start] on. *)
Definition imageAt (m : Z -> Z) (start : Z) (bytes : list Z) : Prop :=
  forall (k : nat) b, bytes !! k = Some b -> byteAt m (start + Z.of_nat k) = b.

(** What the prefix chain that the emitter writes for the operand [v] leaves
    in [oreg] when the simulator has fetched the last byte of the
    instruction: every NFIX sets bits 8 to 31 and keeps only the nibble
    that was fetched with it. *)
Definition decodedOperand (v : Z) : Z :=
  if v <? 0 then Z.lor 4294967040 (Z.land v 255) else v.

Section Steps.
Context {E : Encoding} {H : HostIO}.

(** [n] iterations of the loop body of [run], whatever [running] is. *)
Fixpoint steps (n : nat) (p : Processor) : outcome Processor :=
  match n with
  | O => Returns p
  | S n' => p' <- step p ;; steps n' p'
  end.
End Steps.

(** A processor of the example host with [bytes] loaded at address 0 of a
    zeroed memory, about to fetch at address 0. *)
Definition imageProcessor (bytes : list Z) : @Processor logHost :=
  @mkProcessor logHost 0 0 0 0 0 (storeBytes (fun _ => 0) 0 bytes)
               [] true false 0 0.

(** The same with the bytes at the address [start], and [pc] on them. *)
Definition imageProcessorAt (start : Z) (bytes : list Z)
    : @Processor logHost :=
  @mkProcessor logHost start 0 0 0 0 (storeBytes (fun _ => 0) start bytes)
               [] true false 0 0.

(** *** Simulator states *)

Section SimulatorStates.
Context {E : Encoding} {H : HostIO}.

(** The state dispatches the system call EXIT. *)
Definition atExit (p1 : Processor) : Prop :=
  toInstr (instrEnum p1) = Some Hex.OPR /\
  toOprInstr (oreg p1) = Some Hex.SVC /\
  toSyscall (areg p1) = Some Hex.EXIT.

(** The memory write of the instruction that the state dispatches, if it
    has one: the word index and the value. *)
Definition memoryWrite (p1 : Processor) : option (Z * Z) :=
  match toInstr (instrEnum p1) with
  | Some Hex.STAM => Some (oreg p1, areg p1)
  | Some Hex.STAI => Some (u32 (Z.shiftr (breg p1) 2 + oreg p1), areg p1)
  | Some Hex.OPR =>
      match toOprInstr (oreg p1), toSyscall (areg p1) with
      | Some Hex.SVC, Some Hex.READ =>
          let sp := Z.shiftr (memory p1 1) 2 in
          Some (u32 (sp + 1),
                u32 (fst (input (fileIO p1) (memory p1 (u32 (sp + 2))))))
      | _, _ => None
      end
  | _ => None
  end.

(** The members of type [uint32_t] hold 32-bit values. *)
Definition wordState (p : Processor) : Prop :=
  in_u32 (pc p) /\ in_u32 (areg p) /\ in_u32 (breg p) /\ in_u32 (oreg p) /\
  forall i, in_u32 (memory p i).
End SimulatorStates.

(** A processor about to execute [STAM 0] with 5 in [areg], under the
    numbering [specEncoding]: every memory word holds the byte [STAM|0] in
    its low lane. *)
Definition atStore : @Processor logHost :=
  @mkProcessor logHost 0 5 0 0 0 (fun _ => 176) [] true false 0 0.

(** *** The length the layout assumes and the size that is emitted

    How many bytes the emitted size of a label reference exceeds the
    length [instrLen] that the layout subtracted, depending on the
    distance from the instruction to its target: one more for the
    distances that give a displacement from -16 to -1, which is emitted
    with a prefix, one less for the distances [16^k + k], whose
    displacement [16^k - 1] needs one nibble less than the displacement
    tried before it. *)
Definition sizeGap (distance : Z) : Z :=
  if (-15 <=? distance) && (distance <=? 0) then 1
  else if existsb (fun k => distance =? 16 ^ k + k) [1; 2; 3; 4; 5; 6; 7]
       then -1
       else 0.

(* ===================================================================== *)
(** * The lexer on the characters of the file, asm.cpp *)
(* ===================================================================== *)

Module Scanner.

(** The value [EOF] of <cstdio>, and of [lastChar] after the assignment
    [lastChar = EOF]: [char] is a signed type on the targets, so the
    comparisons [lastChar == EOF] can succeed. *)
Definition EOF : Z := -1.

(** The classification functions of <cctype> in the C locale. *)
Definition isspace (c : Z) : bool := (c =? 32) || ((9 <=? c) && (c <=? 13)).
Definition isdigit (c : Z) : bool := (48 <=? c) && (c <=? 57).
Definition isalpha (c : Z) : bool :=
  ((65 <=? c) && (c <=? 90)) || ((97 <=? c) && (c <=? 122)).
Definition isalnum (c : Z) : bool := isalpha c || isdigit c.

(** They are defined on the values of [unsigned char] and on [EOF]; any
    other argument, a negative [char] that is not -1, is undefined
    behaviour. *)
Definition classified (c : Z) : bool :=
  (c =? EOF) || ((0 <=? c) && (c <=? 255)).

Definition ctype (f : Z -> bool) (c : Z) : outcome bool :=
  if classified c then Returns (f c) else Undefined (OutOfBounds c).

(** The members of [Lexer], with the characters of the file that have not
    been read yet, each as the value it has as a [char]. *)
Record Stream : Type := mkStream {
  file : list Z;
  lastChar : Z;
  identifier : string;
  value : Z;                 (* unsigned *)
  lastToken : Token;
  currentLine : Z            (* size_t *)
}.

Definition set_lastChar (c : Z) (s : Stream) : Stream :=
  mkStream (file s) c (identifier s) (value s) (lastToken s) (currentLine s).
Definition set_identifier (id : string) (s : Stream) : Stream :=
  mkStream (file s) (lastChar s) id (value s) (lastToken s) (currentLine s).
Definition set_value (v : Z) (s : Stream) : Stream :=
  mkStream (file s) (lastChar s) (identifier s) v (lastToken s)
           (currentLine s).
Definition set_lastToken (t : Token) (s : Stream) : Stream :=
  mkStream (file s) (lastChar s) (identifier s) (value s) t (currentLine s).

(** [currentLine++] *)
Definition nextLine (s : Stream) : Stream :=
  mkStream (file s) (lastChar s) (identifier s) (value s) (lastToken s)
           ((currentLine s + 1) mod 2 ^ 64).

(** [file.get(lastChar); if (file.eof()) lastChar = EOF;] *)
Definition readChar (s : Stream) : Stream :=
  match file s with
  | [] => set_lastChar EOF s
  | c :: rest =>
      mkStream rest c (identifier s) (value s) (lastToken s) (currentLine s)
  end.

(** The character [c] as an element of a [std::string]. *)
Definition charOf (c : Z) : Ascii.ascii := Ascii.ascii_of_N (Z.to_N c).

(** [identifier += lastChar] *)
Definition appendChar (id : string) (c : Z) : string :=
  (id ++ String (charOf c) EmptyString)%string.

(** The number that the digits of [number] denote in base 10. *)
Definition decimal (number : list Z) : Z :=
  fold_left (fun acc c => 10 * acc + (c - 48)) number 0.

(** [while (std::isspace(lastChar)) { if (lastChar == '\n') currentLine++;
    readChar(); }]; [None] when the fuel is used up. *)
Fixpoint skipWhitespace (fuel : nat) (s : Stream) : option (outcome Stream) :=
  match fuel with
  | O => None
  | S fuel' =>
      match ctype isspace (lastChar s) with
      | Returns true =>
          skipWhitespace fuel'
            (readChar (if lastChar s =? 10 then nextLine s else s))
      | Returns false => Some (Returns s)
      | Throws w => Some (Throws w)
      | Undefined u => Some (Undefined u)
      end
  end.

(** [do { readChar(); } while (lastChar != EOF && lastChar != '\n');] *)
Fixpoint skipComment (fuel : nat) (s : Stream) : option Stream :=
  match fuel with
  | O => None
  | S fuel' =>
      let s := readChar s in
      if negb (lastChar s =? EOF) && negb (lastChar s =? 10)
      then skipComment fuel' s
      else Some s
  end.

(** [while (std::isalnum(readChar()) || lastChar == '_')
      identifier += lastChar;] *)
Fixpoint readIdentifier (fuel : nat) (s : Stream) : option (outcome Stream) :=
  match fuel with
  | O => None
  | S fuel' =>
      let s := readChar s in
      match ctype isalnum (lastChar s) with
      | Returns b =>
          if b || (lastChar s =? 95)
          then readIdentifier fuel'
                 (set_identifier (appendChar (identifier s) (lastChar s)) s)
          else Some (Returns s)
      | Throws w => Some (Throws w)
      | Undefined u => Some (Undefined u)
      end
  end.

(** [while (std::isdigit(readChar())) number += lastChar;] *)
Fixpoint readNumber (fuel : nat) (s : Stream) (number : list Z)
    : option (outcome (Stream * list Z)) :=
  match fuel with
  | O => None
  | S fuel' =>
      let s := readChar s in
      match ctype isdigit (lastChar s) with
      | Returns true => readNumber fuel' s (number ++ [lastChar s])
      | Returns false => Some (Returns (s, number))
      | Throws w => Some (Throws w)
      | Undefined u => Some (Undefined u)
      end
  end.

(** [readToken]; the fuel bounds the iterations of each loop and the
    depth of the recursion behind comments. *)
Fixpoint readToken (fuel : nat) (s : Stream)
    : option (outcome (Token * Stream)) :=
  match fuel with
  | O => None
  | S fuel' =>
      match skipWhitespace fuel s with
      | None => None
      | Some (Throws w) => Some (Throws w)
      | Some (Undefined u) => Some (Undefined u)
      | Some (Returns s) =>
          if lastChar s =? 35 then
            match skipComment fuel s with
            | None => None
            | Some s =>
                readToken fuel' (if lastChar s =? 10 then nextLine s else s)
            end
          else
            match ctype isalpha (lastChar s) with
            | Throws w => Some (Throws w)
            | Undefined u => Some (Undefined u)
            | Returns true =>
                match readIdentifier fuel
                        (set_identifier
                           (String (charOf (lastChar s)) EmptyString) s) with
                | None => None
                | Some (Returns s) => Some (Returns (lookup (identifier s), s))
                | Some (Throws w) => Some (Throws w)
                | Some (Undefined u) => Some (Undefined u)
                end
            | Returns false =>
                match ctype isdigit (lastChar s) with
                | Throws w => Some (Throws w)
                | Undefined u => Some (Undefined u)
                | Returns true =>
                    match readNumber fuel s [lastChar s] with
                    | None => None
                    | Some (Returns (s, number)) =>
                        Some (Returns
                                (NUMBER,
                                 set_value (numberValue (decimal number)) s))
                    | Some (Throws w) => Some (Throws w)
                    | Some (Undefined u) => Some (Undefined u)
                    end
                | Returns false =>
                    if lastChar s =? 45 then Some (Returns (MINUS, readChar s))
                    else if lastChar s =? EOF
                         then Some (Returns (END_OF_FILE, s))
                         else Some (Returns (NONE, readChar s))
                end
            end
      end
  end.

(** What is left to read decides the fuel: every loop iteration and every
    recursive call reads a character. *)
Definition readToken_fuel (s : Stream) : nat := S (S (List.length (file s))).

(** [getNextToken]: [return lastToken = readToken();] *)
Definition getNextToken (s : Stream) : option (outcome (Token * Stream)) :=
  match readToken (readToken_fuel s) s with
  | Some (Returns (t, s)) => Some (Returns (t, set_lastToken t s))
  | other => other
  end.

(** [Lexer()] and [openFile]: the first character is read at once.  The
    constructor initialises neither [lastChar], which [readChar] writes
    here, nor [value] and [lastToken], which are written before they are
    read; they start as in [openLexer]. *)
Definition openFile (contents : list Z) : Stream :=
  readChar (mkStream contents 0 "" 0 NONE 0).

(** The loop of [main] for [--tokens], as the lines it prints up to [EOF]:
    the name for an identifier, the value for a number, and the name of
    the token for every other token ([Minus] and [Other] standing for the
    lines [MINUS] and [NONE]). *)
Fixpoint tokensOnly (fuel : nat) (s : Stream)
    : option (outcome (list Lexeme)) :=
  match fuel with
  | O => None
  | S fuel' =>
      match getNextToken s with
      | None => None
      | Some (Throws w) => Some (Throws w)
      | Some (Undefined u) => Some (Undefined u)
      | Some (Returns (t, s)) =>
          match t with
          | END_OF_FILE => Some (Returns [])
          | _ =>
              let line :=
                match t with
                | IDENTIFIER => Word (identifier s)
                | NUMBER => Number (value s)
                | MINUS => Minus
                | NONE => Other
                | _ => Word (tokenEnumStr (lastToken s))
                end in
              match tokensOnly fuel' s with
              | Some (Returns rest) => Some (Returns (line :: rest))
              | other => other
              end
          end
      end
  end.

End Scanner.

(** The number of characters the lexer can still consume: none once
    [lastChar] is [EOF], else [lastChar] and the unread rest of the file. *)
Definition unread (s : Scanner.Stream) : nat :=
  if Scanner.lastChar s =? Scanner.EOF then 0%nat
  else S (List.length (Scanner.file s)).

(** The string of the characters [l]. *)
Definition stringOf (l : list Z) : string :=
  fold_right (fun c acc => String (Scanner.charOf c) acc) EmptyString l.

(** A character that ends a word: the one after the last letter, digit or
    underscore, or the end of the file. *)
Definition endsWord (rest : list Z) : bool :=
  match rest with
  | [] => true
  | d :: _ => Scanner.classified d && negb (Scanner.isalnum d || (d =? 95))
  end.

(** A character that ends a number. *)
Definition endsNumber (rest : list Z) : bool :=
  match rest with
  | [] => true
  | d :: _ => Scanner.classified d && negb (Scanner.isdigit d)
  end.

(** The stream after [readChar] has moved on to the first character of
    [rest]. *)
Definition movedTo (rest : list Z) (s : Scanner.Stream) : Scanner.Stream :=
  match rest with
  | [] =>
      Scanner.mkStream [] Scanner.EOF (Scanner.identifier s)
        (Scanner.value s) (Scanner.lastToken s) (Scanner.currentLine s)
  | d :: rest' =>
      Scanner.mkStream rest' d (Scanner.identifier s)
        (Scanner.value s) (Scanner.lastToken s) (Scanner.currentLine s)
  end.

(** Every character the lexer can still read is one the functions of
    <cctype> are defined on. *)
Definition allClassified (s : Scanner.Stream) : bool :=
  Scanner.classified (Scanner.lastChar s)
  && forallb Scanner.classified (Scanner.file s).

(** What a loop of the lexer may end with, from the stream [s]: a stream
    [s'] that satisfies [post], or undefined behaviour over a character
    that <cctype> is not defined on. *)
Definition loopEnds (s : Scanner.Stream) (post : Scanner.Stream -> Prop)
    (r : outcome Scanner.Stream) : Prop :=
  match r with
  | Returns s' =>
      post s' /\ Scanner.value s' = Scanner.value s /\
      Scanner.lastToken s' = Scanner.lastToken s /\
      (allClassified s = true -> allClassified s' = true)
  | Throws _ => False
  | Undefined u =>
      (exists c, u = OutOfBounds c /\ Scanner.classified c = false) /\
      allClassified s = false
  end.
(* ===================================================================== *)
(** * Properties *)
(* ===================================================================== *)

(** ** Machine integers *)

Lemma wrap32_id (z : Z) : in_int z -> wrap32 z = z.
Proof.
  unfold in_int, min_int, max_int, wrap32. intros Hz.
  rewrite Z.mod_small; lia.
Qed.

Lemma wrap32_in_int (z : Z) : in_int (wrap32 z).
Proof.
  unfold in_int, min_int, max_int, wrap32.
  pose proof (Z.mod_pos_bound (z + 2 ^ 31) (2 ^ 32) ltac:(lia)). lia.
Qed.

Lemma u32_in_u32 (z : Z) : in_u32 (u32 z).
Proof. unfold in_u32, u32. apply Z.mod_pos_bound. lia. Qed.

Lemma u32_id (z : Z) : in_u32 z -> u32 z = z.
Proof. unfold in_u32, u32. intros Hz. apply Z.mod_small. lia. Qed.

(** ** The nibble count *)

Lemma shiftr4_div (v : Z) : Z.shiftr v 4 = v / 16.
Proof. rewrite Z.shiftr_div_pow2 by lia. reflexivity. Qed.

Lemma pow16_succ (k : Z) : 0 <= k -> 16 ^ (k + 1) = 16 * 16 ^ k.
Proof. intros Hk. rewrite Z.pow_add_r by lia. lia. Qed.

Lemma numNibbles_loop_spec (fuel : nat) :
  forall value n,
    0 <= value < 16 ^ Z.of_nat fuel ->
    let r := numNibbles_loop fuel value n in
    n <= r /\ value < 16 ^ (r - n + 1) /\
    forall m, 0 <= m -> value < 16 ^ (m + 1) -> r - n <= m.
Proof.
  induction fuel as [|fuel IH]; intros value n Hv; cbn [numNibbles_loop].
  - cbn in Hv. replace (n - n + 1) with 1 by lia. repeat split; lia.
  - rewrite Nat2Z.inj_succ, <- Z.add_1_r, pow16_succ in Hv by lia.
    destruct (Z.leb_spec 16 value) as [Hge|Hlt].
    + assert (Hq : 0 <= value / 16 < 16 ^ Z.of_nat fuel).
      { split; [apply Z.div_pos; lia|].
        apply Z.div_lt_upper_bound; lia. }
      rewrite shiftr4_div.
      specialize (IH (value / 16) (n + 1) Hq). cbn zeta in IH.
      destruct IH as (Hle & Hub & Hmin).
      set (r := numNibbles_loop fuel (value / 16) (n + 1)) in *.
      repeat split; [lia | |].
      * replace (r - n + 1) with ((r - (n + 1) + 1) + 1) by lia.
        rewrite pow16_succ by lia.
        pose proof (Z.div_mod value 16 ltac:(lia)) as Hdm.
        pose proof (Z.mod_pos_bound value 16 ltac:(lia)). lia.
      * intros m Hm Hvm.
        assert (m <> 0).
        { intros ->. cbn in Hvm. lia. }
        assert (value / 16 < 16 ^ ((m - 1) + 1)).
        { apply Z.div_lt_upper_bound; [lia|].
          rewrite <- pow16_succ by lia.
          replace (m - 1 + 1 + 1) with (m + 1) by lia. exact Hvm. }
        specialize (Hmin (m - 1) ltac:(lia) ltac:(assumption)). lia.
    + replace (n - n + 1) with 1 by lia. repeat split; try lia.
Qed.

(** The fuel of [numNibbles] is never used up: on the values an [int] can
    take, more fuel gives the same result. *)
Lemma numNibbles_loop_exit (fuel : nat) (value n : Z) :
  0 <= value <= max_int -> (numNibbles_fuel <= fuel)%nat ->
  numNibbles_loop fuel value n = numNibbles_loop numNibbles_fuel value n.
Proof.
  unfold max_int, numNibbles_fuel. intros Hv Hf.
  assert (H8 : 0 <= value < 16 ^ Z.of_nat 8) by (cbn; lia).
  assert (Hfu : 0 <= value < 16 ^ Z.of_nat fuel).
  { split; [lia|]. eapply Z.lt_le_trans; [apply H8|].
    apply Z.pow_le_mono_r; lia. }
  pose proof (numNibbles_loop_spec 8 value n H8) as (L1 & U1 & M1).
  pose proof (numNibbles_loop_spec fuel value n Hfu) as (L2 & U2 & M2).
  cbn zeta in *.
  set (r1 := numNibbles_loop 8 value n) in *.
  set (r2 := numNibbles_loop fuel value n) in *.
  specialize (M1 (r2 - n) ltac:(lia) U2).
  specialize (M2 (r1 - n) ltac:(lia) U1). lia.
Qed.

Lemma lnot_nonneg (v : Z) : v < 0 -> 0 <= Z.lnot v.
Proof. unfold Z.lnot. lia. Qed.

Lemma numNibbles_nonneg_spec (v : Z) :
  0 <= v <= max_int ->
  numNibbles_loop numNibbles_fuel v 1 = numNibbles v \/ v = 0.
Proof.
  intros Hv. unfold numNibbles.
  destruct (Z.eqb_spec v 0); [now right|left].
  destruct (Z.ltb_spec v 0); [lia|reflexivity].
Qed.

Lemma least_nibbles_loop (v : Z) :
  0 <= v <= max_int ->
  least_nibbles v (numNibbles_loop numNibbles_fuel v 1).
Proof.
  unfold max_int, numNibbles_fuel. intros Hv.
  assert (H8 : 0 <= v < 16 ^ Z.of_nat 8) by (cbn; lia).
  pose proof (numNibbles_loop_spec 8 v 1 H8) as (L & U & M). cbn zeta in *.
  set (r := numNibbles_loop 8 v 1) in *.
  replace (r - 1 + 1) with r in U by lia.
  repeat split; [lia|exact U|].
  intros m Hm Hvm. specialize (M (m - 1) ltac:(lia)).
  replace (m - 1 + 1) with m in M by lia. specialize (M Hvm). lia.
Qed.

Lemma numNibbles_spec (v : Z) : in_int v -> nibbles_spec v (numNibbles v).
Proof.
  unfold in_int, min_int, max_int. intros Hv.
  unfold nibbles_spec, nibbles_spec_nonneg.
  destruct (Z.eq_dec v 0) as [->|Hnz].
  { left. split; [lia|]. left. split; reflexivity. }
  destruct (Z_lt_le_dec v 0) as [Hneg|Hpos].
  - right. split; [exact Hneg|].
    assert (Hc : 0 <= Z.lnot v <= max_int).
    { unfold max_int, Z.lnot. lia. }
    assert (Heq : numNibbles v = numNibbles_loop numNibbles_fuel (Z.lnot v) 1).
    { unfold numNibbles.
      destruct (Z.eqb_spec v 0); [lia|].
      destruct (Z.ltb_spec v 0); [reflexivity|lia]. }
    rewrite Heq.
    destruct (Z.eq_dec (Z.lnot v) 0) as [Hz|Hz].
    + left. split; [exact Hz|]. rewrite Hz. reflexivity.
    + right. split; [lia|]. apply least_nibbles_loop; exact Hc.
  - left. split; [exact Hpos|]. right. split; [lia|].
    assert (Heq : numNibbles v = numNibbles_loop numNibbles_fuel v 1).
    { unfold numNibbles.
      destruct (Z.eqb_spec v 0); [lia|].
      destruct (Z.ltb_spec v 0); [lia|reflexivity]. }
    rewrite Heq. apply least_nibbles_loop. unfold max_int. lia.
Qed.

Lemma nibbles_spec_unique (v n m : Z) :
  nibbles_spec v n -> nibbles_spec v m -> n = m.
Proof.
  assert (U : forall w a b,
             nibbles_spec_nonneg w a -> nibbles_spec_nonneg w b -> a = b).
  { intros w a b [[? ?]|[? (La & Ua & Ma)]] [[? ?]|[? (Lb & Ub & Mb)]];
      try lia.
    specialize (Ma b Lb Ub). specialize (Mb a La Ua). lia. }
  intros [[? Hn]|[? Hn]] [[? Hm]|[? Hm]]; try lia; eapply U; eauto.
Qed.

(** On an [int] the nibble count is between 1 and 8. *)
Lemma numNibbles_bounds (v : Z) : in_int v -> 1 <= numNibbles v <= 8.
Proof.
  intros Hv. pose proof (numNibbles_spec v Hv) as Hs.
  unfold in_int, min_int, max_int in Hv.
  assert (B : forall w n, 0 <= w < 2 ^ 31 -> nibbles_spec_nonneg w n ->
                          1 <= n <= 8).
  { intros w n Hw [[_ ->]|[_ (L & _ & M)]]; [lia|].
    split; [exact L|]. apply M; [lia|]. cbn. lia. }
  destruct Hs as [[? Hs]|[? Hs]].
  - eapply B; [|exact Hs]. lia.
  - eapply B; [|exact Hs]. unfold Z.lnot. lia.
Qed.

(** C3.  For every 32-bit integer [v], the size of [InstrImm(op, v)] is the
    nibble count of the specification, except that a negative [v] with
    nibble count 1 has size 2; the nibble count is 1 for zero, the smallest
    [n >= 1] with [v < 16^n] for positive [v], and that rule applied to the
    complement for negative [v]. *)
Theorem C3_InstrImm_size (token : Token) (v : Z) :
  in_int v ->
  exists n,
    nibbles_spec v n /\
    (forall m, nibbles_spec v m -> m = n) /\
    getSize (InstrImm token v) = if (v <? 0) && (n =? 1) then 2 else n.
Proof.
  intros Hv. exists (numNibbles v). split; [|split].
  - apply numNibbles_spec; exact Hv.
  - intros m Hm. eapply nibbles_spec_unique; [exact Hm|].
    apply numNibbles_spec; exact Hv.
  - reflexivity.
Qed.

Lemma C3_InstrImm_size_witness :
  in_int (-5) /\
  exists n,
    nibbles_spec (-5) n /\
    (forall m, nibbles_spec (-5) m -> m = n) /\
    getSize (InstrImm LDAC (-5)) = if (-5 <? 0) && (n =? 1) then 2 else n.
Proof.
  assert (H : in_int (-5)) by (unfold in_int, min_int, max_int; lia).
  split; [exact H|]. exact (C3_InstrImm_size LDAC (-5) H).
Defined.

(** ** The length search *)

Lemma instrLen_loop_spec (labelOffset byteOffset : Z) (fuel : nat) :
  forall length,
    1 <= length <= 8 -> (9 <= Z.of_nat fuel + length) ->
    let r := instrLen_loop fuel labelOffset byteOffset length in
    length <= r <= 8 /\
    numNibbles (wrap32 (labelOffset - byteOffset - r)) <= r /\
    forall l, length <= l < r ->
              l < numNibbles (wrap32 (labelOffset - byteOffset - l)).
Proof.
  induction fuel as [|fuel IH]; intros length Hl Hf; cbn [instrLen_loop].
  - lia.
  - pose proof (numNibbles_bounds (wrap32 (labelOffset - byteOffset - length))
                                  (wrap32_in_int _)) as Hb.
    destruct (Z.ltb_spec length
                (numNibbles (wrap32 (labelOffset - byteOffset - length))))
      as [Hlt|Hge].
    + assert (Hw : wrap32 (length + 1) = length + 1).
      { apply wrap32_id. unfold in_int, min_int, max_int. lia. }
      rewrite Hw.
      specialize (IH (length + 1) ltac:(lia) ltac:(lia)). cbn zeta in IH.
      destruct IH as (Hr & Hex & Hmin).
      repeat split; try lia.
      intros l Hlr. destruct (Z.eq_dec l length) as [->|Hne];
        [exact Hlt | apply Hmin; lia].
    + repeat split; try lia.
Qed.

(** [instrLen] leaves its loop because the condition fails, with a length
    between 1 and 8, and that length is the smallest that satisfies
    [length >= numNibbles(labelOffset - byteOffset - length)]. *)
Lemma instrLen_loop_exit (labelOffset byteOffset : Z) :
  let r := instrLen labelOffset byteOffset in
  1 <= r <= 8 /\
  numNibbles (wrap32 (labelOffset - byteOffset - r)) <= r /\
  forall l, 1 <= l < r ->
            l < numNibbles (wrap32 (labelOffset - byteOffset - l)).
Proof.
  unfold instrLen, instrLen_fuel.
  apply instrLen_loop_spec; cbn; lia.
Qed.

(** ** Unresolved label references *)

Lemma labelMapValue_not_thrown program labelMap label w :
  labelMapValue program labelMap label <> Throws w.
Proof.
  unfold labelMapValue.
  destruct (labelMap !! label) as [j|]; [|congruence].
  destruct (program !! j) as [[]|]; congruence.
Qed.

Lemma labelMapValue_undefined program labelMap label u :
  labelMapValue program labelMap label = Undefined u -> u = NullDereference.
Proof.
  unfold labelMapValue.
  destruct (labelMap !! label) as [j|]; [|congruence].
  destruct (program !! j) as [[]|]; congruence.
Qed.

Lemma layoutDirective_not_thrown labelMap i directive program byteOffset w :
  layoutDirective labelMap i directive program byteOffset <> Throws w.
Proof.
  intros H. layout_cases H;
    match goal with
    | Hv : labelMapValue _ _ _ = Throws _ |- _ =>
        exact (labelMapValue_not_thrown _ _ _ _ Hv)
    end.
Qed.

Lemma layoutDirective_undefined labelMap i directive program byteOffset u :
  layoutDirective labelMap i directive program byteOffset = Undefined u ->
  u = NullDereference.
Proof.
  intros H. layout_cases H; try congruence;
    match goal with
    | Hv : labelMapValue _ _ _ = Undefined _ |- _ =>
        apply labelMapValue_undefined in Hv; congruence
    end.
Qed.

Lemma layoutDirective_keeps labelMap i directive program byteOffset r j d :
  layoutDirective labelMap i directive program byteOffset = Returns r ->
  j <> i -> program !! j = Some d -> fst r !! j = Some d.
Proof.
  intros Hr Hne Hj.
  assert (K : forall x (q : list Directive),
             q !! j = Some d -> <[i := x]> q !! j = Some d).
  { intros x q Hq. rewrite list_lookup_insert_ne by congruence. exact Hq. }
  layout_cases Hr; inversion Hr; subst; cbn [fst]; auto.
Qed.

(** A pass over a vector that holds a reference to a name missing from the
    label map ends in the null dereference, never in a thrown error. *)
Lemma layoutPass_from_unknown_label labelMap token label v :
  labelMap !! label = None ->
  forall n i program byteOffset placed k,
    program !! k = Some (InstrLabel token label v) ->
    (i <= k < i + n)%nat ->
    layoutPass_from n i labelMap program byteOffset placed
    = Undefined NullDereference.
Proof.
  intros Hnone. induction n as [|n IH]; intros i program byteOffset placed k Hk Hr.
  - lia.
  - cbn [layoutPass_from].
    destruct (program !! i) as [directive|] eqn:Hi.
    2:{ apply lookup_ge_None in Hi. apply lookup_lt_Some in Hk. lia. }
    destruct (Nat.eq_dec i k) as [->|Hne].
    + rewrite Hk in Hi. inversion Hi; subst directive.
      unfold layoutDirective, labelMapValue.
      destruct (Token_eqb (getToken (InstrLabel token label v)) DATA),
        (Token_eqb (getToken (InstrLabel token label v)) IDENTIFIER);
        cbn [obind]; rewrite ?Hnone; reflexivity.
    + destruct (layoutDirective labelMap i directive program byteOffset)
        as [[program' byteOffset']|w|u] eqn:Hd; cbn [obind fst snd].
      * apply (IH (S i) program' byteOffset' _ k); [|lia].
        apply (layoutDirective_keeps _ _ _ _ _ _ k _ Hd); [lia|exact Hk].
      * exfalso. eapply layoutDirective_not_thrown; exact Hd.
      * apply layoutDirective_undefined in Hd. congruence.
Qed.

Lemma resolveLabels_unknown_label program labelMap k token label v fuel :
  program !! k = Some (InstrLabel token label v) ->
  labelMap !! label = None ->
  resolveLabels (S fuel) program labelMap = Some (Undefined NullDereference).
Proof.
  intros Hk Hnone. unfold resolveLabels. cbn [resolveLabels_loop].
  change (-1 =? 0) with false. cbv iota.
  unfold layoutPass.
  rewrite (layoutPass_from_unknown_label labelMap token label v Hnone
             (List.length program) 0%nat program 0 [] k Hk).
  - reflexivity.
  - apply lookup_lt_Some in Hk. lia.
Qed.

(** C2.  The source [BR foo], in which no label [foo] is declared, parses;
    the layout then looks [foo] up in the label map, finds no entry and
    dereferences the null pointer it gets: the assembler stops without
    reporting an error, before the output file is opened. *)
Theorem C2_unknown_label_dereferences_null (E : Encoding) (fuel : nat) :
  parseProgram (openLexer [Word "BR"; Word "foo"])
  = Some (Returns [InstrLabel Asm.BR "foo" 0]) /\
  createLabelMap [InstrLabel Asm.BR "foo" 0] = Returns ∅ /\
  assemble (S fuel) [Word "BR"; Word "foo"]
  = Some (Crash NullDereference, NotCreated).
Proof.
  assert (Hp : parseProgram (openLexer [Word "BR"; Word "foo"])
               = Some (Returns [InstrLabel Asm.BR "foo" 0]))
    by reflexivity.
  assert (Hm : createLabelMap [InstrLabel Asm.BR "foo" 0] = Returns ∅)
    by reflexivity.
  split; [exact Hp|]. split; [exact Hm|].
  unfold assemble. rewrite Hp, Hm.
  rewrite (resolveLabels_unknown_label _ ∅ 0%nat Asm.BR "foo" 0 fuel);
    [reflexivity | reflexivity | apply lookup_empty].
Qed.

(** ** Resolved displacements *)

(** What the layout stores on a label reference: the distance to the target
    minus the length found by [instrLen]. *)
Lemma layoutDirective_InstrLabel labelMap i token label v program byteOffset
      target :
  labelMapValue program labelMap label = Returns target ->
  (i < List.length program)%nat ->
  layoutDirective labelMap i (InstrLabel token label v) program byteOffset
  = let at_ := if Token_eqb token DATA then alignData byteOffset
               else byteOffset in
    if Token_eqb token IDENTIFIER then Undefined NullDereference
    else
      let newValue :=
        wrap32 (wrap32 (target - at_) - instrLen target at_) in
      Returns (<[i := InstrLabel token label newValue]> program,
               wrap32 (at_ + immSize newValue)).
Proof.
  intros Ht Hi. unfold layoutDirective. cbn [getToken].
  destruct (Token_eqb token IDENTIFIER); cbn [obind]; [reflexivity|].
  rewrite Ht. cbn [obind].
  rewrite list_lookup_insert_eq by exact Hi. reflexivity.
Qed.

(** C1.  The program [foo; BR foo] (a label and a branch back to it) is laid
    out in two passes, for any initial contents of the two [labelValue]
    members.  The branch is placed at offset 0 with size 2 and its target is
    at offset 0, so the displacement of the specification is [-2]; the value
    stored is [-1]: [instrLen] answers 1 where [getSize] answers 2.  The
    assembler ends normally and writes the two bytes [NFIX|F], [BR|F]. *)
Theorem C1_backward_branch_displacement (j1 j2 : Z) (fuel : nat) :
  let program := [Label "foo" j1; InstrLabel Asm.BR "foo" j2] in
  let labelMap : gmap string nat := {[ "foo" := 0%nat ]} in
  let resolved := [Label "foo" 0; InstrLabel Asm.BR "foo" (-1)] in
  createLabelMap program = Returns labelMap /\
  resolveLabels (3 + fuel) program labelMap = Some (Returns resolved) /\
  emitProgramText resolved
  = [(0, Label "foo" 0, 0); (0, InstrLabel Asm.BR "foo" (-1), 2)] /\
  labelMapValue resolved labelMap "foo" = Returns 0 /\
  instrLen 0 0 = 1 /\
  @assemble specEncoding (3 + fuel) [Word "foo"; Word "BR"; Word "foo"]
  = Some (ExitSuccess, Written [207; 143]) /\
  ~ displacementsResolved resolved labelMap.
Proof.
  cbv zeta.
  assert (Hv : labelMapValue [Label "foo" 0; InstrLabel Asm.BR "foo" (-1)]
                 {[ "foo" := 0%nat ]} "foo" = Returns 0) by reflexivity.
  repeat split; try reflexivity.
  intros Hd.
  destruct (Hd 1%nat 0 Asm.BR "foo" (-1) 2 eq_refl) as (target & Ht & Heq).
  rewrite Hv in Ht. inversion Ht; subst target. discriminate Heq.
Qed.

(** ** The layout loop *)

Lemma resolveLabels_loop_step fuel labelMap program program' lastSize
      byteOffset byteOffset' :
  lastSize <> byteOffset ->
  passResult labelMap program = Returns (program', byteOffset') ->
  resolveLabels_loop (S fuel) labelMap program lastSize byteOffset
  = resolveLabels_loop fuel labelMap program' byteOffset byteOffset'.
Proof.
  intros Hne Hp. cbn [resolveLabels_loop].
  destruct (Z.eqb_spec lastSize byteOffset) as [|_]; [contradiction|].
  unfold passResult in Hp.
  destruct (layoutPass labelMap program) as [[[p off] pl]|w|u];
    cbn [obind fst snd] in Hp; [|discriminate|discriminate].
  inversion Hp; subst. reflexivity.
Qed.

Lemma oscillating_parsed :
  parseProgram (openLexer oscillatingSource) = Some (Returns oscillating).
Proof. vm_compute. reflexivity. Qed.

Lemma oscillating_labelMap :
  createLabelMap oscillating = Returns oscillatingLabels.
Proof. vm_compute. reflexivity. Qed.

Lemma oscillating_labelsResolve :
  labelsResolve oscillating oscillatingLabels = true.
Proof. vm_compute. reflexivity. Qed.

Lemma oscillating_first_pass :
  passResult oscillatingLabels oscillating = Returns (oscillatingFirst, 4100).
Proof. vm_compute. reflexivity. Qed.

Lemma oscillating_second_pass :
  passResult oscillatingLabels oscillatingFirst
  = Returns (oscillatingShort, 4096).
Proof. vm_compute. reflexivity. Qed.

Lemma oscillating_short_pass :
  passResult oscillatingLabels oscillatingShort
  = Returns (oscillatingLong, 4100).
Proof. vm_compute. reflexivity. Qed.

Lemma oscillating_long_pass :
  passResult oscillatingLabels oscillatingLong
  = Returns (oscillatingShort, 4096).
Proof. vm_compute. reflexivity. Qed.

Lemma oscillating_cycle (fuel : nat) :
  resolveLabels_loop fuel oscillatingLabels oscillatingShort 4100 4096 = None
  /\
  resolveLabels_loop fuel oscillatingLabels oscillatingLong 4096 4100 = None.
Proof.
  induction fuel as [|fuel [IHs IHl]]; [split; reflexivity|].
  split.
  - rewrite (fun Hne => resolveLabels_loop_step fuel _ _ _ _ _ _ Hne oscillating_short_pass)
      by lia.
    exact IHl.
  - rewrite (fun Hne => resolveLabels_loop_step fuel _ _ _ _ _ _ Hne oscillating_long_pass)
      by lia.
    exact IHs.
Qed.

Lemma oscillating_diverges (fuel : nat) :
  resolveLabels fuel oscillating oscillatingLabels = None.
Proof.
  unfold resolveLabels.
  destruct fuel as [|fuel]; [reflexivity|].
  rewrite (fun Hne => resolveLabels_loop_step fuel _ _ _ _ _ _ Hne oscillating_first_pass)
      by lia.
  destruct fuel as [|fuel]; [reflexivity|].
  rewrite (fun Hne => resolveLabels_loop_step fuel _ _ _ _ _ _ Hne oscillating_second_pass)
      by lia.
  apply oscillating_cycle.
Qed.

(** C7.  The layout loop does not terminate on every program whose label
    references resolve.  The source [oscillatingSource] parses, all four of
    its labels are declared, and its layout alternates for ever between an
    image of 4100 bytes and one of 4096 bytes, so the test
    [lastSize != byteOffset] never fails: whatever the number of iterations
    allowed, the loop has not returned.  The inner search [instrLen], for
    its part, leaves its loop on all arguments, with a length between 1 and
    8 that the nibble count of the displacement does not exceed. *)
Theorem C7_layout_loop_oscillates (E : Encoding) (fuel : nat) :
  parseProgram (openLexer oscillatingSource) = Some (Returns oscillating) /\
  createLabelMap oscillating = Returns oscillatingLabels /\
  labelsResolve oscillating oscillatingLabels = true /\
  resolveLabels fuel oscillating oscillatingLabels = None /\
  assemble fuel oscillatingSource = None /\
  (forall labelOffset byteOffset,
      let length := instrLen labelOffset byteOffset in
      1 <= length <= 8 /\
      numNibbles (wrap32 (labelOffset - byteOffset - length)) <= length).
Proof.
  split; [exact oscillating_parsed|].
  split; [exact oscillating_labelMap|].
  split; [exact oscillating_labelsResolve|].
  split; [apply oscillating_diverges|].
  split.
  - unfold assemble.
    rewrite oscillating_parsed, oscillating_labelMap, oscillating_diverges.
    reflexivity.
  - intros labelOffset byteOffset.
    destruct (instrLen_loop_exit labelOffset byteOffset) as (Hr & Hx & _).
    split; assumption.
Qed.

(** ** Offsets of the layout pass and of the emitter *)

Lemma wrap32_wrap32_add (a b : Z) : wrap32 (wrap32 a + b) = wrap32 (a + b).
Proof.
  unfold wrap32. f_equal.
  replace ((a + 2 ^ 31) mod 2 ^ 32 - 2 ^ 31 + b + 2 ^ 31)
    with ((a + 2 ^ 31) mod 2 ^ 32 + b) by lia.
  replace (a + b + 2 ^ 31) with ((a + 2 ^ 31) + b) by lia.
  rewrite Zplus_mod_idemp_l. reflexivity.
Qed.

Lemma wrap32_mod4 (a : Z) : wrap32 a mod 4 = a mod 4.
Proof.
  unfold wrap32.
  pose proof (Z.div_mod (a + 2 ^ 31) (2 ^ 32) ltac:(lia)) as Hdm.
  set (q := (a + 2 ^ 31) / 2 ^ 32) in *.
  replace ((a + 2 ^ 31) mod 2 ^ 32 - 2 ^ 31) with (a + (- (q * 2 ^ 30)) * 4)
    by lia.
  apply Z.mod_add. lia.
Qed.

Lemma land3_mod4 (a : Z) : Z.land a 3 = a mod 4.
Proof. change 3 with (Z.ones 2). rewrite Z.land_ones by lia. reflexivity. Qed.

Lemma alignData_padding (byteOffset : Z) :
  in_int byteOffset ->
  alignData byteOffset = wrap32 (byteOffset + paddingBefore byteOffset).
Proof.
  intros Hi. unfold alignData, paddingBefore. rewrite land3_mod4.
  destruct (Z.eqb_spec (byteOffset mod 4) 0).
  - rewrite Z.add_0_r, wrap32_id by exact Hi. reflexivity.
  - reflexivity.
Qed.

Lemma paddingBefore_range (byteOffset : Z) :
  0 <= paddingBefore byteOffset < 4.
Proof.
  unfold paddingBefore.
  pose proof (Z.mod_pos_bound byteOffset 4 ltac:(lia)).
  destruct (Z.eqb_spec (byteOffset mod 4) 0); lia.
Qed.

Lemma paddingBefore_aligns (byteOffset : Z) :
  (byteOffset + paddingBefore byteOffset) mod 4 = 0.
Proof.
  unfold paddingBefore.
  destruct (Z.eqb_spec (byteOffset mod 4) 0) as [Hz|Hnz].
  - rewrite Z.add_0_r. exact Hz.
  - replace (byteOffset + (4 - byteOffset mod 4))
      with (byteOffset - byteOffset mod 4 + 1 * 4) by lia.
    rewrite Z.mod_add by lia.
    rewrite Zminus_mod_idemp_r. rewrite Z.sub_diag. reflexivity.
Qed.

Lemma alignData_aligned (byteOffset : Z) :
  in_int byteOffset -> alignData byteOffset mod 4 = 0.
Proof.
  intros Hi. rewrite alignData_padding by exact Hi.
  rewrite wrap32_mod4. apply paddingBefore_aligns.
Qed.

Lemma alignData_in_int (byteOffset : Z) :
  in_int byteOffset -> in_int (alignData byteOffset).
Proof.
  intros Hi. unfold alignData.
  destruct (Z.land byteOffset 3 =? 0); [exact Hi|apply wrap32_in_int].
Qed.

Lemma numNibbles_loop_ge (fuel : nat) :
  forall value n, n <= numNibbles_loop fuel value n.
Proof.
  induction fuel as [|fuel IH]; intros value n; cbn [numNibbles_loop]; [lia|].
  destruct (16 <=? value); [|lia].
  specialize (IH (Z.shiftr value 4) (n + 1)). lia.
Qed.

Lemma numNibbles_pos (v : Z) : 1 <= numNibbles v.
Proof.
  unfold numNibbles. destruct (v =? 0); [lia|]. apply numNibbles_loop_ge.
Qed.

Lemma immSize_pos (v : Z) : 1 <= immSize v.
Proof.
  unfold immSize. pose proof (numNibbles_pos v).
  destruct ((v <? 0) && (numNibbles v =? 1)); lia.
Qed.

Lemma getSize_nonneg (d : Directive) : 0 <= getSize d.
Proof.
  destruct d as [v|s|s|l v|t v|t l v|t]; cbn [getSize]; try lia;
    pose proof (immSize_pos v); lia.
Qed.

Lemma offsetAfter_app (p1 p2 : list Directive) (byteOffset : Z) :
  offsetAfter (p1 ++ p2) byteOffset = offsetAfter p2 (offsetAfter p1 byteOffset).
Proof.
  revert byteOffset. induction p1 as [|d p1 IH]; intros byteOffset;
    cbn [offsetAfter app]; [reflexivity|apply IH].
Qed.

(** What one visit of the layout does to the vector and to the offset. *)
Lemma layoutDirective_shape labelMap i directive program byteOffset program'
      byteOffset' :
  layoutDirective labelMap i directive program byteOffset
  = Returns (program', byteOffset') ->
  program !! i = Some directive ->
  List.length program' = List.length program /\
  (forall j, j <> i -> program' !! j = program !! j) /\
  exists directive',
    program' !! i = Some directive' /\
    getToken directive' = getToken directive /\
    byteOffset' = offsetAfter [directive'] byteOffset.
Proof.
  intros Hr Hi.
  assert (Hlt : (i < List.length program)%nat)
    by (eapply lookup_lt_Some; exact Hi).
  unfold layoutDirective in Hr. cbn [offsetAfter].
  destruct directive; cbn [getToken] in *.
  all: try (cbn [Token_eqb obind] in Hr; rewrite Hi in Hr; inversion Hr; subst;
            split; [reflexivity|]; split; [reflexivity|];
            eexists; split; [exact Hi|]; split; reflexivity).
  - (* Label *)
    cbn [Token_eqb obind] in Hr.
    rewrite list_lookup_insert_eq in Hr by exact Hlt.
    inversion Hr; subst.
    split; [apply length_insert|].
    split; [intros j Hj; apply list_lookup_insert_ne; congruence|].
    eexists. split; [apply list_lookup_insert_eq; exact Hlt|].
    split; reflexivity.
  - (* InstrImm *)
    destruct (Token_eqb token IDENTIFIER); cbn [obind] in Hr; [discriminate|].
    rewrite Hi in Hr. inversion Hr; subst.
    split; [reflexivity|]. split; [reflexivity|].
    eexists. split; [exact Hi|]. split; reflexivity.
  - (* InstrLabel *)
    destruct (Token_eqb token IDENTIFIER); cbn [obind] in Hr; [discriminate|].
    destruct (labelMapValue program labelMap label) as [target|w|u];
      cbn [obind] in Hr; try discriminate.
    rewrite list_lookup_insert_eq in Hr by exact Hlt.
    inversion Hr; subst.
    split; [apply length_insert|].
    split; [intros j Hj; apply list_lookup_insert_ne; congruence|].
    eexists. split; [apply list_lookup_insert_eq; exact Hlt|].
    split; reflexivity.
Qed.

Lemma offsetAfter_in_int (program : list Directive) (byteOffset : Z) :
  in_int byteOffset -> in_int (offsetAfter program byteOffset).
Proof.
  revert byteOffset. induction program as [|d program IH]; intros byteOffset Hi;
    cbn [offsetAfter]; [exact Hi|].
  apply IH, wrap32_in_int.
Qed.

(** The pass visits every directive once, changes only the directive it
    visits, and reaches directive [j] with the offset that the directives in
    front of it, as the pass leaves them, add up to. *)
Lemma layoutPass_from_spec labelMap (n : nat) :
  forall i program byteOffset entered program' total entered',
    layoutPass_from n i labelMap program byteOffset entered
    = Returns (program', total, entered') ->
    (i + n = List.length program)%nat ->
    List.length entered = i ->
    List.length program' = List.length program /\
    (forall j, (j < i)%nat -> program' !! j = program !! j) /\
    (forall j, (j < i)%nat -> entered' !! j = entered !! j) /\
    (forall j, (i <= j < List.length program)%nat ->
       entered' !! j
       = Some (offsetAfter (take (j - i) (drop i program')) byteOffset)) /\
    total = offsetAfter (drop i program') byteOffset.
Proof.
  induction n as [|n IH];
    intros i program byteOffset entered program' total entered' Hr Hn He;
    cbn [layoutPass_from] in Hr.
  - inversion Hr; subst. split; [reflexivity|]. split; [reflexivity|].
    split; [reflexivity|].
    split; [intros j Hj; lia|].
    rewrite drop_ge by lia. reflexivity.
  - destruct (program !! i) as [directive|] eqn:Hi.
    2:{ apply lookup_ge_None in Hi. lia. }
    destruct (layoutDirective labelMap i directive program byteOffset)
      as [[program1 byteOffset1]|w|u] eqn:Hd; cbn [obind fst snd] in Hr;
      try discriminate.
    destruct (layoutDirective_shape _ _ _ _ _ _ _ Hd Hi)
      as (Hlen1 & Hother1 & directive1 & Hi1 & Htok1 & Hoff1).
    specialize (IH (S i) program1 byteOffset1 (entered ++ [byteOffset])
                   program' total entered' Hr).
    destruct IH as (Hlen & Hkeep & Hold & Hent & Htot).
    { lia. }
    { rewrite length_app. cbn. lia. }
    assert (Hi' : program' !! i = Some directive1).
    { rewrite Hkeep by lia. exact Hi1. }
    assert (Hdrop : drop i program' = directive1 :: drop (S i) program').
    { apply drop_S. exact Hi'. }
    split; [lia|].
    split.
    { intros j Hj. rewrite Hkeep by lia. apply Hother1. lia. }
    split.
    { intros j Hj. rewrite Hold by lia. apply lookup_app_l. lia. }
    split.
    + intros j Hj. rewrite Hdrop.
      destruct (Nat.eq_dec j i) as [->|Hne].
      * rewrite Nat.sub_diag. cbn [take offsetAfter].
        rewrite Hold by lia. subst i. apply list_lookup_middle. reflexivity.
      * replace (j - i)%nat with (S (j - S i)) by lia.
        cbn [take]. rewrite Hent by lia.
        cbn [offsetAfter] in Hoff1 |- *. rewrite <- Hoff1. reflexivity.
    + rewrite Hdrop. cbn [offsetAfter] in Hoff1 |- *. rewrite <- Hoff1.
      exact Htot.
Qed.

(** The offset with which the pass reaches directive [j] is the offset after
    the first [j] directives of the vector it returns. *)
Lemma layoutPass_entered labelMap program program' total entered j :
  layoutPass labelMap program = Returns (program', total, entered) ->
  (j < List.length program')%nat ->
  entered !! j = Some (offsetAfter (take j program') 0) /\
  total = offsetAfter program' 0.
Proof.
  unfold layoutPass. intros Hr Hj.
  destruct (layoutPass_from_spec _ _ _ _ _ _ _ _ _ Hr) as (Hl & _ & _ & He & Ht);
    [lia|reflexivity|].
  split.
  - rewrite He by lia. rewrite Nat.sub_0_r, drop_0. reflexivity.
  - rewrite drop_0 in Ht. exact Ht.
Qed.

Section EmitterOffsets.
Context {E : Encoding}.

Lemma emitPrefixes_length (i : nat) instr directive l :
  emitPrefixes i instr directive = Returns l -> List.length l = i.
Proof.
  revert l. induction i as [|i IH]; intros l Hl; cbn [emitPrefixes] in Hl.
  - inversion Hl. reflexivity.
  - destruct (getValue directive) as [v|w|u]; cbn [obind] in Hl;
      try discriminate.
    destruct (emitPrefixes i instr directive) as [rest|w|u];
      cbn [obind] in Hl; try discriminate.
    inversion Hl; subst. cbn [List.length]. f_equal. apply IH. reflexivity.
Qed.

Lemma emitDirective_Data (v byteOffset : Z) :
  emitDirective (Data v) byteOffset
  = Returns (List.repeat 0 (Z.to_nat (paddingBefore byteOffset))
               ++ intBytes v,
             wrap32 (wrap32 (byteOffset + paddingBefore byteOffset) + 4)).
Proof.
  unfold emitDirective, paddingBefore. cbn [getToken Token_eqb getSize].
  rewrite land3_mod4. reflexivity.
Qed.

(** The emitter advances its offset by the number of bytes it writes, and
    by the amount the layout pass advances its own. *)
Lemma emitDirective_offset directive byteOffset bytes byteOffset' :
  emitDirective directive byteOffset = Returns (bytes, byteOffset') ->
  in_int byteOffset ->
  byteOffset' = offsetAfter [directive] byteOffset /\
  byteOffset' = wrap32 (byteOffset + Z.of_nat (List.length bytes)).
Proof.
  intros Hr Hi. cbn [offsetAfter]. unfold emitDirective in Hr.
  destruct (Token_eqb (getToken directive) DATA) eqn:Htok.
  - destruct directive; try discriminate Hr.
    inversion Hr; subst. cbn [getSize].
    rewrite length_app, repeat_length. cbn [intBytes firstn List.length].
    fold (paddingBefore byteOffset).
    change (Z.to_nat 4) with 4%nat. cbn [firstn List.length].
    pose proof (paddingBefore_range byteOffset) as Hp.
    assert (Hpad : (if Z.land byteOffset 3 =? 0 then 0
                    else 4 - Z.land byteOffset 3) = paddingBefore byteOffset).
    { unfold paddingBefore. rewrite land3_mod4. reflexivity. }
    rewrite Hpad. rewrite alignData_padding by exact Hi.
    rewrite !wrap32_wrap32_add. split; f_equal; lia.
  - pose proof (getSize_nonneg directive) as Hs.
    destruct (Z.ltb_spec 0 (getSize directive)) as [Hpos|Hzero].
    + destruct (Z.ltb_spec 1 (getSize directive)) as [Hbig|Hone].
      * destruct (getValue directive) as [v|w|u]; cbn [obind] in Hr;
          try discriminate.
        destruct (emitPrefixes _ _ directive) as [prefixes|w|u] eqn:Hp;
          cbn [obind] in Hr; try discriminate.
        destruct (tokenToInstrOpc (getToken directive)) as [opc|w|u];
          cbn [obind] in Hr; try discriminate.
        inversion Hr; subst. apply emitPrefixes_length in Hp.
        rewrite length_app, Hp. cbn [List.length].
        split; f_equal; lia.
      * cbn [obind] in Hr.
        destruct (tokenToInstrOpc (getToken directive)) as [opc|w|u];
          cbn [obind] in Hr; try discriminate.
        destruct (getValue directive) as [v|w|u]; cbn [obind] in Hr;
          try discriminate.
        inversion Hr; subst. cbn [List.length app].
        split; f_equal; lia.
    + inversion Hr; subst. cbn [List.length].
      replace (getSize directive) with 0 by lia.
      rewrite !Z.add_0_r, wrap32_id by exact Hi. split; reflexivity.
Qed.

Lemma emitProgramBin_from_app p1 p2 written byteOffset :
  emitProgramBin_from (p1 ++ p2) written byteOffset
  = (r <- emitProgramBin_from p1 written byteOffset ;;
     emitProgramBin_from p2 (fst r) (snd r)).
Proof.
  revert written byteOffset.
  induction p1 as [|d p1 IH]; intros written byteOffset;
    cbn [app emitProgramBin_from obind fst snd]; [reflexivity|].
  destruct (emitDirective d byteOffset) as [r|w|u]; cbn [obind];
    [apply IH|reflexivity|reflexivity].
Qed.

Lemma emitProgramBin_from_spec program :
  forall written byteOffset bytes byteOffset',
    emitProgramBin_from program written byteOffset
    = Returns (bytes, byteOffset') ->
    in_int byteOffset ->
    byteOffset' = offsetAfter program byteOffset /\
    exists emitted,
      bytes = written ++ emitted /\
      byteOffset' = wrap32 (byteOffset + Z.of_nat (List.length emitted)).
Proof.
  induction program as [|d program IH];
    intros written byteOffset bytes byteOffset' Hr Hi;
    cbn [emitProgramBin_from] in Hr.
  - inversion Hr; subst. split; [reflexivity|].
    exists []. rewrite app_nil_r. cbn [List.length].
    rewrite Z.add_0_r, wrap32_id by exact Hi. split; reflexivity.
  - destruct (emitDirective d byteOffset) as [[bs off1]|w|u] eqn:Hd;
      cbn [obind fst snd] in Hr; try discriminate.
    destruct (emitDirective_offset _ _ _ _ Hd Hi) as (Ho1 & Ho2).
    destruct (IH _ _ _ _ Hr) as (Ho & emitted & Hb & Hw).
    { rewrite Ho2. apply wrap32_in_int. }
    split.
    + cbn [offsetAfter] in Ho1 |- *. rewrite <- Ho1. exact Ho.
    + exists (bs ++ emitted). split.
      * rewrite Hb, app_assoc. reflexivity.
      * rewrite Hw, Ho2, wrap32_wrap32_add, length_app. f_equal. lia.
Qed.

(** The emitter's offset is the number of bytes written, as an [int]. *)
Lemma emitProgramBin_offset program bytes byteOffset :
  emitProgramBin program = Returns (bytes, byteOffset) ->
  byteOffset = offsetAfter program 0 /\
  byteOffset = wrap32 (Z.of_nat (List.length bytes)).
Proof.
  unfold emitProgramBin. intros Hr.
  destruct (emitProgramBin_from_spec _ _ _ _ _ Hr) as (Ho & emitted & Hb & Hw).
  { unfold in_int, min_int, max_int. lia. }
  split; [exact Ho|]. rewrite Hb, app_nil_l, Hw. reflexivity.
Qed.

End EmitterOffsets.

(** C6.  After any pass of the layout (the last one in particular), take a
    data directive at index [i] of the vector the pass returns and let the
    emitter have written the directives in front of it.  Then the emitter
    stands at the offset with which the layout pass reached the directive;
    both insert the same padding, [4 - offset mod 4] bytes when the offset is
    not a multiple of 4 and none otherwise; the emitter writes that many
    zero bytes followed by the four bytes of the word; and the word starts
    at a multiple of 4, both as placed by the layout and as counted in the
    bytes of the output. *)
Theorem C6_data_alignment (E : Encoding) labelMap program program' total
        entered (i : nat) (v : Z) bytes byteOffset :
  layoutPass labelMap program = Returns (program', total, entered) ->
  program' !! i = Some (Data v) ->
  emitProgramBin (take i program') = Returns (bytes, byteOffset) ->
  let padding := paddingBefore byteOffset in
  entered !! i = Some byteOffset /\
  alignData byteOffset = wrap32 (byteOffset + padding) /\
  alignData byteOffset mod 4 = 0 /\
  emitProgramBin (take (S i) program')
  = Returns (bytes ++ List.repeat 0 (Z.to_nat padding) ++ intBytes v,
             wrap32 (alignData byteOffset + 4)) /\
  (Z.of_nat (List.length bytes) + padding) mod 4 = 0.
Proof.
  intros Hpass Hi Hemit padding.
  assert (Hlt : (i < List.length program')%nat)
    by (eapply lookup_lt_Some; exact Hi).
  destruct (layoutPass_entered _ _ _ _ _ i Hpass Hlt) as (Hent & _).
  destruct (emitProgramBin_offset _ _ _ Hemit) as (Hoff & Hbytes).
  assert (Hint : in_int byteOffset) by (rewrite Hbytes; apply wrap32_in_int).
  split; [rewrite Hent, Hoff; reflexivity|].
  split; [apply alignData_padding; exact Hint|].
  split; [apply alignData_aligned; exact Hint|].
  split.
  - rewrite (take_S_r _ _ _ Hi). unfold emitProgramBin in *.
    rewrite emitProgramBin_from_app, Hemit. cbn [obind fst snd].
    cbn [emitProgramBin_from]. rewrite emitDirective_Data.
    cbn [obind fst snd emitProgramBin_from].
    rewrite alignData_padding by exact Hint. reflexivity.
  - pose proof (paddingBefore_aligns byteOffset) as Ha. fold padding in Ha.
    pose proof (wrap32_mod4 (Z.of_nat (List.length bytes))) as Hm.
    rewrite <- Hbytes in Hm.
    rewrite Z.add_mod by lia. rewrite <- Hm.
    rewrite <- Z.add_mod by lia. exact Ha.
Qed.

Lemma C6_data_alignment_witness :
  layoutPass exitLabels exitProgram
  = Returns (exitProgram, 13, [0; 1; 8; 8; 9; 10; 11; 12]) /\
  exitProgram !! 1%nat = Some (Data 16383) /\
  @emitProgramBin specEncoding (take 1 exitProgram) = Returns ([135], 1) /\
  @emitProgramBin specEncoding (take 2 exitProgram)
  = Returns ([135; 0; 0; 0; 255; 63; 0; 0], 8).
Proof.
  assert (H1 : layoutPass exitLabels exitProgram
               = Returns (exitProgram, 13, [0; 1; 8; 8; 9; 10; 11; 12]))
    by (vm_compute; reflexivity).
  assert (H2 : exitProgram !! 1%nat = Some (Data 16383)) by reflexivity.
  assert (H3 : @emitProgramBin specEncoding (take 1 exitProgram)
               = Returns ([135], 1)) by (vm_compute; reflexivity).
  split; [exact H1|]. split; [exact H2|]. split; [exact H3|].
  destruct (C6_data_alignment specEncoding _ _ _ _ _ 1%nat 16383 _ _ H1 H2 H3)
    as (_ & _ & _ & Hemit & _).
  exact Hemit.
Defined.

(** ** Bytes in the memory image *)

Lemma testbit_255 (k : Z) : 0 <= k -> Z.testbit 255 k = (k <? 8).
Proof.
  intros Hk. change 255 with (Z.ones 8).
  apply Z.testbit_ones_nonneg; lia.
Qed.

Lemma testbit_byte_high (byte k : Z) :
  0 <= byte < 256 -> 8 <= k -> Z.testbit byte k = false.
Proof.
  intros Hb Hk. rewrite <- (Z.mod_small byte (2 ^ 8)) by (cbn; lia).
  apply Z.mod_pow2_bits_high. lia.
Qed.

Lemma lane_shift (b : Z) :
  exists l, 0 <= l < 4 /\ Z.land b 3 = l /\ Z.shiftl (Z.land b 3) 3 = 8 * l.
Proof.
  exists (b mod 4). rewrite land3_mod4.
  pose proof (Z.mod_pos_bound b 4 ltac:(lia)).
  rewrite Z.shiftl_mul_pow2 by lia. change (2 ^ 3) with 8.
  repeat split; lia.
Qed.

Lemma byteAt_storeByte_same (m : Z -> Z) (b byte : Z) :
  0 <= byte < 256 -> byteAt (storeByte m b byte) b = byte.
Proof.
  intros Hb. unfold byteAt, storeByte.
  rewrite Z.eqb_refl.
  destruct (lane_shift b) as (l & Hl & _ & ->).
  apply Z.bits_inj'. intros k Hk.
  rewrite Z.land_spec, Z.shiftr_spec, Z.lor_spec, Z.land_spec,
    Z.shiftl_spec, Z.lnot_spec, Z.shiftl_spec by lia.
  replace (k + 8 * l - 8 * l) with k by lia.
  rewrite !testbit_255 by lia.
  destruct (Z.ltb_spec k 8).
  - cbn [negb]. rewrite andb_false_r, andb_true_r. reflexivity.
  - rewrite andb_false_r. symmetry. apply testbit_byte_high; lia.
Qed.

Lemma byteAt_storeByte_other (m : Z -> Z) (b b' byte : Z) :
  0 <= byte < 256 -> b <> b' ->
  byteAt (storeByte m b byte) b' = byteAt m b'.
Proof.
  intros Hb Hne. unfold byteAt, storeByte.
  destruct (Z.eqb_spec (Z.shiftr b' 2) (Z.shiftr b 2)) as [Hw|Hw];
    [|reflexivity].
  destruct (lane_shift b) as (l & Hl & Hlb & ->).
  destruct (lane_shift b') as (l' & Hl' & Hlb' & ->).
  assert (Hll : l <> l').
  { intros ->. apply Hne.
    rewrite land3_mod4 in Hlb, Hlb'.
    rewrite !Z.shiftr_div_pow2 in Hw by lia. change (2 ^ 2) with 4 in Hw.
    rewrite (Z.div_mod b 4), (Z.div_mod b' 4) by lia. lia. }
  apply Z.bits_inj'. intros k Hk.
  rewrite !Z.land_spec, !Z.shiftr_spec, Z.lor_spec, Z.land_spec by lia.
  destruct (Z.ltb_spec k 8) as [Hk8|Hk8].
  2:{ rewrite testbit_255 by lia.
      destruct (Z.ltb_spec k 8); [lia|]. rewrite !andb_false_r. reflexivity. }
  f_equal.
  assert (Hcase : k + 8 * l' - 8 * l < 0 \/ 8 <= k + 8 * l' - 8 * l) by lia.
  rewrite Z.lnot_spec by lia.
  destruct Hcase as [Hlow|Hhigh].
  - rewrite !(Z.shiftl_spec_low) by lia.
    cbn [negb]. rewrite andb_true_r, orb_false_r. reflexivity.
  - rewrite !Z.shiftl_spec by lia.
    rewrite testbit_255 by lia.
    destruct (Z.ltb_spec (k + 8 * l' - 8 * l) 8); [lia|].
    rewrite (testbit_byte_high byte) by lia.
    cbn [negb]. rewrite andb_true_r, orb_false_r. reflexivity.
Qed.

Lemma byteAt_storeBytes_before (bytes : list Z) :
  forall m start b,
    Forall (fun byte => 0 <= byte < 256) bytes -> b < start ->
    byteAt (storeBytes m start bytes) b = byteAt m b.
Proof.
  induction bytes as [|byte bytes IH]; intros m start b Hall Hb;
    cbn [storeBytes]; [reflexivity|].
  inversion Hall; subst.
  rewrite IH by (assumption || lia).
  apply byteAt_storeByte_other; [assumption|lia].
Qed.

(** The loader and the fetch agree: byte [i] of the file is the byte that
    [run] extracts at byte address [start + i]. *)
Lemma byteAt_storeBytes (bytes : list Z) :
  forall m start (i : nat) byte,
    Forall (fun byte => 0 <= byte < 256) bytes ->
    bytes !! i = Some byte ->
    byteAt (storeBytes m start bytes) (start + Z.of_nat i) = byte.
Proof.
  induction bytes as [|byte0 bytes IH]; intros m start i byte Hall Hi;
    [discriminate|].
  inversion Hall; subst. cbn [storeBytes].
  destruct i as [|i].
  - cbn in Hi. inversion Hi; subst.
    rewrite Z.add_0_r.
    rewrite byteAt_storeBytes_before by (assumption || lia).
    apply byteAt_storeByte_same. assumption.
  - cbn in Hi.
    replace (start + Z.of_nat (S i)) with (start + 1 + Z.of_nat i) by lia.
    apply IH; assumption.
Qed.

(** ** Instruction bytes *)

Lemma nibble_cases (x : Z) :
  0 <= x < 16 ->
  x = 0 \/ x = 1 \/ x = 2 \/ x = 3 \/ x = 4 \/ x = 5 \/ x = 6 \/ x = 7 \/
  x = 8 \/ x = 9 \/ x = 10 \/ x = 11 \/ x = 12 \/ x = 13 \/ x = 14 \/ x = 15.
Proof. lia. Qed.

Lemma nibble_byte (opc n : Z) :
  0 <= opc < 16 -> 0 <= n < 16 ->
  let byte := Z.lor (Z.shiftl opc 4) n in
  0 <= byte < 256 /\ Z.land byte 15 = n /\
  Z.land (Z.shiftr byte 4) 15 = opc /\
  toByte byte = byte /\ Z.land opc 15 = opc.
Proof.
  intros Ho Hn.
  apply nibble_cases in Ho. apply nibble_cases in Hn.
  repeat (destruct Ho as [Ho|Ho]; [subst opc|]); try subst opc;
    repeat (destruct Hn as [Hn|Hn]; [subst n|]); try subst n;
    cbv; repeat split; discriminate || reflexivity.
Qed.

Section InstructionBytes.
Context {E : Encoding} (ok : EncodingOk E).

Lemma toInstr_instrOpc (i : Instr) : toInstr (instrOpc i) = Some i.
Proof.
  unfold toInstr, allInstr.
  destruct i; cbn [List.find];
    repeat match goal with
      | |- context [instrOpc ?a =? instrOpc ?b] =>
          let H := fresh in
          destruct (Z.eqb_spec (instrOpc a) (instrOpc b)) as [H|H];
          [ apply (instrOpc_inj E ok) in H; first [discriminate H | reflexivity]
          | try (exfalso; apply H; reflexivity); clear H ]
      end.
Qed.

Lemma toOprInstr_oprInstrOpc (o : OprInstr) :
  toOprInstr (oprInstrOpc o) = Some o.
Proof.
  unfold toOprInstr, allOprInstr.
  destruct o; cbn [List.find];
    repeat match goal with
      | |- context [oprInstrOpc ?a =? oprInstrOpc ?b] =>
          let H := fresh in
          destruct (Z.eqb_spec (oprInstrOpc a) (oprInstrOpc b)) as [H|H];
          [ apply (oprInstrOpc_inj E ok) in H; first [discriminate H | reflexivity]
          | try (exfalso; apply H; reflexivity); clear H ]
      end.
Qed.

Lemma toSyscall_syscallOpc (s : Syscall) :
  toSyscall (syscallOpc s) = Some s.
Proof.
  unfold toSyscall, allSyscall.
  destruct s; cbn [List.find];
    repeat match goal with
      | |- context [syscallOpc ?a =? syscallOpc ?b] =>
          let H := fresh in
          destruct (Z.eqb_spec (syscallOpc a) (syscallOpc b)) as [H|H];
          [ apply (syscallOpc_inj E ok) in H; first [discriminate H | reflexivity]
          | try (exfalso; apply H; reflexivity); clear H ]
      end.
Qed.

Lemma opByte_parts (i : Instr) (n : Z) :
  0 <= n < 16 ->
  0 <= opByte i n < 256 /\ Z.land (opByte i n) 15 = n /\
  Z.land (Z.shiftr (opByte i n) 4) 15 = instrOpc i /\
  toByte (opByte i n) = opByte i n.
Proof.
  intros Hn. unfold opByte.
  destruct (nibble_byte (instrOpc i) n (instrOpc_range E ok i) Hn)
    as (H1 & H2 & H3 & H4 & _).
  repeat split; assumption || lia.
Qed.

Lemma nibble_opc (i : Instr) : Z.land (instrOpc i) 15 = instrOpc i.
Proof.
  destruct (nibble_byte (instrOpc i) 0 (instrOpc_range E ok i) ltac:(lia))
    as (_ & _ & _ & _ & H). exact H.
Qed.

Lemma toByte_opByte (i : Instr) (n : Z) :
  0 <= n < 16 -> toByte (Z.lor (Z.shiftl (instrOpc i) 4) n) = opByte i n.
Proof. intros Hn. apply (opByte_parts i n Hn). Qed.

Context {H : HostIO}.

(** The first four statements of the loop body of [run], in terms of the
    byte at [pc]. *)
Lemma fetch_byteAt (p : Processor) :
  Z.shiftr (pc p) 2 < MEMORY_SIZE_WORDS ->
  let byte := byteAt (memory p) (pc p) in
  fetch p
  = Returns (mkProcessor (u32 (pc p + 1)) (areg p) (breg p)
               (Z.lor (oreg p) (Z.land byte 15)) byte (memory p)
               (fileIO p) (running p) (tracing p) (cycles p)
               (Z.land (Z.shiftr byte 4) 15)).
Proof.
  intros Hpc. unfold fetch, readMemory.
  destruct (Z.ltb_spec (Z.shiftr (pc p) 2) MEMORY_SIZE_WORDS); [|lia].
  reflexivity.
Qed.
End InstructionBytes.

(** C4.  With any numbering of the opcodes that fits a nibble, the emitter
    writes one byte [LDAC|0] for [LDAC 0], the two bytes [PFIX|1], [LDAC|0]
    for [LDAC 16] and the two bytes [NFIX|F], [LDAC|F] for [LDAC -1]; and a
    processor that starts at address 0 with an empty operand register on
    the last two bytes executes NFIX and then dispatches LDAC with [oreg]
    equal to [0xFFFFFFFF], which LDAC copies to [areg]. *)
Theorem C4_LDAC_encodings (E : Encoding) (H : HostIO) :
  EncodingOk E ->
  emitProgramBin [InstrImm Asm.LDAC 0] = Returns ([opByte Hex.LDAC 0], 1) /\
  emitProgramBin [InstrImm Asm.LDAC 16]
  = Returns ([opByte Hex.PFIX 1; opByte Hex.LDAC 0], 2) /\
  emitProgramBin [InstrImm Asm.LDAC (-1)]
  = Returns ([opByte Hex.NFIX 15; opByte Hex.LDAC 15], 2) /\
  forall storage : Processor,
    pc storage = 0 -> oreg storage = 0 ->
    exists p0 p1 p2 p3,
      load [opByte Hex.NFIX 15; opByte Hex.LDAC 15] (newProcessor storage)
      = Returns p0 /\
      step p0 = Returns p1 /\
      fetch p1 = Returns p2 /\
      toInstr (instrEnum p2) = Some Hex.LDAC /\
      oreg p2 = 4294967295 /\
      execute p2 = Returns p3 /\
      areg p3 = 4294967295.
Proof.
  intros ok.
  split; [|split; [|split]].
  - emit_imm 1. change (1 <? 1) with false. cbv iota.
    cbn [obind app List.length fst snd].
    change (Z.land 0 15) with 0.
    rewrite (nibble_opc ok), (toByte_opByte ok) by lia. reflexivity.
  - emit_imm 2. change (1 <? 2) with true. cbv iota.
    change (16 <? 0) with false. cbv iota.
    change (Z.to_nat (2 - 1)) with 1%nat.
    cbn [emitPrefixes getValue obind app List.length fst snd].
    unfold instrToInstrOpc.
    change (Z.land (Z.shiftr 16 (Z.of_nat 1 * 4)) 15) with 1.
    change (Z.land 16 15) with 0.
    rewrite (nibble_opc ok), !(toByte_opByte ok) by lia. reflexivity.
  - emit_imm 2. change (1 <? 2) with true. cbv iota.
    change (-1 <? 0) with true. cbv iota.
    change (Z.to_nat (2 - 1)) with 1%nat.
    cbn [emitPrefixes getValue obind app List.length fst snd].
    unfold instrToInstrOpc.
    change (Z.land (Z.shiftr (-1) (Z.of_nat 1 * 4)) 15) with 15.
    change (Z.land (-1) 15) with 15.
    rewrite (nibble_opc ok), !(toByte_opByte ok) by lia. reflexivity.
  - intros [pc0 a b o i m io r t c ie] Hpc Ho. cbn in Hpc, Ho. subst pc0 o.
    set (bytes := [opByte Hex.NFIX 15; opByte Hex.LDAC 15]).
    destruct (opByte_parts ok Hex.NFIX 15 ltac:(lia)) as (Hn1 & Hn2 & Hn3 & _).
    destruct (opByte_parts ok Hex.LDAC 15 ltac:(lia)) as (Hl1 & Hl2 & Hl3 & _).
    assert (Hall : Forall (fun byte => 0 <= byte < 256) bytes).
    { repeat constructor; lia. }
    pose proof (byteAt_storeBytes bytes m 0 0%nat _ Hall eq_refl) as Hb0.
    pose proof (byteAt_storeBytes bytes m 0 1%nat _ Hall eq_refl) as Hb1.
    change (0 + Z.of_nat 0) with 0 in Hb0.
    change (0 + Z.of_nat 1) with 1 in Hb1.
    set (m' := storeBytes m 0 bytes) in *.
    exists (mkProcessor 0 a b 0 i m' noFiles true false 0 ie).
    eexists _, _, _.
    split; [reflexivity|].
    split.
    { unfold step. rewrite fetch_byteAt by (vm_compute; reflexivity).
      cbn [pc areg breg oreg memory fileIO running tracing cycles obind].
      rewrite Hb0, Hn2, Hn3.
      unfold execute. cbn [instrEnum]. rewrite (toInstr_instrOpc ok).
      cbn [obind oreg set_oreg pc areg breg instr memory fileIO running
           tracing cycles instrEnum set_cycles].
      reflexivity. }
    split.
    { rewrite fetch_byteAt by (vm_compute; reflexivity).
      cbn [pc areg breg oreg memory fileIO running tracing cycles instrEnum
           instr set_cycles set_oreg].
      change (u32 (0 + 1)) with 1.
      rewrite Hb1, Hl2, Hl3. reflexivity. }
    cbn [instrEnum oreg].
    split; [apply (toInstr_instrOpc ok)|].
    split; [reflexivity|].
    split.
    { unfold execute. cbn [instrEnum]. rewrite (toInstr_instrOpc ok).
      reflexivity. }
    reflexivity.
Qed.

Lemma specEncoding_ok : EncodingOk specEncoding.
Proof.
  constructor.
  - intros []; cbn; lia.
  - intros [] [] Heq; try reflexivity; discriminate Heq.
  - intros []; cbn; lia.
  - intros [] [] Heq; try reflexivity; discriminate Heq.
  - intros []; cbn; lia.
  - intros [] [] Heq; try reflexivity; discriminate Heq.
Qed.

Lemma C4_LDAC_encodings_witness :
  EncodingOk specEncoding /\
  @emitProgramBin specEncoding [InstrImm Asm.LDAC 0] = Returns ([32], 1) /\
  @emitProgramBin specEncoding [InstrImm Asm.LDAC 16]
  = Returns ([209; 32], 2) /\
  @emitProgramBin specEncoding [InstrImm Asm.LDAC (-1)]
  = Returns ([207; 47], 2).
Proof.
  split; [exact specEncoding_ok|].
  pose proof (C4_LDAC_encodings specEncoding logHost specEncoding_ok)
    as (H0 & H16 & Hm1 & _).
  split; [exact H0|]. split; [exact H16|exact Hm1].
Defined.

(** ** The operand register after a step *)

Section OperandRegister.
Context {E : Encoding} {H : HostIO}.

Lemma writeMemory_oreg (p p' : Processor) index v :
  writeMemory p index v = Returns p' -> oreg p' = oreg p.
Proof.
  unfold writeMemory. destruct (index <? MEMORY_SIZE_WORDS);
    intros Hw; inversion Hw; reflexivity.
Qed.

Lemma execute_oreg (p1 p2 : Processor) :
  execute p1 = Returns p2 -> oregAfterDispatch p1 p2.
Proof.
  unfold execute, oregAfterDispatch.
  destruct (toInstr (instrEnum p1)) as [[]|]; intros Hx;
    try discriminate Hx;
    repeat match type of Hx with
      | context [readMemory ?p ?i] =>
          destruct (readMemory p i); cbn [obind] in Hx; try discriminate Hx
      | context [writeMemory ?p ?i ?v] =>
          destruct (writeMemory p i v); cbn [obind] in Hx;
          try discriminate Hx
      | context [executeOpr ?p] =>
          destruct (executeOpr p); cbn [obind] in Hx; try discriminate Hx
      | context [if ?c then _ else _] => destruct c
      end;
    inversion Hx; reflexivity.
Qed.
End OperandRegister.

(** C5, as amended.  In every step that completes, the operand register is
    0 afterwards unless the opcode dispatched is PFIX or NFIX; PFIX leaves
    the register as it was at dispatch shifted left by 4, NFIX leaves
    [0xFFFFFF00] or-ed with that shift.  OPR with sub-opcode SVC clears the
    register like every other opcode. *)
Theorem C5_oreg_after_step (E : Encoding) (H : HostIO) (p p3 : Processor) :
  step p = Returns p3 ->
  exists p1, fetch p = Returns p1 /\ oregAfterDispatch p1 p3.
Proof.
  unfold step. intros Hs.
  destruct (fetch p) as [p1|w|u]; cbn [obind] in Hs; try discriminate Hs.
  destruct (execute p1) as [p2|w|u] eqn:Hx; cbn [obind] in Hs;
    try discriminate Hs.
  inversion Hs; subst p3. exists p1. split; [reflexivity|].
  apply execute_oreg in Hx. unfold oregAfterDispatch in *.
  cbn [set_cycles oreg]. exact Hx.
Qed.

Lemma C5_oreg_after_step_witness :
  exists p3 : @Processor logHost,
    @step specEncoding logHost atExitCall = Returns p3 /\
    exists p1, @fetch logHost atExitCall = Returns p1 /\
               @oregAfterDispatch specEncoding logHost p1 p3.
Proof.
  eexists. split; [reflexivity|].
  exact (C5_oreg_after_step specEncoding logHost atExitCall _ eq_refl).
Defined.

(** C5, as stated, fails: the step that executes [OPR SVC] (here with the
    EXIT syscall) dispatches with [oreg] equal to the sub-opcode, which is
    not 0 in the numbering used, and ends with [oreg] equal to 0. *)
Lemma C5_OPR_SVC_clears_oreg :
  ~ (forall (E : Encoding) (H : HostIO) (p p1 p2 : Processor),
        EncodingOk E ->
        fetch p = Returns p1 -> execute p1 = Returns p2 ->
        oregAsSpecified p1 p2).
Proof.
  intros Hc.
  specialize (Hc specEncoding logHost atExitCall _ _ specEncoding_ok
                 eq_refl eq_refl).
  vm_compute in Hc. discriminate Hc.
Qed.

(** ** Memory accesses *)

Section MemoryAccesses.
Context {E : Encoding} {H : HostIO}.

Lemma readMemory_outside (p : Processor) (index : Z) :
  MEMORY_SIZE_WORDS <= index ->
  readMemory p index = Undefined (OutOfBounds index).
Proof.
  intros Hi. unfold readMemory.
  destruct (Z.ltb_spec index MEMORY_SIZE_WORDS); [lia|reflexivity].
Qed.

Lemma writeMemory_outside (p : Processor) (index v : Z) :
  MEMORY_SIZE_WORDS <= index ->
  writeMemory p index v = Undefined (OutOfBounds index).
Proof.
  intros Hi. unfold writeMemory.
  destruct (Z.ltb_spec index MEMORY_SIZE_WORDS); [lia|reflexivity].
Qed.

Lemma readMemory_inside (p : Processor) (index : Z) :
  index < MEMORY_SIZE_WORDS -> readMemory p index = Returns (memory p index).
Proof.
  intros Hi. unfold readMemory.
  destruct (Z.ltb_spec index MEMORY_SIZE_WORDS); [reflexivity|lia].
Qed.
End MemoryAccesses.

(** C9.  None of the memory accesses of the interpreter and of the syscall
    layer compares its index with [MEMORY_SIZE_WORDS]: the fetch indexes by
    [pc >> 2], LDAM, LDBM and STAM by [oreg], LDAI by [(areg >> 2) + oreg],
    LDBI and STAI by [(breg >> 2) + oreg], WRITE and READ by
    [(mem[1] >> 2) + 2], WRITE then also by [(mem[1] >> 2) + 3], and each
    of them goes outside the array when that index is [MEMORY_SIZE_WORDS]
    or more.  (The word that READ writes, at [(mem[1] >> 2) + 1], lies
    below the one it has read before.)  Such an execution exists: the two
    bytes [NFIX|F], [LDAM|F], loaded and run from address 0, read
    [memory[0xFFFFFFFF]]. *)
Theorem C9_unchecked_memory_accesses (E : Encoding) (H : HostIO) :
  EncodingOk E ->
  (forall p : Processor,
      MEMORY_SIZE_WORDS <= Z.shiftr (pc p) 2 ->
      fetch p = Undefined (OutOfBounds (Z.shiftr (pc p) 2))) /\
  (forall (p : Processor) i,
      toInstr (instrEnum p) = Some i ->
      i = Hex.LDAM \/ i = Hex.LDBM \/ i = Hex.STAM ->
      MEMORY_SIZE_WORDS <= oreg p ->
      execute p = Undefined (OutOfBounds (oreg p))) /\
  (forall p : Processor,
      toInstr (instrEnum p) = Some Hex.LDAI ->
      let index := u32 (Z.shiftr (areg p) 2 + oreg p) in
      MEMORY_SIZE_WORDS <= index ->
      execute p = Undefined (OutOfBounds index)) /\
  (forall (p : Processor) i,
      toInstr (instrEnum p) = Some i ->
      i = Hex.LDBI \/ i = Hex.STAI ->
      let index := u32 (Z.shiftr (breg p) 2 + oreg p) in
      MEMORY_SIZE_WORDS <= index ->
      execute p = Undefined (OutOfBounds index)) /\
  (forall (p : Processor) s,
      toSyscall (areg p) = Some s ->
      s = Hex.WRITE \/ s = Hex.READ ->
      let index := u32 (Z.shiftr (memory p 1) 2 + 2) in
      MEMORY_SIZE_WORDS <= index ->
      syscall p = Undefined (OutOfBounds index)) /\
  (forall p : Processor,
      toSyscall (areg p) = Some Hex.WRITE ->
      let index := u32 (Z.shiftr (memory p 1) 2 + 3) in
      u32 (Z.shiftr (memory p 1) 2 + 2) < MEMORY_SIZE_WORDS ->
      MEMORY_SIZE_WORDS <= index ->
      syscall p = Undefined (OutOfBounds index)) /\
  (forall storage : Processor,
      pc storage = 0 -> oreg storage = 0 ->
      simulate 2 storage [opByte Hex.NFIX 15; opByte Hex.LDAM 15]
      = Some (Undefined (OutOfBounds 4294967295))).
Proof.
  intros ok.
  split; [|split; [|split; [|split; [|split; [|split]]]]].
  - intros p Hp. unfold fetch. rewrite readMemory_outside by exact Hp.
    reflexivity.
  - intros p i Hi [->|[->| ->]] Ho; unfold execute; rewrite Hi.
    + rewrite readMemory_outside by exact Ho. reflexivity.
    + rewrite readMemory_outside by exact Ho. reflexivity.
    + rewrite writeMemory_outside by exact Ho. reflexivity.
  - intros p Hi index Ho. unfold execute. rewrite Hi.
    fold index. rewrite readMemory_outside by exact Ho. reflexivity.
  - intros p i Hi [->| ->] index Ho; unfold execute; rewrite Hi; fold index.
    + rewrite readMemory_outside by exact Ho. reflexivity.
    + rewrite writeMemory_outside by exact Ho. reflexivity.
  - intros p s Hs [->| ->] index Ho; unfold syscall;
      rewrite (readMemory_inside p 1) by (unfold MEMORY_SIZE_WORDS; lia);
      cbn [obind]; rewrite Hs; fold index;
      rewrite readMemory_outside by exact Ho; reflexivity.
  - intros p Hs index Hin Ho. unfold syscall.
    rewrite (readMemory_inside p 1) by (unfold MEMORY_SIZE_WORDS; lia).
    cbn [obind]. rewrite Hs.
    rewrite readMemory_inside by exact Hin. cbn [obind]. fold index.
    rewrite readMemory_outside by exact Ho. reflexivity.
  - intros [pc0 a b o i m io r t c ie] Hpc Ho. cbn in Hpc, Ho. subst pc0 o.
    set (bytes := [opByte Hex.NFIX 15; opByte Hex.LDAM 15]).
    destruct (opByte_parts ok Hex.NFIX 15 ltac:(lia)) as (Hn1 & Hn2 & Hn3 & _).
    destruct (opByte_parts ok Hex.LDAM 15 ltac:(lia)) as (Hl1 & Hl2 & Hl3 & _).
    assert (Hall : Forall (fun byte => 0 <= byte < 256) bytes).
    { repeat constructor; lia. }
    pose proof (byteAt_storeBytes bytes m 0 0%nat _ Hall eq_refl) as Hb0.
    pose proof (byteAt_storeBytes bytes m 0 1%nat _ Hall eq_refl) as Hb1.
    change (0 + Z.of_nat 0) with 0 in Hb0.
    change (0 + Z.of_nat 1) with 1 in Hb1.
    set (m' := storeBytes m 0 bytes) in *.
    unfold simulate.
    change (load bytes (newProcessor (mkProcessor 0 a b 0 i m io r t c ie)))
      with (Returns (mkProcessor 0 a b 0 i m' noFiles true false 0 ie)).
    cbn [run running].
    unfold step at 1. rewrite fetch_byteAt by (vm_compute; reflexivity).
    cbn [pc areg breg oreg memory fileIO running tracing cycles obind].
    rewrite Hb0, Hn2, Hn3.
    unfold execute at 1. cbn [instrEnum]. rewrite (toInstr_instrOpc ok).
    cbn [obind oreg set_oreg pc areg breg instr memory fileIO running
         tracing cycles instrEnum set_cycles].
    unfold step. rewrite fetch_byteAt by (vm_compute; reflexivity).
    cbn [pc areg breg oreg memory fileIO running tracing cycles instrEnum
         instr obind set_cycles set_oreg].
    change (u32 (0 + 1)) with 1.
    rewrite Hb1, Hl2, Hl3.
    unfold execute. cbn [instrEnum]. rewrite (toInstr_instrOpc ok).
    rewrite readMemory_outside by (vm_compute; discriminate).
    reflexivity.
Qed.

Lemma C9_unchecked_memory_accesses_witness :
  EncodingOk specEncoding /\
  @simulate specEncoding logHost 2 zeroedStorage [207; 15]
  = Some (Undefined (OutOfBounds 4294967295)) /\
  @syscall specEncoding logHost
    (@mkProcessor logHost 0 1 0 0 0 (fun _ => 799988) [] true false 0 0)
  = Undefined (OutOfBounds 200000).
Proof.
  split; [exact specEncoding_ok|].
  pose proof (C9_unchecked_memory_accesses specEncoding logHost specEncoding_ok)
    as (_ & _ & _ & _ & _ & Hwrite & Hrun).
  split; [exact (Hrun zeroedStorage eq_refl eq_refl)|].
  apply (Hwrite (@mkProcessor logHost 0 1 0 0 0 (fun _ => 799988) [] true
                   false 0 0)).
  - reflexivity.
  - vm_compute. reflexivity.
  - vm_compute. discriminate.
Defined.

(** ** The start state *)

Lemma storeBytes_beyond (bytes : list Z) :
  forall (m : Z -> Z) start i,
    0 <= start -> start + Z.of_nat (List.length bytes) <= 4 * i ->
    storeBytes m start bytes i = m i.
Proof.
  induction bytes as [|byte bytes IH]; intros m start i Hs Hi;
    cbn [storeBytes]; [reflexivity|].
  cbn [List.length] in Hi. rewrite IH by lia.
  unfold storeByte.
  destruct (Z.eqb_spec i (Z.shiftr start 2)) as [Heq|]; [|reflexivity].
  exfalso. rewrite Z.shiftr_div_pow2 in Heq by lia. change (2 ^ 2) with 4 in Heq.
  pose proof (Z.div_mod start 4 ltac:(lia)).
  pose proof (Z.mod_pos_bound start 4 ltac:(lia)). lia.
Qed.

(** C10.  The constructor sets [running], [tracing] and [cycles] and
    nothing else, and [load] writes only the memory words the file covers:
    when [run] begins, [pc], [areg], [breg] and [oreg] and the memory words
    beyond the file hold what the storage of the object held before, and
    the first instruction is fetched from the byte address found in the
    storage of [pc], which is 0 only if that storage was zero. *)
Theorem C10_start_state_from_storage (E : Encoding) (H : HostIO)
        (storage : Processor) (file : list Z) (p0 : Processor) :
  load file (newProcessor storage) = Returns p0 ->
  (running p0 = true /\ tracing p0 = false /\ cycles p0 = 0) /\
  (pc p0 = pc storage /\ areg p0 = areg storage /\
   breg p0 = breg storage /\ oreg p0 = oreg storage) /\
  (forall i, Z.of_nat (List.length file) <= 4 * i ->
             memory p0 i = memory storage i) /\
  (Z.shiftr (pc storage) 2 < MEMORY_SIZE_WORDS ->
   exists p1,
     fetch p0 = Returns p1 /\
     instr p1 = byteAt (memory p0) (pc storage) /\
     pc p1 = u32 (pc storage + 1) /\
     oreg p1 = Z.lor (oreg storage) (Z.land (instr p1) 15)).
Proof.
  unfold load. intros Hl.
  destruct (Z.of_nat (List.length file) <=? 4 * MEMORY_SIZE_WORDS);
    [|discriminate Hl].
  inversion Hl; subst p0; clear Hl.
  cbn [newProcessor set_memory running tracing cycles pc areg breg oreg memory].
  split; [repeat split|]. split; [repeat split|].
  split.
  - intros i Hi. apply storeBytes_beyond; lia.
  - intros Hpc. eexists. split.
    + apply fetch_byteAt. exact Hpc.
    + cbn [instr pc oreg memory]. repeat split.
Qed.

Lemma C10_start_state_from_storage_witness :
  exists p0 : @Processor logHost,
    load [207; 47] (newProcessor (filledStorage 7)) = Returns p0 /\
    pc p0 = 7 /\ areg p0 = 7 /\ breg p0 = 7 /\ oreg p0 = 7 /\
    memory p0 1 = 7.
Proof.
  eexists. split; [reflexivity|].
  destruct (C10_start_state_from_storage specEncoding logHost
              (filledStorage 7) [207; 47] _ eq_refl)
    as (_ & (Hpc & Ha & Hb & Ho) & Hm & _).
  split; [exact Hpc|]. split; [exact Ha|]. split; [exact Hb|].
  split; [exact Ho|]. apply Hm. cbn. lia.
Defined.

(** ** Parse errors *)

Lemma Token_eqb_eq (a b : Token) : Token_eqb a b = true <-> a = b.
Proof. split; [destruct a, b; (reflexivity || discriminate)|intros ->; destruct b; reflexivity]. Qed.

Lemma Token_eqb_sym (a b : Token) : Token_eqb a b = Token_eqb b a.
Proof. destruct a, b; reflexivity. Qed.

Lemma getNextToken_last (lexer : Lexer) :
  getLastToken (snd (getNextToken lexer)) = fst (getNextToken lexer).
Proof.
  unfold getNextToken. destruct (tokens lexer) as [|[id|v| |] rest]; reflexivity.
Qed.

Lemma getNextToken_consumes (lexer : Lexer) :
  fst (getNextToken lexer) <> END_OF_FILE ->
  S (List.length (tokens (snd (getNextToken lexer))))
  = List.length (tokens lexer).
Proof.
  unfold getNextToken.
  destruct (tokens lexer) as [|[id|v| |] rest]; cbn [fst snd tokens List.length];
    congruence.
Qed.

Lemma getNextToken_tokens (lexer : Lexer) :
  (List.length (tokens (snd (getNextToken lexer)))
   <= List.length (tokens lexer))%nat.
Proof.
  unfold getNextToken.
  destruct (tokens lexer) as [|[id|v| |] rest]; cbn [snd tokens List.length]; lia.
Qed.

Lemma parseInteger_thrown (lexer : Lexer) :
  thrown (parseInteger lexer) = notSignedInteger lexer /\
  (forall u, parseInteger lexer <> Undefined u) /\
  (forall r, parseInteger lexer = Returns r ->
             (List.length (tokens (snd r)) <= List.length (tokens lexer))%nat).
Proof.
  unfold parseInteger, notSignedInteger, expectNext, expectLast.
  pose proof (getNextToken_tokens lexer) as Hlen.
  destruct (Token_eqb (getLastToken lexer) MINUS).
  - rewrite getNextToken_last, (Token_eqb_sym NUMBER).
    destruct (Token_eqb (fst (getNextToken lexer)) NUMBER); cbn [obind thrown negb];
      repeat split; try discriminate.
    intros r Hr. inversion Hr; subst. exact Hlen.
  - rewrite (Token_eqb_sym NUMBER).
    destruct (Token_eqb (getLastToken lexer) NUMBER); cbn [obind thrown negb];
      repeat split; try discriminate.
    intros r Hr. inversion Hr; subst. cbn [snd]. lia.
Qed.

(** A statement raises an error exactly in the three cases, and never does
    anything undefined; a statement that parses does not give tokens back. *)
Lemma parseDirective_thrown (lexer : Lexer) :
  thrown (parseDirective lexer) = statementError lexer /\
  (forall u, parseDirective lexer <> Undefined u) /\
  (forall r, parseDirective lexer = Returns r ->
             (List.length (tokens (snd r)) <= List.length (tokens lexer))%nat).
Proof.
  unfold parseDirective, statementError, integerExpected, mkInstrOp,
    parseIdentifier.
  pose proof (getNextToken_tokens lexer) as Hlen.
  destruct (parseInteger_thrown (snd (getNextToken lexer)))
    as (Hthrown & Hdef & Hkeep).
  destruct (getLastToken lexer) eqn:Ht;
    cbn [statementToken addressedOpcode Token_eqb negb orb andb thrown];
    try (repeat split; [discriminate|discriminate]);
    try (repeat split; try discriminate;
         intros r Hr; inversion Hr; subst; cbn [snd]; lia).
  (* DATA *)
  1: { rewrite <- Hthrown.
       destruct (parseInteger (snd (getNextToken lexer))) as [r|w|u] eqn:Hp;
         cbn [obind thrown]; repeat split; try discriminate.
       - intros r' Hr. inversion Hr; subst. cbn [snd].
         specialize (Hkeep r eq_refl). lia.
       - exfalso. exact (Hdef u eq_refl). }
  (* OPR *)
  13: { destruct (fst (getNextToken lexer));
          cbn [oprOperand negb obind thrown];
          repeat split; try discriminate;
          intros r Hr; inversion Hr; subst; cbn [snd]; exact Hlen. }
  (* the addressed opcodes *)
  all: destruct (Token_eqb (fst (getNextToken lexer)) IDENTIFIER);
    cbn [negb andb orb thrown];
    [ repeat split; try discriminate;
      intros r Hr; inversion Hr; subst; cbn [snd]; exact Hlen
    | rewrite <- Hthrown;
      destruct (parseInteger (snd (getNextToken lexer))) as [r|w|u] eqn:Hp;
      cbn [obind thrown]; repeat split; try discriminate;
      [ intros r' Hr; inversion Hr; subst; cbn [snd];
        specialize (Hkeep r eq_refl); lia
      | exfalso; exact (Hdef u eq_refl) ] ].
Qed.

Lemma parseProgram_loop_spec (fuel : nat) :
  forall lexer program,
    (List.length (tokens lexer) < fuel)%nat ->
    parseProgram_loop fuel lexer program <> None /\
    (forall u, parseProgram_loop fuel lexer program <> Some (Undefined u)) /\
    ((exists w, parseProgram_loop fuel lexer program = Some (Throws w))
     <-> reachesError lexer).
Proof.
  induction fuel as [|fuel IH]; intros lexer program Hfuel; [lia|].
  cbn [parseProgram_loop].
  destruct (Token_eqb (fst (getNextToken lexer)) END_OF_FILE) eqn:Heof.
  - apply Token_eqb_eq in Heof.
    split; [discriminate|]. split; [discriminate|]. split.
    + intros [w Hw]. discriminate Hw.
    + intros (lexer1 & Hreach & Hne & Herr).
      inversion Hreach; subst; contradiction.
  - assert (Hne : fst (getNextToken lexer) <> END_OF_FILE).
    { intros Heq. apply Token_eqb_eq in Heq. congruence. }
    destruct (parseDirective_thrown (snd (getNextToken lexer)))
      as (Hthrown & Hdef & Hkeep).
    pose proof (getNextToken_consumes lexer Hne) as Hcons.
    destruct (parseDirective (snd (getNextToken lexer)))
      as [[d lexer']|w|u] eqn:Hp.
    + specialize (Hkeep _ eq_refl). cbn [snd] in Hkeep.
      destruct (IH lexer' (program ++ [d]) ltac:(lia)) as (Hsome & Hud & Hiff).
      split; [exact Hsome|]. split; [exact Hud|].
      rewrite Hiff. split.
      * intros (lexer1 & Hreach & Hne1 & Herr).
        exists lexer1. split; [|split; assumption].
        eapply parsed_more; eassumption.
      * intros (lexer1 & Hreach & Hne1 & Herr).
        inversion Hreach; subst.
        -- cbn [thrown] in Hthrown. congruence.
        -- match goal with
           | Hq : parseDirective _ = Returns (_, _) |- _ =>
               rewrite Hp in Hq; inversion Hq; subst
           end.
           exists lexer1. split; [assumption|split; assumption].
    + split; [discriminate|]. split; [discriminate|]. split.
      * intros _. exists lexer. split; [constructor|].
        split; [exact Hne|]. symmetry. exact Hthrown.
      * intros _. exists w. reflexivity.
    + exfalso. exact (Hdef u eq_refl).
Qed.

(** C8, as amended.  A statement raises an error exactly when the token at
    statement position is not DATA, FUNC, PROC, IDENTIFIER, OPR or an
    addressed opcode, or the operand of OPR is not one of BRB, ADD, SUB and
    SVC, or the tokens found where a signed integer is expected are neither
    a NUMBER nor a MINUS followed by a NUMBER.  [parseProgram] always comes
    to an end, and it ends in an error exactly when one of the statements it
    reaches is in error; the assembler then reports the error and exits
    without creating the output file. *)
Theorem C8_parser_errors (lexer : Lexer) :
  thrown (parseDirective lexer) = statementError lexer /\
  (exists result, parseProgram lexer = Some result) /\
  ((exists w, parseProgram lexer = Some (Throws w)) <-> reachesError lexer) /\
  (forall (E : Encoding) (fuel : nat) (source : list Lexeme) (w : string),
      parseProgram (openLexer source) = Some (Throws w) ->
      assemble fuel source = Some (ExitError w, NotCreated)).
Proof.
  destruct (parseProgram_loop_spec (parseProgram_fuel lexer) lexer [])
    as (Hsome & _ & Hiff).
  { unfold parseProgram_fuel. lia. }
  split; [apply parseDirective_thrown|].
  split.
  { unfold parseProgram. destruct (parseProgram_loop _ lexer []) as [r|];
      [exists r; reflexivity|contradiction]. }
  split; [exact Hiff|].
  intros E fuel source w Hw. unfold assemble. rewrite Hw. reflexivity.
Qed.

(** C8, as stated, fails: in the source [DATA foo] the token at statement
    position is DATA, there is no MINUS and no OPR, and the parser raises
    "expected NUMBER". *)
Lemma C8_expected_number_without_minus :
  ~ (forall lexer : Lexer,
        thrown (parseDirective lexer) = statementErrorAsSpecified lexer).
Proof.
  intros Hc. specialize (Hc atDataFoo). vm_compute in Hc. discriminate Hc.
Qed.

Example parse_DATA_foo :
  parseProgram (openLexer [Word "DATA"; Word "foo"])
  = Some (Throws "expected NUMBER").
Proof. reflexivity. Qed.

Example parse_BR_dot :
  parseProgram (openLexer [Word "BR"; Other])
  = Some (Throws "expected NUMBER").
Proof. reflexivity. Qed.

Example parse_OPR_OPR :
  parseProgram (openLexer [Word "OPR"; Word "OPR"])
  = Some (Throws "unexpected operand to OPR OPR").
Proof. reflexivity. Qed.

Example parse_number_first :
  parseProgram (openLexer [Number 123])
  = Some (Throws "unrecognised token NUMBER").
Proof. reflexivity. Qed.

Example parse_BR_minus_foo :
  parseProgram (openLexer [Word "BR"; Minus; Word "foo"])
  = Some (Throws "expected NUMBER").
Proof. reflexivity. Qed.


(* ===================================================================== *)
(** * Further properties *)
(* ===================================================================== *)

(** ** What a layout pass changes *)

Lemma skeleton_idemp (d : Directive) : skeleton (skeleton d) = skeleton d.
Proof. destruct d; reflexivity. Qed.

Lemma getToken_skeleton (d : Directive) : getToken (skeleton d) = getToken d.
Proof. destruct d; reflexivity. Qed.

(** One visit of the layout replaces the directive it visits by a directive
    with the same skeleton, and touches nothing else. *)
Lemma layoutDirective_result labelMap i directive program byteOffset program'
      byteOffset' :
  layoutDirective labelMap i directive program byteOffset
  = Returns (program', byteOffset') ->
  program !! i = Some directive ->
  exists directive',
    program' = <[i := directive']> program /\
    skeleton directive' = skeleton directive /\
    byteOffset' = offsetAfter [directive'] byteOffset /\
    (forall label v, directive = Label label v ->
                     directive' = Label label byteOffset) /\
    (forall token label v, directive = InstrLabel token label v ->
       exists target,
         labelMapValue program labelMap label = Returns target /\
         directive'
         = InstrLabel token label
             (wrap32 (wrap32 (target - placedAt directive byteOffset)
                      - instrLen target (placedAt directive byteOffset)))).
Proof.
  intros Hr Hi.
  assert (Hid : <[i := directive]> program = program)
    by (apply list_insert_id; exact Hi).
  unfold layoutDirective in Hr. unfold placedAt. cbn [offsetAfter].
  destruct directive as [v|s|s|l v|t v|t l v|t]; cbn [getToken] in *.
  - cbn [Token_eqb obind] in Hr. rewrite Hi in Hr. inversion Hr; subst.
    eexists. split; [symmetry; exact Hid|].
    repeat split; try reflexivity; intros; discriminate.
  - cbn [Token_eqb obind] in Hr. rewrite Hi in Hr. inversion Hr; subst.
    eexists. split; [symmetry; exact Hid|].
    repeat split; try reflexivity; intros; discriminate.
  - cbn [Token_eqb obind] in Hr. rewrite Hi in Hr. inversion Hr; subst.
    eexists. split; [symmetry; exact Hid|].
    repeat split; try reflexivity; intros; discriminate.
  - cbn [Token_eqb obind] in Hr.
    rewrite list_lookup_insert_eq in Hr by (eapply lookup_lt_Some; exact Hi).
    inversion Hr; subst.
    eexists. split; [reflexivity|].
    split; [reflexivity|]. split; [reflexivity|]. split.
    + intros label v' Heq. inversion Heq; subst. reflexivity.
    + intros; discriminate.
  - destruct (Token_eqb t IDENTIFIER); cbn [obind] in Hr; [discriminate|].
    rewrite Hi in Hr. inversion Hr; subst.
    eexists. split; [symmetry; exact Hid|].
    repeat split; try reflexivity; intros; discriminate.
  - destruct (Token_eqb t IDENTIFIER); cbn [obind] in Hr; [discriminate|].
    destruct (labelMapValue program labelMap l) as [target|w|u] eqn:Hv;
      cbn [obind] in Hr; try discriminate.
    rewrite list_lookup_insert_eq in Hr by (eapply lookup_lt_Some; exact Hi).
    inversion Hr; subst.
    eexists. split; [reflexivity|].
    split; [reflexivity|]. split; [reflexivity|]. split.
    + intros; discriminate.
    + intros token label v' Heq. inversion Heq; subst.
      exists target. split; [exact Hv|reflexivity].
  - cbn [Token_eqb obind] in Hr. rewrite Hi in Hr. inversion Hr; subst.
    eexists. split; [symmetry; exact Hid|].
    repeat split; try reflexivity; intros; discriminate.
Qed.

Lemma map_skeleton_insert (program : list Directive) i d d' :
  program !! i = Some d -> skeleton d' = skeleton d ->
  map skeleton (<[i := d']> program) = map skeleton program.
Proof.
  intros Hi Hs. rewrite list_fmap_insert. rewrite Hs.
  apply list_insert_id. rewrite list_lookup_fmap, Hi. reflexivity.
Qed.

Lemma layoutPass_from_skeleton labelMap (n : nat) :
  forall i program byteOffset entered program' total entered',
    layoutPass_from n i labelMap program byteOffset entered
    = Returns (program', total, entered') ->
    map skeleton program' = map skeleton program.
Proof.
  induction n as [|n IH];
    intros i program byteOffset entered program' total entered' Hr;
    cbn [layoutPass_from] in Hr.
  - inversion Hr; subst. reflexivity.
  - destruct (program !! i) as [directive|] eqn:Hi.
    2:{ inversion Hr; subst. reflexivity. }
    destruct (layoutDirective labelMap i directive program byteOffset)
      as [[program1 byteOffset1]|w|u] eqn:Hd; cbn [obind fst snd] in Hr;
      try discriminate.
    destruct (layoutDirective_result _ _ _ _ _ _ _ Hd Hi)
      as (d1 & -> & Hs & _).
    rewrite (IH _ _ _ _ _ _ _ Hr).
    eapply map_skeleton_insert; eassumption.
Qed.

Lemma resolveLabels_loop_skeleton labelMap (fuel : nat) :
  forall program lastSize byteOffset program',
    resolveLabels_loop fuel labelMap program lastSize byteOffset
    = Some (Returns program') ->
    map skeleton program' = map skeleton program.
Proof.
  induction fuel as [|fuel IH]; intros program lastSize byteOffset program' Hr;
    cbn [resolveLabels_loop] in Hr; [discriminate|].
  destruct (lastSize =? byteOffset).
  - inversion Hr; subst. reflexivity.
  - destruct (layoutPass labelMap program) as [[[p off] e]|w|u] eqn:Hp;
      try discriminate.
    rewrite (IH _ _ _ _ Hr).
    eapply layoutPass_from_skeleton. exact Hp.
Qed.

(** X1.  Label resolution changes nothing but the contents of the
    [labelValue] members: the vector it returns has the directives of the
    vector it was given, in the same order, with the same tokens,
    identifiers, immediates and data words. *)
Theorem resolveLabels_changes_label_values_only (fuel : nat)
        (program program' : list Directive) (labelMap : gmap string nat) :
  resolveLabels fuel program labelMap = Some (Returns program') ->
  map skeleton program' = map skeleton program /\
  List.length program' = List.length program /\
  (forall i d, program !! i = Some d ->
               match d with
               | Label _ _ | InstrLabel _ _ _ =>
                   exists d', program' !! i = Some d' /\
                              skeleton d' = skeleton d
               | _ => program' !! i = Some d
               end).
Proof.
  intros Hr. apply resolveLabels_loop_skeleton in Hr.
  split; [exact Hr|]. split.
  - rewrite <- (length_map skeleton program'), Hr. apply length_map.
  - intros i d Hi.
    assert (Hs : map skeleton program' !! i = Some (skeleton d)).
    { rewrite Hr, list_lookup_fmap, Hi. reflexivity. }
    rewrite list_lookup_fmap in Hs.
    destruct (program' !! i) as [d'|] eqn:Hi'; [|discriminate].
    cbn in Hs. injection Hs as Hsk.
    destruct d; cbv beta iota;
      try (exists d'; split; [reflexivity|exact Hsk]);
      destruct d'; cbn in Hsk; congruence.
Qed.

Lemma resolveLabels_changes_label_values_only_witness :
  exists program',
    resolveLabels 3 countdownProgram countdownLabels
    = Some (Returns program') /\
    map skeleton program' = map skeleton countdownProgram /\
    List.length program' = List.length countdownProgram /\
    (forall i d, countdownProgram !! i = Some d ->
                 match d with
                 | Label _ _ | InstrLabel _ _ _ =>
                     exists d', program' !! i = Some d' /\
                                skeleton d' = skeleton d
                 | _ => program' !! i = Some d
                 end).
Proof.
  eexists. split; [vm_compute; reflexivity|].
  apply (resolveLabels_changes_label_values_only
           3 countdownProgram _ countdownLabels).
  vm_compute; reflexivity.
Defined.

(** ** Programs with backward references only *)

Lemma skeleton_lookup (P Q : list Directive) (i : nat) (d : Directive) :
  map skeleton P = map skeleton Q -> P !! i = Some d ->
  exists d', Q !! i = Some d' /\ skeleton d' = skeleton d.
Proof.
  intros Hs Hi.
  assert (H : map skeleton Q !! i = Some (skeleton d)).
  { rewrite <- Hs, list_lookup_fmap, Hi. reflexivity. }
  rewrite list_lookup_fmap in H.
  destruct (Q !! i) as [d'|]; [|discriminate].
  cbn in H. injection H as H. exists d'. split; [reflexivity|exact H].
Qed.

Lemma skeleton_length (P Q : list Directive) :
  map skeleton P = map skeleton Q -> List.length P = List.length Q.
Proof.
  intros Hs. rewrite <- (length_map skeleton P), Hs. apply length_map.
Qed.

Lemma backRefs_skeleton labelMap (P Q : list Directive) :
  map skeleton P = map skeleton Q -> backRefs labelMap P -> backRefs labelMap Q.
Proof.
  intros Hs Hb k token label v Hk.
  destruct (skeleton_lookup Q P k _ (eq_sym Hs) Hk) as (d & Hd & Hsk).
  destruct d; cbn in Hsk; try discriminate.
  injection Hsk as -> ->. eapply Hb. exact Hd.
Qed.

Lemma backwardOnly_backRefs labelMap (P : list Directive) :
  backwardOnly labelMap P = true -> backRefs labelMap P.
Proof.
  unfold backwardOnly. intros Hb k token label v Hk.
  rewrite forallb_forall in Hb.
  assert (Hin : In (refersBack labelMap P k (InstrLabel token label v))
                   (imap (refersBack labelMap P) P)).
  { apply list_elem_of_In. apply list_elem_of_lookup. exists k.
    rewrite list_lookup_imap, Hk. reflexivity. }
  apply Hb in Hin. cbn [refersBack] in Hin.
  destruct (labelMap !! label) as [j|]; [|discriminate].
  rename Hin into Hlt.
  exists j. split; [reflexivity|]. apply Nat.ltb_lt. exact Hlt.
Qed.

Lemma agreeBelow_insert (i : nat) (P Q : list Directive) (d dP dQ : Directive) :
  agreeBelow i P Q -> P !! i = Some dP -> Q !! i = Some dQ ->
  skeleton d = skeleton dP ->
  agreeBelow (S i) (<[i := d]> P) (<[i := d]> Q).
Proof.
  intros [Hs Hlow] HP HQ Hd.
  assert (HsQ : skeleton dQ = skeleton dP).
  { destruct (skeleton_lookup P Q i dP Hs HP) as (d' & Hd' & Hsk).
    congruence. }
  split.
  - rewrite (map_skeleton_insert P i dP d HP Hd).
    rewrite (map_skeleton_insert Q i dQ d HQ); [exact Hs|congruence].
  - intros j Hj. destruct (Nat.eq_dec j i) as [->|Hne].
    + rewrite !list_lookup_insert_eq; [reflexivity| |];
        eapply lookup_lt_Some; eassumption.
    + rewrite !list_lookup_insert_ne by congruence. apply Hlow. lia.
Qed.

Lemma labelMapValue_agree labelMap (i : nat) (P Q : list Directive) label j :
  agreeBelow i P Q -> labelMap !! label = Some j -> (j < i)%nat ->
  labelMapValue P labelMap label = labelMapValue Q labelMap label.
Proof.
  intros [_ Hlow] Hj Hlt. unfold labelMapValue. rewrite Hj, (Hlow j Hlt).
  reflexivity.
Qed.

(** The visit of index [i] in two vectors that agree below [i] ends the
    same way, and leaves vectors that agree up to [i]. *)
Lemma layoutDirective_agree labelMap (i : nat) (P Q : list Directive)
      (dP dQ : Directive) (byteOffset : Z) :
  agreeBelow i P Q -> backRefs labelMap P ->
  P !! i = Some dP -> Q !! i = Some dQ ->
  match layoutDirective labelMap i dP P byteOffset,
        layoutDirective labelMap i dQ Q byteOffset with
  | Returns (P1, o1), Returns (Q1, o2) => o1 = o2 /\ agreeBelow (S i) P1 Q1
  | Throws w1, Throws w2 => w1 = w2
  | Undefined u1, Undefined u2 => u1 = u2
  | _, _ => False
  end.
Proof.
  intros Hag Hback HP HQ.
  destruct (skeleton_lookup P Q i dP (proj1 Hag) HP) as (d' & Hd' & Hsk).
  rewrite HQ in Hd'. injection Hd' as <-.
  assert (Hsame : agreeBelow (S i) P Q -> agreeBelow (S i) P Q) by auto.
  assert (HidP : <[i := dP]> P = P) by (apply list_insert_id; exact HP).
  assert (HidQ : <[i := dQ]> Q = Q) by (apply list_insert_id; exact HQ).
  assert (HltP : (i < List.length P)%nat) by (eapply lookup_lt_Some; exact HP).
  assert (HltQ : (i < List.length Q)%nat) by (eapply lookup_lt_Some; exact HQ).
  unfold layoutDirective.
  destruct dP as [v|s|s|l v|t v|t l v|t];
    destruct dQ as [v'|s'|s'|l' v'|t' v'|t' l' v'|t'];
    cbn in Hsk; try discriminate Hsk;
    cbn [getToken Token_eqb obind].
  - injection Hsk as ->. rewrite HP, HQ. split; [reflexivity|].
    rewrite <- HidP, <- HidQ.
    eapply agreeBelow_insert; try eassumption; reflexivity.
  - injection Hsk as ->. rewrite HP, HQ. split; [reflexivity|].
    rewrite <- HidP, <- HidQ.
    eapply agreeBelow_insert; try eassumption; reflexivity.
  - injection Hsk as ->. rewrite HP, HQ. split; [reflexivity|].
    rewrite <- HidP, <- HidQ.
    eapply agreeBelow_insert; try eassumption; reflexivity.
  - injection Hsk as ->.
    rewrite !list_lookup_insert_eq by assumption.
    split; [reflexivity|].
    eapply agreeBelow_insert; try eassumption; reflexivity.
  - injection Hsk as -> ->.
    destruct (Token_eqb t IDENTIFIER); cbn [obind]; [reflexivity|].
    rewrite HP, HQ. split; [reflexivity|].
    rewrite <- HidP, <- HidQ.
    eapply agreeBelow_insert; try eassumption; reflexivity.
  - injection Hsk as -> ->.
    destruct (Token_eqb t IDENTIFIER); cbn [obind]; [reflexivity|].
    destruct (Hback i t l v HP) as (j & Hj & Hlt).
    rewrite <- (labelMapValue_agree labelMap i P Q l j Hag Hj Hlt).
    destruct (labelMapValue P labelMap l) as [target|w|u]; cbn [obind];
      try reflexivity.
    rewrite !list_lookup_insert_eq by assumption.
    split; [reflexivity|].
    eapply agreeBelow_insert; try eassumption; reflexivity.
  - injection Hsk as ->. rewrite HP, HQ. split; [reflexivity|].
    rewrite <- HidP, <- HidQ.
    eapply agreeBelow_insert; try eassumption; reflexivity.
Qed.

Lemma layoutPass_from_agree labelMap (n : nat) :
  forall i P Q byteOffset entered,
    agreeBelow i P Q -> backRefs labelMap P ->
    layoutPass_from n i labelMap P byteOffset entered
    = layoutPass_from n i labelMap Q byteOffset entered \/
    exists P' Q' total entered',
      layoutPass_from n i labelMap P byteOffset entered
      = Returns (P', total, entered') /\
      layoutPass_from n i labelMap Q byteOffset entered
      = Returns (Q', total, entered') /\
      agreeBelow (i + n) P' Q'.
Proof.
  induction n as [|n IH]; intros i P Q byteOffset entered Hag Hback;
    cbn [layoutPass_from].
  - right. exists P, Q, byteOffset, entered.
    rewrite Nat.add_0_r. repeat split; try reflexivity; apply Hag.
  - destruct (P !! i) as [dP|] eqn:HP.
    + destruct (skeleton_lookup P Q i dP (proj1 Hag) HP) as (dQ & HQ & _).
      rewrite HQ.
      pose proof (layoutDirective_agree labelMap i P Q dP dQ byteOffset
                    Hag Hback HP HQ) as Hstep.
      destruct (layoutDirective labelMap i dP P byteOffset)
        as [[P1 o1]|w1|u1] eqn:HdP;
        destruct (layoutDirective labelMap i dQ Q byteOffset)
        as [[Q1 o2]|w2|u2]; try contradiction; cbn [obind fst snd].
      * destruct Hstep as [<- Hag1].
        assert (Hback1 : backRefs labelMap P1).
        { destruct (layoutDirective_result _ _ _ _ _ _ _ HdP HP)
            as (d1 & -> & Hs1 & _).
          eapply backRefs_skeleton; [|exact Hback].
          symmetry. eapply map_skeleton_insert; eassumption. }
        destruct (IH (S i) P1 Q1 o1 (entered ++ [byteOffset]) Hag1 Hback1)
          as [Heq|(P' & Q' & total & entered' & H1 & H2 & Hag')].
        -- left. exact Heq.
        -- right. exists P', Q', total, entered'.
           replace (i + S n)%nat with (S i + n)%nat by lia.
           repeat split; assumption || apply Hag'.
      * left. congruence.
      * left. congruence.
    + assert (HQ : Q !! i = None).
      { apply lookup_ge_None. apply lookup_ge_None in HP.
        rewrite <- (skeleton_length P Q (proj1 Hag)). exact HP. }
      rewrite HQ. right. exists P, Q, byteOffset, entered.
      repeat split; try reflexivity; try apply Hag.
      intros j Hj. destruct (Nat.lt_ge_cases j i) as [Hlt|Hge].
      * apply Hag. exact Hlt.
      * apply lookup_ge_None in HP.
        rewrite (proj2 (lookup_ge_None P j)) by lia.
        rewrite (proj2 (lookup_ge_None Q j));
          [reflexivity|rewrite <- (skeleton_length P Q (proj1 Hag)); lia].
Qed.

Lemma agreeBelow_all (P Q : list Directive) :
  agreeBelow (List.length P) P Q -> P = Q.
Proof.
  intros [Hs Hlow]. apply list_eq. intros j.
  destruct (Nat.lt_ge_cases j (List.length P)) as [Hlt|Hge].
  - apply Hlow. exact Hlt.
  - rewrite (proj2 (lookup_ge_None P j)) by lia.
    rewrite (proj2 (lookup_ge_None Q j));
      [reflexivity|rewrite <- (skeleton_length P Q Hs); lia].
Qed.

(** With backward references only, a pass is a function of the skeleton. *)
Lemma layoutPass_agree labelMap (P Q : list Directive) :
  map skeleton P = map skeleton Q -> backRefs labelMap P ->
  layoutPass labelMap P = layoutPass labelMap Q.
Proof.
  intros Hs Hback. unfold layoutPass.
  rewrite <- (skeleton_length P Q Hs).
  assert (Hag : agreeBelow 0 P Q) by (split; [exact Hs|intros j Hj; lia]).
  destruct (layoutPass_from_agree labelMap (List.length P) 0 P Q 0 []
              Hag Hback)
    as [Heq|(P' & Q' & total & entered' & H1 & H2 & Hag')]; [exact Heq|].
  rewrite H1, H2. cbn [Nat.add] in Hag'.
  assert (Hlen : List.length P' = List.length P).
  { apply skeleton_length. eapply layoutPass_from_skeleton. exact H1. }
  rewrite <- Hlen in Hag'. rewrite (agreeBelow_all P' Q' Hag'). reflexivity.
Qed.

(** ** The label map *)

Lemma createLabelMap_from_spec (rest : list Directive) :
  forall i acc m,
    createLabelMap_from i rest acc = Returns m ->
    (forall k d, rest !! k = Some d -> getToken d = IDENTIFIER ->
                 isLabel (Some d) = true) /\
    (forall l,
        match m !! l with
        | Some j =>
            ((i <= j)%nat /\
             (exists v, rest !! (j - i)%nat = Some (Label l v)) /\
             (forall k v, rest !! k = Some (Label l v) -> (i + k <= j)%nat)) \/
            (acc !! l = Some j /\ forall k v, rest !! k <> Some (Label l v))
        | None => acc !! l = None /\ forall k v, rest !! k <> Some (Label l v)
        end).
Proof.
  induction rest as [|d rest IH]; intros i acc m Hm; cbn [createLabelMap_from] in Hm.
  - injection Hm as <-. split; [intros k d Hk; discriminate|].
    intros l. destruct (acc !! l) as [j|] eqn:Hl.
    + right. split; [reflexivity|]. intros k v Hk. discriminate.
    + split; [reflexivity|]. intros k v Hk. discriminate.
  - destruct (Token_eqb (getToken d) IDENTIFIER) eqn:Htok.
    + destruct d as [v|s|s|label v|t v|t label v|t]; try discriminate Hm.
      destruct (IH (S i) (<[label := i]> acc) m Hm) as [Hids Hmap].
      split.
      { intros [|k] d Hk Hd; [injection Hk as <-; reflexivity|].
        eapply Hids; eassumption. }
      intros l. specialize (Hmap l).
      destruct (m !! l) as [j|].
      * destruct Hmap as [(Hle & [v' Hv'] & Hlast)|[Hacc Hno]].
        -- left. split; [lia|]. split.
           ++ exists v'. replace (j - i)%nat with (S (j - S i)) by lia.
              exact Hv'.
           ++ intros [|k] v0 Hk; [lia|].
              specialize (Hlast k v0 Hk). lia.
        -- destruct (decide (label = l)) as [->|Hne].
           ++ rewrite lookup_insert_eq in Hacc. injection Hacc as <-.
              left. split; [lia|]. split.
              ** exists v. rewrite Nat.sub_diag. reflexivity.
              ** intros [|k] v0 Hk; [lia|]. exfalso. eapply Hno. exact Hk.
           ++ rewrite lookup_insert_ne in Hacc by exact Hne.
              right. split; [exact Hacc|].
              intros [|k] v0 Hk; [|eapply Hno; exact Hk].
              injection Hk as Hk _. contradiction.
      * destruct Hmap as [Hacc Hno].
        destruct (decide (label = l)) as [->|Hne].
        -- rewrite lookup_insert_eq in Hacc. discriminate.
        -- rewrite lookup_insert_ne in Hacc by exact Hne.
           split; [exact Hacc|].
           intros [|k] v0 Hk; [|eapply Hno; exact Hk].
           injection Hk as Hk _. contradiction.
    + destruct (IH (S i) acc m Hm) as [Hids Hmap].
      assert (Hnot : forall l v, d <> Label l v).
      { intros l v ->. discriminate Htok. }
      split.
      { intros [|k] d' Hk Hd; [|eapply Hids; eassumption].
        injection Hk as <-. rewrite Hd in Htok. discriminate. }
      intros l. specialize (Hmap l).
      destruct (m !! l) as [j|].
      * destruct Hmap as [(Hle & [v' Hv'] & Hlast)|[Hacc Hno]].
        -- left. split; [lia|]. split.
           ++ exists v'. replace (j - i)%nat with (S (j - S i)) by lia.
              exact Hv'.
           ++ intros [|k] v0 Hk; [lia|].
              specialize (Hlast k v0 Hk). lia.
        -- right. split; [exact Hacc|].
           intros [|k] v0 Hk; [|eapply Hno; exact Hk].
           injection Hk as Hk. eapply Hnot. exact Hk.
      * destruct Hmap as [Hacc Hno]. split; [exact Hacc|].
        intros [|k] v0 Hk; [|eapply Hno; exact Hk].
        injection Hk as Hk. eapply Hnot. exact Hk.
Qed.

(** The only way [createLabelMap] can fail is over a directive with the
    token IDENTIFIER that is no label. *)
Lemma createLabelMap_from_returns (rest : list Directive) :
  forall i acc,
    (forall k d, rest !! k = Some d -> getToken d = IDENTIFIER ->
                 isLabel (Some d) = true) ->
    exists m, createLabelMap_from i rest acc = Returns m.
Proof.
  induction rest as [|d rest IH]; intros i acc Hids; cbn [createLabelMap_from].
  - eexists. reflexivity.
  - assert (Hrest : forall k d', rest !! k = Some d' ->
                                 getToken d' = IDENTIFIER ->
                                 isLabel (Some d') = true).
    { intros k d' Hk. exact (Hids (S k) d' Hk). }
    destruct (Token_eqb (getToken d) IDENTIFIER) eqn:Htok.
    + apply Token_eqb_eq in Htok.
      pose proof (Hids 0%nat d eq_refl Htok) as Hl.
      destruct d; try discriminate Hl. apply IH. exact Hrest.
    + apply IH. exact Hrest.
Qed.

(** X2.  [createLabelMap] maps every name that the program declares to the
    position of the LAST label directive with that name (a name declared
    twice is accepted, and the later declaration silently wins), and has no
    entry for any other name. *)
Theorem createLabelMap_last_declaration (program : list Directive)
        (labelMap : gmap string nat) :
  createLabelMap program = Returns labelMap ->
  forall label,
    match labelMap !! label with
    | Some j =>
        (exists v, program !! j = Some (Label label v)) /\
        (forall k v, program !! k = Some (Label label v) -> (k <= j)%nat)
    | None => forall k v, program !! k <> Some (Label label v)
    end.
Proof.
  intros Hm label.
  destruct (createLabelMap_from_spec program 0 ∅ labelMap Hm) as [_ Hmap].
  specialize (Hmap label).
  destruct (labelMap !! label) as [j|].
  - destruct Hmap as [(_ & Hv & Hlast)|[Hacc _]].
    + rewrite Nat.sub_0_r in Hv. split; [exact Hv|exact Hlast].
    + rewrite lookup_empty in Hacc. discriminate.
  - apply Hmap.
Qed.

Lemma createLabelMap_last_declaration_witness :
  let program := [Label "a" 0; InstrImm Asm.LDAC 1; Label "a" 0] in
  exists labelMap,
    createLabelMap program = Returns labelMap /\
    labelMap !! "a" = Some 2%nat /\
    (forall k v, program !! k = Some (Label "a" v) -> (k <= 2)%nat).
Proof.
  cbv zeta. eexists. split; [reflexivity|]. split; [reflexivity|].
  intros k v Hk.
  pose proof (createLabelMap_last_declaration
                [Label "a" 0; InstrImm Asm.LDAC 1; Label "a" 0] _ eq_refl "a")
    as H.
  vm_compute in H.
  exact (proj2 H k v Hk).
Defined.

(** ** When a pass of the layout returns *)

Lemma isLabel_skeleton (d d' : Directive) :
  skeleton d' = skeleton d -> isLabel (Some d') = isLabel (Some d).
Proof.
  destruct d, d'; cbn; intros Hs; congruence.
Qed.

Lemma getToken_skeleton_eq (d d' : Directive) :
  skeleton d' = skeleton d -> getToken d' = getToken d.
Proof.
  intros Hs. rewrite <- (getToken_skeleton d), <- (getToken_skeleton d'), Hs.
  reflexivity.
Qed.

Lemma layoutReady_skeleton labelMap (P Q : list Directive) :
  map skeleton P = map skeleton Q ->
  layoutReady labelMap P -> layoutReady labelMap Q.
Proof.
  intros Hs (Hids & Hmap & Hrefs). split; [|split].
  - intros k d Hk Hd.
    destruct (skeleton_lookup Q P k d (eq_sym Hs) Hk) as (d' & Hd' & Hsk).
    rewrite <- (isLabel_skeleton d d' Hsk).
    apply (Hids k d' Hd'). rewrite (getToken_skeleton_eq d d' Hsk). exact Hd.
  - intros label j Hj. specialize (Hmap label j Hj).
    destruct (P !! j) as [d|] eqn:HP; [|discriminate Hmap].
    destruct (skeleton_lookup P Q j d Hs HP) as (d' & Hd' & Hsk).
    rewrite Hd', (isLabel_skeleton d d' Hsk). exact Hmap.
  - intros k token label v Hk.
    destruct (skeleton_lookup Q P k _ (eq_sym Hs) Hk) as (d' & Hd' & Hsk).
    destruct d'; cbn in Hsk; try discriminate Hsk.
    injection Hsk as -> ->. eapply Hrefs. exact Hd'.
Qed.

Lemma labelsResolve_lookup (P : list Directive) labelMap :
  labelsResolve P labelMap = true ->
  forall k token label v,
    P !! k = Some (InstrLabel token label v) -> is_Some (labelMap !! label).
Proof.
  unfold labelsResolve. rewrite forallb_forall. intros Hall k token label v Hk.
  assert (Hin : In (InstrLabel token label v) P).
  { apply list_elem_of_In. apply list_elem_of_lookup. exists k. exact Hk. }
  apply Hall in Hin. apply bool_decide_eq_true in Hin. exact Hin.
Qed.

Lemma labelsResolve_false (P : list Directive) labelMap :
  labelsResolve P labelMap = false ->
  exists k token label v,
    P !! k = Some (InstrLabel token label v) /\ labelMap !! label = None.
Proof.
  unfold labelsResolve. induction P as [|d P IH]; cbn [forallb]; [discriminate|].
  intros H. apply andb_false_iff in H as [H|H].
  - destruct d as [v|s|s|l v|t v|t l v|t]; try discriminate H.
    apply bool_decide_eq_false in H.
    exists 0%nat, t, l, v. split; [reflexivity|].
    destruct (labelMap !! l) eqn:Hl; [|reflexivity].
    exfalso. apply H. eexists. reflexivity.
  - destruct (IH H) as (k & t & l & v & Hk & Hl).
    exists (S k), t, l, v. split; assumption.
Qed.

Lemma createLabelMap_layoutReady (P : list Directive) labelMap :
  createLabelMap P = Returns labelMap -> labelsResolve P labelMap = true ->
  layoutReady labelMap P.
Proof.
  intros Hm Hres.
  destruct (createLabelMap_from_spec P 0 ∅ labelMap Hm) as [Hids Hmap].
  split; [exact Hids|]. split; [|apply labelsResolve_lookup; exact Hres].
  intros label j Hj. specialize (Hmap label). rewrite Hj in Hmap.
  destruct Hmap as [(_ & [v Hv] & _)|[Hacc _]].
  - rewrite Nat.sub_0_r in Hv. rewrite Hv. reflexivity.
  - rewrite lookup_empty in Hacc. discriminate.
Qed.

Lemma layoutDirective_returns labelMap (P : list Directive) (i : nat)
      (d : Directive) (byteOffset : Z) :
  layoutReady labelMap P -> P !! i = Some d ->
  exists r, layoutDirective labelMap i d P byteOffset = Returns r.
Proof.
  intros (Hids & Hmap & Hrefs) Hi.
  assert (Hlt : (i < List.length P)%nat) by (eapply lookup_lt_Some; exact Hi).
  unfold layoutDirective.
  destruct (Token_eqb (getToken d) IDENTIFIER) eqn:Htok.
  - apply Token_eqb_eq in Htok. pose proof (Hids i d Hi Htok) as Hl.
    destruct d; try discriminate Hl. cbn [obind getToken Token_eqb].
    rewrite list_lookup_insert_eq by exact Hlt. eexists. reflexivity.
  - cbn [obind].
    destruct d as [v|s|s|l v|t v|t l v|t]; cbn [obind];
      try (rewrite Hi; eexists; reflexivity).
    destruct (Hrefs i t l v Hi) as [j Hj].
    pose proof (Hmap l j Hj) as Hlab.
    unfold labelMapValue. rewrite Hj.
    destruct (P !! j) as [[ | | |l' v'| | | ]|]; try discriminate Hlab.
    cbn [obind]. rewrite list_lookup_insert_eq by exact Hlt.
    eexists. reflexivity.
Qed.

Lemma layoutPass_from_returns labelMap (n : nat) :
  forall i P byteOffset entered,
    layoutReady labelMap P ->
    exists r, layoutPass_from n i labelMap P byteOffset entered = Returns r.
Proof.
  induction n as [|n IH]; intros i P byteOffset entered Hready;
    cbn [layoutPass_from].
  - eexists. reflexivity.
  - destruct (P !! i) as [d|] eqn:Hi; [|eexists; reflexivity].
    destruct (layoutDirective_returns labelMap P i d byteOffset Hready Hi)
      as [[P1 o1] Hd].
    rewrite Hd. cbn [obind fst snd]. apply IH.
    destruct (layoutDirective_result _ _ _ _ _ _ _ Hd Hi)
      as (d1 & -> & Hs1 & _).
    eapply layoutReady_skeleton; [|exact Hready].
    symmetry. eapply map_skeleton_insert; eassumption.
Qed.

Lemma layoutPass_returns
      (program : list Directive) (labelMap : gmap string nat) :
  createLabelMap program = Returns labelMap ->
  labelsResolve program labelMap = true ->
  exists program' total entered,
    layoutPass labelMap program = Returns (program', total, entered).
Proof.
  intros Hm Hres.
  destruct (layoutPass_from_returns labelMap (List.length program) 0 program
              0 [] (createLabelMap_layoutReady _ _ Hm Hres))
    as [[[program' total] entered] Hr].
  exists program', total, entered. exact Hr.
Qed.

(** X3.  Once [createLabelMap] has returned, a pass of the layout cannot
    fail except over a reference to an undeclared label: it returns when
    every reference names an entry of the map, and dereferences a null
    pointer when one does not. *)
Theorem layoutPass_fails_on_undeclared_labels_only (program : list Directive)
        (labelMap : gmap string nat) :
  createLabelMap program = Returns labelMap ->
  if labelsResolve program labelMap
  then exists program' total entered,
         layoutPass labelMap program = Returns (program', total, entered)
  else layoutPass labelMap program = Undefined NullDereference.
Proof.
  intros Hm. destruct (labelsResolve program labelMap) eqn:Hres.
  - apply layoutPass_returns; assumption.
  - destruct (labelsResolve_false _ _ Hres) as (k & t & l & v & Hk & Hl).
    unfold layoutPass.
    apply (layoutPass_from_unknown_label labelMap t l v Hl _ _ _ _ _ k Hk).
    apply lookup_lt_Some in Hk. lia.
Qed.

Lemma layoutPass_fails_on_undeclared_labels_only_witness :
  exists program' total entered,
    layoutPass countdownLabels countdownProgram
    = Returns (program', total, entered).
Proof.
  exact (layoutPass_fails_on_undeclared_labels_only
           countdownProgram countdownLabels eq_refl).
Defined.

Lemma backRefs_labelsResolve labelMap (P : list Directive) :
  backRefs labelMap P -> labelsResolve P labelMap = true.
Proof.
  intros Hb. destruct (labelsResolve P labelMap) eqn:Hres; [reflexivity|].
  destruct (labelsResolve_false _ _ Hres) as (k & t & l & v & Hk & Hl).
  destruct (Hb k t l v Hk) as (j & Hj & _). congruence.
Qed.

Lemma createLabelMap_from_skeleton (P : list Directive) :
  forall Q i acc,
    map skeleton P = map skeleton Q ->
    createLabelMap_from i P acc = createLabelMap_from i Q acc.
Proof.
  induction P as [|d P IH]; intros [|d' Q] i acc Hs; try discriminate Hs;
    [reflexivity|].
  cbn [map] in Hs. injection Hs as Hd Hs. cbn [createLabelMap_from].
  rewrite (getToken_skeleton_eq d' d Hd).
  destruct (Token_eqb (getToken d') IDENTIFIER);
    [|apply IH; exact Hs].
  destruct d, d'; cbn in Hd; try discriminate Hd; try reflexivity.
  injection Hd as ->. apply IH. exact Hs.
Qed.

(** X4.  A program in which every label is declared in front of its uses is
    resolved by two passes of the layout, whatever the vector's
    [labelValue] members held before: [resolveLabels] returns the same
    vector for every vector with the same skeleton, and a further pass
    over the result would change nothing. *)
Theorem backward_references_resolve_in_two_passes (program : list Directive)
        (labelMap : gmap string nat) :
  createLabelMap program = Returns labelMap ->
  backwardOnly labelMap program = true ->
  exists resolved,
    (forall other fuel,
        map skeleton other = map skeleton program ->
        createLabelMap other = Returns labelMap /\
        resolveLabels (3 + fuel) other labelMap = Some (Returns resolved)) /\
    passResult labelMap resolved = Returns (resolved, offsetAfter resolved 0).
Proof.
  intros Hm Hback. apply backwardOnly_backRefs in Hback.
  pose proof (layoutPass_returns program labelMap
                Hm (backRefs_labelsResolve _ _ Hback))
    as (resolved & total & entered & Hpass).
  assert (Hsk : map skeleton resolved = map skeleton program).
  { eapply layoutPass_from_skeleton. exact Hpass. }
  assert (Hfix : layoutPass labelMap resolved
                 = Returns (resolved, total, entered)).
  { rewrite (layoutPass_agree labelMap resolved program Hsk
               (backRefs_skeleton _ _ _ (eq_sym Hsk) Hback)).
    exact Hpass. }
  exists resolved. split.
  - intros other fuel Hother. split.
    { unfold createLabelMap.
      rewrite (createLabelMap_from_skeleton other program 0 ∅ Hother).
      exact Hm. }
    assert (Hpo : layoutPass labelMap other
                  = Returns (resolved, total, entered)).
    { rewrite (layoutPass_agree labelMap other program Hother
                 (backRefs_skeleton _ _ _ (eq_sym Hother) Hback)).
      exact Hpass. }
    unfold resolveLabels. cbn [Nat.add resolveLabels_loop].
    change (-1 =? 0) with false. cbv iota. rewrite Hpo.
    destruct (0 =? total); [reflexivity|].
    rewrite Hfix, Z.eqb_refl. reflexivity.
  - unfold passResult. rewrite Hfix. cbn [obind fst snd].
    destruct resolved as [|d0 rest].
    + unfold layoutPass in Hfix. cbn in Hfix. injection Hfix as <- _.
      reflexivity.
    + destruct (layoutPass_entered labelMap _ _ total entered 0%nat Hfix)
        as [_ Ht]; [cbn [List.length]; lia|].
      rewrite Ht. reflexivity.
Qed.

Lemma backward_references_resolve_in_two_passes_witness :
  exists resolved,
    (forall other fuel,
        map skeleton other = map skeleton countdownProgram ->
        createLabelMap other = Returns countdownLabels /\
        resolveLabels (3 + fuel) other countdownLabels
        = Some (Returns resolved)) /\
    passResult countdownLabels resolved
    = Returns (resolved, offsetAfter resolved 0).
Proof.
  exact (backward_references_resolve_in_two_passes
           countdownProgram countdownLabels eq_refl eq_refl).
Defined.

(** ** The values a pass leaves *)

Lemma layoutPass_from_values labelMap (n : nat) :
  forall i program byteOffset entered program' total entered',
    layoutPass_from n i labelMap program byteOffset entered
    = Returns (program', total, entered') ->
    (i + n = List.length program)%nat ->
    List.length entered = i ->
    (forall j l v, (i <= j)%nat -> program' !! j = Some (Label l v) ->
                   entered' !! j = Some v) /\
    (forall k t l v,
        (i <= k)%nat -> program' !! k = Some (InstrLabel t l v) ->
        exists j l' target at_,
          labelMap !! l = Some j /\
          (if (j <? k)%nat then program' !! j else program !! j)
          = Some (Label l' target) /\
          entered' !! k = Some at_ /\
          v = wrap32 (wrap32 (target - placedAt (InstrLabel t l v) at_)
                      - instrLen target (placedAt (InstrLabel t l v) at_))).
Proof.
  induction n as [|n IH];
    intros i program byteOffset entered program' total entered' Hr Hn He;
    cbn [layoutPass_from] in Hr.
  - inversion Hr; subst. split.
    + intros j l v Hj Hl. apply lookup_lt_Some in Hl. lia.
    + intros k t l v Hk Hl. apply lookup_lt_Some in Hl. lia.
  - destruct (program !! i) as [d|] eqn:Hi.
    2:{ apply lookup_ge_None in Hi. lia. }
    destruct (layoutDirective labelMap i d program byteOffset)
      as [[P1 o1]|w|u] eqn:Hd; cbn [obind fst snd] in Hr; try discriminate Hr.
    destruct (layoutDirective_result _ _ _ _ _ _ _ Hd Hi)
      as (d1 & HP1 & Hs1 & _ & Hlab & Href).
    assert (Hlt : (i < List.length program)%nat)
      by (eapply lookup_lt_Some; exact Hi).
    assert (Hlen1 : List.length P1 = List.length program)
      by (rewrite HP1; apply length_insert).
    destruct (layoutPass_from_spec _ _ _ _ _ _ _ _ _ Hr)
      as (_ & Hlow & Hent & _ & _);
      [lia|rewrite length_app; cbn [List.length]; lia|].
    destruct (IH (S i) P1 o1 (entered ++ [byteOffset]) program' total entered'
                Hr) as [IHlab IHref];
      [lia|rewrite length_app; cbn [List.length]; lia|].
    assert (Hi' : program' !! i = Some d1).
    { rewrite (Hlow i) by lia. rewrite HP1.
      apply list_lookup_insert_eq. exact Hlt. }
    assert (Hei : entered' !! i = Some byteOffset).
    { rewrite (Hent i) by lia. rewrite <- He.
      apply list_lookup_middle. reflexivity. }
    split.
    + intros j l v Hj Hl. destruct (Nat.eq_dec j i) as [->|Hne].
      * rewrite Hi' in Hl. injection Hl as ->.
        destruct d; cbn in Hs1; try discriminate Hs1.
        injection Hs1 as <-.
        specialize (Hlab _ _ eq_refl). injection Hlab as <-. exact Hei.
      * apply (IHlab j l v); [lia|exact Hl].
    + intros k t l v Hk Hl. destruct (Nat.eq_dec k i) as [->|Hne].
      * rewrite Hi' in Hl. injection Hl as ->.
        destruct d as [ | | | |t0 v0|t0 l0 v0| ]; cbn in Hs1;
          try discriminate Hs1.
        injection Hs1 as <- <-.
        destruct (Href _ _ _ eq_refl) as (target & Hval & Hd1).
        unfold labelMapValue in Hval.
        destruct (labelMap !! l) as [j|] eqn:Hj; [|discriminate Hval].
        destruct (program !! j) as [[ | | |l' v'| | | ]|] eqn:Hpj;
          try discriminate Hval.
        injection Hval as ->.
        exists j, l', target, byteOffset. split; [reflexivity|].
        split.
        { destruct (Nat.ltb_spec j i) as [Hji|Hji]; [|exact Hpj].
          rewrite (Hlow j) by lia. rewrite HP1.
          rewrite list_lookup_insert_ne by lia. exact Hpj. }
        split; [exact Hei|].
        injection Hd1 as ->. unfold placedAt. cbn [getToken]. reflexivity.
      * destruct (IHref k t l v) as (j & l' & target & at_ & Hj & Hpj & Hek & Hv);
          [lia|exact Hl|].
        exists j, l', target, at_. split; [exact Hj|]. split; [|split; assumption].
        destruct (Nat.ltb_spec j k) as [Hjk|Hjk]; [exact Hpj|].
        rewrite HP1 in Hpj. rewrite list_lookup_insert_ne in Hpj by lia.
        exact Hpj.
Qed.

Lemma layoutPass_label_offset labelMap program program' total entered j l v :
  layoutPass labelMap program = Returns (program', total, entered) ->
  program' !! j = Some (Label l v) ->
  v = offsetAfter (take j program') 0.
Proof.
  intros Hr Hl.
  destruct (layoutPass_from_values _ _ _ _ _ _ _ _ _ Hr) as [Hlab _];
    [lia|reflexivity|].
  specialize (Hlab j l v ltac:(lia) Hl).
  destruct (layoutPass_entered _ _ _ _ _ j Hr) as [He _];
    [eapply lookup_lt_Some; exact Hl|].
  congruence.
Qed.

(** X5.  The values one pass of the layout leaves in the vector.  Every
    label holds the offset of its place in the layout this pass computed.
    Every label reference holds the distance from the place of its
    instruction to the value of its target, less [instrLen] of the two;
    the target's value is the one of this pass for a label declared in
    front of the reference, and the one the vector held before the pass
    for a label declared after it. *)
Theorem layoutPass_values labelMap (program program' : list Directive)
        (total : Z) (entered : list Z) :
  layoutPass labelMap program = Returns (program', total, entered) ->
  (forall j l v, program' !! j = Some (Label l v) ->
                 v = offsetAfter (take j program') 0) /\
  (forall k t l v,
      program' !! k = Some (InstrLabel t l v) ->
      exists j l' target,
        labelMap !! l = Some j /\
        (if (j <? k)%nat then program' !! j else program !! j)
        = Some (Label l' target) /\
        let at_ := placedAt (InstrLabel t l v)
                            (offsetAfter (take k program') 0) in
        v = wrap32 (wrap32 (target - at_) - instrLen target at_)).
Proof.
  intros Hr. split.
  - intros j l v Hl. eapply layoutPass_label_offset; eassumption.
  - intros k t l v Hk.
    destruct (layoutPass_from_values _ _ _ _ _ _ _ _ _ Hr) as [_ Href];
      [lia|reflexivity|].
    destruct (Href k t l v ltac:(lia) Hk)
      as (j & l' & target & at_ & Hj & Hpj & Hek & Hv).
    destruct (layoutPass_entered _ _ _ _ _ k Hr) as [He _];
      [eapply lookup_lt_Some; exact Hk|].
    rewrite He in Hek. injection Hek as <-.
    exists j, l', target. split; [exact Hj|]. split; [exact Hpj|exact Hv].
Qed.

Lemma layoutPass_values_witness :
  exists program' total entered,
    layoutPass countdownLabels countdownProgram
    = Returns (program', total, entered) /\
    (forall j l v, program' !! j = Some (Label l v) ->
                   v = offsetAfter (take j program') 0).
Proof.
  eexists _, _, _. split; [vm_compute; reflexivity|].
  eapply (layoutPass_values countdownLabels countdownProgram).
  vm_compute; reflexivity.
Defined.

(** ** Layout, listing and binary file *)

(** X6.  The layout and the emitter count the same bytes: after a pass, the
    value of a label is the number of bytes the emitter has written when it
    reaches the label, and the total of the pass is the length of the file
    (both as the 32-bit [int] the code holds them in). *)
Theorem labels_hold_file_offsets (E : Encoding) labelMap
        (program program' : list Directive) (total : Z) (entered : list Z) :
  layoutPass labelMap program = Returns (program', total, entered) ->
  (forall j l v bytes byteOffset,
      program' !! j = Some (Label l v) ->
      emitProgramBin (take j program') = Returns (bytes, byteOffset) ->
      v = wrap32 (Z.of_nat (List.length bytes))) /\
  (forall bytes byteOffset,
      emitProgramBin program' = Returns (bytes, byteOffset) ->
      total = wrap32 (Z.of_nat (List.length bytes))).
Proof.
  intros Hr. split.
  - intros j l v bytes byteOffset Hl Hemit.
    rewrite (layoutPass_label_offset _ _ _ _ _ _ _ _ Hr Hl).
    destruct (emitProgramBin_offset _ _ _ Hemit) as [H1 H2]. congruence.
  - intros bytes byteOffset Hemit.
    destruct (emitProgramBin_offset _ _ _ Hemit) as [H1 H2].
    destruct program' as [|d0 rest].
    + unfold layoutPass in Hr.
      assert (Hlen : List.length program = 0%nat).
      { symmetry. apply (skeleton_length [] program).
        eapply layoutPass_from_skeleton. exact Hr. }
      destruct program; [|discriminate Hlen].
      cbn in Hr. injection Hr as <- _. cbn in H1. congruence.
    + destruct (layoutPass_entered _ _ _ _ _ 0%nat Hr) as [_ Ht];
        [cbn [List.length]; lia|].
      congruence.
Qed.

Lemma labels_hold_file_offsets_witness :
  exists program' total entered,
    layoutPass countdownLabels countdownProgram
    = Returns (program', total, entered) /\
    forall bytes byteOffset,
      @emitProgramBin specEncoding program' = Returns (bytes, byteOffset) ->
      total = wrap32 (Z.of_nat (List.length bytes)).
Proof.
  eexists _, _, _. split; [vm_compute; reflexivity|].
  eapply (labels_hold_file_offsets specEncoding countdownLabels
            countdownProgram).
  vm_compute; reflexivity.
Defined.

Lemma placedAt_listing (d : Directive) (byteOffset : Z) :
  (if Token_eqb (getToken d) DATA && negb (Z.land byteOffset 3 =? 0)
   then wrap32 (byteOffset + (4 - Z.land byteOffset 3))
   else byteOffset)
  = placedAt d byteOffset.
Proof.
  unfold placedAt, alignData.
  destruct (Token_eqb (getToken d) DATA); [|reflexivity].
  destruct (Z.land byteOffset 3 =? 0); reflexivity.
Qed.

Lemma emitProgramText_from_lookup (program : list Directive) :
  forall byteOffset i,
    emitProgramText_from program byteOffset !! i
    = match program !! i with
      | Some d => Some (placedAt d (offsetAfter (take i program) byteOffset),
                        d, getSize d)
      | None => None
      end.
Proof.
  induction program as [|d program IH]; intros byteOffset i;
    cbn [emitProgramText_from]; [destruct i; reflexivity|].
  rewrite placedAt_listing.
  destruct i as [|i]; [reflexivity|].
  etransitivity; [apply (IH _ i)|].
  change ((d :: program) !! S i) with (program !! i).
  destruct (program !! i); reflexivity.
Qed.

(** X7.  The listing and the binary file agree: line [i] of the listing
    shows directive [i] with its size, at the offset where the emitter
    places the directive, which is the number of bytes written for the
    directives in front of it, aligned first if the directive is data. *)
Theorem listing_offsets_are_file_offsets (E : Encoding)
        (program : list Directive) (i : nat) (at_ : Z) (d : Directive)
        (size : Z) :
  emitProgramText program !! i = Some (at_, d, size) ->
  program !! i = Some d /\ size = getSize d /\
  at_ = placedAt d (offsetAfter (take i program) 0) /\
  (forall bytes byteOffset,
      emitProgramBin (take i program) = Returns (bytes, byteOffset) ->
      at_ = placedAt d (wrap32 (Z.of_nat (List.length bytes)))).
Proof.
  unfold emitProgramText. rewrite emitProgramText_from_lookup.
  destruct (program !! i) as [d'|]; [|discriminate].
  intros Hl. injection Hl as <- <- <-.
  split; [reflexivity|]. split; [reflexivity|]. split; [reflexivity|].
  intros bytes byteOffset Hemit.
  destruct (emitProgramBin_offset _ _ _ Hemit) as [H1 H2]. congruence.
Qed.

Lemma listing_offsets_are_file_offsets_witness :
  emitProgramText countdownProgram !! 6%nat = Some (8, Data 7, 4) /\
  forall bytes byteOffset,
    @emitProgramBin specEncoding (take 6 countdownProgram)
    = Returns (bytes, byteOffset) ->
    8 = placedAt (Data 7) (wrap32 (Z.of_nat (List.length bytes))).
Proof.
  split; [reflexivity|].
  apply (listing_offsets_are_file_offsets specEncoding countdownProgram 6
           8 (Data 7) 4 eq_refl).
Defined.

(** ** What the assembler can do with a source *)

Lemma wellFormed_skeleton (d : Directive) :
  wellFormed (skeleton d) = wellFormed d.
Proof. destruct d; reflexivity. Qed.

Lemma forallb_wellFormed_skeleton (P Q : list Directive) :
  map skeleton P = map skeleton Q ->
  forallb wellFormed P = forallb wellFormed Q.
Proof.
  revert Q. induction P as [|d P IH]; intros [|d' Q] Hs; try discriminate Hs;
    [reflexivity|].
  cbn [map] in Hs. injection Hs as Hd Hs. cbn [forallb].
  rewrite <- (wellFormed_skeleton d), <- (wellFormed_skeleton d'), Hd.
  f_equal. apply IH. exact Hs.
Qed.

Lemma wellFormed_identifier (d : Directive) :
  wellFormed d = true -> getToken d = IDENTIFIER -> isLabel (Some d) = true.
Proof.
  destruct d as [v|s|s|l v|t v|t l v|t]; cbn; intros Hw Ht;
    try discriminate Ht; try reflexivity; subst t; discriminate Hw.
Qed.

Lemma forallb_lookup {A} (f : A -> bool) (l : list A) (i : nat) (x : A) :
  forallb f l = true -> l !! i = Some x -> f x = true.
Proof.
  rewrite forallb_forall. intros Hall Hi. apply Hall.
  apply list_elem_of_In. apply list_elem_of_lookup. exists i. exact Hi.
Qed.

Lemma parseDirective_wellFormed (lexer lexer' : Lexer) (d : Directive) :
  parseDirective lexer = Returns (d, lexer') -> wellFormed d = true.
Proof.
  unfold parseDirective, mkInstrOp, parseIdentifier.
  destruct (getLastToken lexer) eqn:Ht; try discriminate;
    try (intros H; injection H as <- _; reflexivity);
    try (destruct (parseInteger _) as [[v l1]|w|u]; cbn [obind];
         try discriminate; intros H; injection H as <- _; reflexivity);
    try (destruct (Token_eqb (fst (getNextToken lexer)) IDENTIFIER);
         [ intros H; injection H as <- _; reflexivity
         | destruct (parseInteger _) as [[v l1]|w|u]; cbn [obind];
           try discriminate; intros H; injection H as <- _; reflexivity ]).
  destruct (fst (getNextToken lexer)); cbn [obind]; try discriminate;
    intros H; injection H as <- _; reflexivity.
Qed.

Lemma parseProgram_loop_wellFormed (fuel : nat) :
  forall lexer acc program,
    forallb wellFormed acc = true ->
    parseProgram_loop fuel lexer acc = Some (Returns program) ->
    forallb wellFormed program = true.
Proof.
  induction fuel as [|fuel IH]; intros lexer acc program Hacc Hp;
    cbn [parseProgram_loop] in Hp; [discriminate|].
  destruct (Token_eqb (fst (getNextToken lexer)) END_OF_FILE).
  - injection Hp as <-. exact Hacc.
  - destruct (parseDirective (snd (getNextToken lexer)))
      as [[d lexer']|w|u] eqn:Hd; try discriminate Hp.
    eapply IH; [|exact Hp].
    rewrite forallb_app, Hacc. cbn [forallb andb].
    rewrite (parseDirective_wellFormed _ _ _ Hd). reflexivity.
Qed.

Lemma layoutPass_from_failure labelMap (n : nat) :
  forall i program byteOffset entered,
    match layoutPass_from n i labelMap program byteOffset entered with
    | Returns _ => True
    | Throws _ => False
    | Undefined u => u = NullDereference
    end.
Proof.
  induction n as [|n IH]; intros i program byteOffset entered;
    cbn [layoutPass_from]; [exact I|].
  destruct (program !! i) as [d|]; [|exact I].
  destruct (layoutDirective labelMap i d program byteOffset)
    as [[P1 o1]|w|u] eqn:Hd; cbn [obind fst snd].
  - apply IH.
  - exact (layoutDirective_not_thrown _ _ _ _ _ _ Hd).
  - exact (layoutDirective_undefined _ _ _ _ _ _ Hd).
Qed.

(** The loop of [resolveLabels] never throws; it has undefined behaviour
    only through a null pointer, and not at all on a vector that is ready
    for the layout. *)
Lemma resolveLabels_loop_outcome labelMap (fuel : nat) :
  forall program lastSize byteOffset r,
    resolveLabels_loop fuel labelMap program lastSize byteOffset = Some r ->
    match r with
    | Returns program' => map skeleton program' = map skeleton program
    | Throws _ => False
    | Undefined u => u = NullDereference /\ ~ layoutReady labelMap program
    end.
Proof.
  induction fuel as [|fuel IH]; intros program lastSize byteOffset r Hr;
    cbn [resolveLabels_loop] in Hr; [discriminate|].
  destruct (lastSize =? byteOffset).
  - injection Hr as <-. reflexivity.
  - pose proof (layoutPass_from_failure labelMap (List.length program) 0
                  program 0 []) as Hfail.
    fold (layoutPass labelMap program) in Hfail.
    destruct (layoutPass labelMap program) as [[[P1 o1] e1]|w|u] eqn:Hp.
    + assert (Hs1 : map skeleton P1 = map skeleton program)
        by (eapply layoutPass_from_skeleton; exact Hp).
      specialize (IH _ _ _ _ Hr). destruct r as [program'|w|u].
      * congruence.
      * exact IH.
      * destruct IH as [Hu Hnot]. split; [exact Hu|].
        intros Hready. apply Hnot.
        eapply layoutReady_skeleton; [|exact Hready]. symmetry. exact Hs1.
    + contradiction.
    + injection Hr as <-. split; [exact Hfail|].
      intros Hready.
      destruct (layoutPass_from_returns labelMap (List.length program) 0
                  program 0 [] Hready) as [r Hret].
      unfold layoutPass in Hp. congruence.
Qed.

Section EmitterReturns.
Context {E : Encoding}.

Lemma emitPrefixes_returns (i : nat) (instr : Instr) (d : Directive) (v : Z) :
  getValue d = Returns v ->
  exists l, emitPrefixes i instr d = Returns l.
Proof.
  intros Hv. induction i as [|i [l IH]]; cbn [emitPrefixes].
  - eexists. reflexivity.
  - rewrite Hv, IH. cbn [obind]. eexists. reflexivity.
Qed.

Lemma emitDirective_returns (d : Directive) (byteOffset : Z) :
  wellFormed d = true ->
  exists r, emitDirective d byteOffset = Returns r.
Proof.
  intros Hw. unfold emitDirective.
  destruct d as [v|s|s|l v|t v|t l v|t]; cbn [getToken Token_eqb getSize];
    try (eexists; reflexivity); cbn [wellFormed] in Hw.
  - assert (Htok : Token_eqb t DATA = false) by (destruct t; try discriminate Hw; reflexivity).
    assert (Hopc : exists opc, tokenToInstrOpc t = Returns opc)
      by (destruct t; try discriminate Hw; eexists; reflexivity).
    destruct Hopc as [opc Hopc]. rewrite Htok.
    destruct (0 <? immSize v); [|eexists; reflexivity].
    cbn [getValue obind].
    destruct (emitPrefixes_returns (Z.to_nat (immSize v - 1))
                (if v <? 0 then NFIX else PFIX) (InstrImm t v) v eq_refl)
      as [pre Hpre].
    destruct (1 <? immSize v); [rewrite Hpre|]; cbn [obind];
      rewrite Hopc; cbn [obind]; eexists; reflexivity.
  - assert (Htok : Token_eqb t DATA = false) by (destruct t; try discriminate Hw; reflexivity).
    assert (Hopc : exists opc, tokenToInstrOpc t = Returns opc)
      by (destruct t; try discriminate Hw; eexists; reflexivity).
    destruct Hopc as [opc Hopc]. rewrite Htok.
    destruct (0 <? immSize v); [|eexists; reflexivity].
    cbn [getValue obind].
    destruct (emitPrefixes_returns (Z.to_nat (immSize v - 1))
                (if v <? 0 then NFIX else PFIX) (InstrLabel t l v) v eq_refl)
      as [pre Hpre].
    destruct (1 <? immSize v); [rewrite Hpre|]; cbn [obind];
      rewrite Hopc; cbn [obind]; eexists; reflexivity.
  - destruct t; try discriminate Hw; eexists; reflexivity.
Qed.

Lemma emitProgramBin_from_returns (program : list Directive) :
  forall written byteOffset,
    forallb wellFormed program = true ->
    exists r, emitProgramBin_from program written byteOffset = Returns r.
Proof.
  induction program as [|d program IH]; intros written byteOffset Hall;
    cbn [emitProgramBin_from]; [eexists; reflexivity|].
  cbn [forallb] in Hall. apply andb_prop in Hall as [Hd Hall].
  destruct (emitDirective_returns d byteOffset Hd) as [r Hr].
  rewrite Hr. cbn [obind]. apply IH. exact Hall.
Qed.
End EmitterReturns.

Lemma parseProgram_wellFormed (lexer : Lexer) (program : list Directive) :
  parseProgram lexer = Some (Returns program) ->
  forallb wellFormed program = true.
Proof.
  unfold parseProgram. apply parseProgram_loop_wellFormed. reflexivity.
Qed.

Lemma createLabelMap_wellFormed (program : list Directive) :
  forallb wellFormed program = true ->
  exists labelMap, createLabelMap program = Returns labelMap.
Proof.
  intros Hall. apply createLabelMap_from_returns.
  intros k d Hk. apply wellFormed_identifier.
  eapply forallb_lookup; eassumption.
Qed.



(** ** The simulator on emitted instructions *)

Lemma testbit_15 (k : Z) : 0 <= k -> Z.testbit 15 k = (k <? 4).
Proof.
  intros Hk. change 15 with (Z.ones 4). apply Z.testbit_ones_nonneg; lia.
Qed.

Lemma testbit_high_mask (k : Z) :
  0 <= k -> Z.testbit 4294967040 k = (8 <=? k) && (k <? 32).
Proof.
  intros Hk. change 4294967040 with (Z.shiftl (Z.ones 24) 8).
  rewrite Z.shiftl_spec by lia.
  destruct (Z.leb_spec 8 k).
  - rewrite Z.testbit_ones_nonneg by lia.
    destruct (Z.ltb_spec (k - 8) 24), (Z.ltb_spec k 32); reflexivity || lia.
  - rewrite Z.testbit_neg_r by lia. reflexivity.
Qed.

Lemma testbit_nibble_high (n k : Z) :
  0 <= n < 16 -> 4 <= k -> Z.testbit n k = false.
Proof.
  intros Hn Hk. rewrite <- (Z.mod_small n (2 ^ 4)) by (cbn; lia).
  apply Z.mod_pow2_bits_high. lia.
Qed.

Lemma land15_range (x : Z) : 0 <= Z.land x 15 < 16.
Proof.
  change 15 with (Z.ones 4). rewrite Z.land_ones by lia.
  apply Z.mod_pos_bound. reflexivity.
Qed.

(** PFIX: the nibble fetched with the prefix joins the nibbles above it. *)
Lemma pfix_accumulates (v k : Z) :
  0 <= k ->
  Z.lor (Z.shiftl (Z.shiftr v (4 * (k + 1))) 4) (Z.land (Z.shiftr v (4 * k)) 15)
  = Z.shiftr v (4 * k).
Proof.
  intros Hk. apply Z.bits_inj'. intros b Hb.
  rewrite Z.lor_spec, Z.land_spec, Z.shiftl_spec, testbit_15 by lia.
  rewrite !(Z.shiftr_spec v (4 * k) b) by lia.
  destruct (Z.ltb_spec b 4).
  - rewrite Z.testbit_neg_r by lia. rewrite andb_true_r. reflexivity.
  - rewrite andb_false_r, orb_false_r, Z.shiftr_spec by lia. f_equal. lia.
Qed.

Lemma pfix_in_range (v k : Z) :
  0 <= v <= max_int -> 1 <= k ->
  u32 (Z.shiftl (Z.shiftr v (4 * k)) 4) = Z.shiftl (Z.shiftr v (4 * k)) 4.
Proof.
  unfold max_int. intros Hv Hk. apply u32_id. unfold in_u32.
  rewrite Z.shiftl_mul_pow2, Z.shiftr_div_pow2 by lia.
  change (2 ^ 4) with 16.
  assert (H16 : 16 <= 2 ^ (4 * k)).
  { change 16 with (2 ^ 4). apply Z.pow_le_mono_r; lia. }
  assert (Hq : 0 <= v / 2 ^ (4 * k) <= v / 16).
  { split; [apply Z.div_pos; lia|]. apply Z.div_le_compat_l; lia. }
  pose proof (Z.mul_div_le v 16 ltac:(lia)). lia.
Qed.

(** NFIX: bits 8 to 31 are set, and of what was accumulated only the nibble
    fetched with the prefix remains. *)
Lemma nfix_accumulates (o n : Z) :
  Z.land o 15 = 0 -> 0 <= n < 16 ->
  Z.lor 4294967040 (u32 (Z.shiftl (Z.lor o n) 4))
  = Z.lor 4294967040 (Z.shiftl n 4).
Proof.
  intros Ho Hn. apply Z.bits_inj'. intros b Hb.
  rewrite !Z.lor_spec, testbit_high_mask by lia.
  unfold u32.
  destruct (Z.leb_spec 8 b); destruct (Z.ltb_spec b 32); cbn [andb orb];
    try reflexivity.
  - rewrite Z.mod_pow2_bits_high by lia.
    rewrite Z.shiftl_spec by lia.
    rewrite testbit_nibble_high by lia. reflexivity.
  - rewrite Z.mod_pow2_bits_low by lia.
    rewrite !Z.shiftl_spec, Z.lor_spec by lia.
    destruct (Z.ltb_spec b 4).
    + rewrite !Z.testbit_neg_r by lia. reflexivity.
    + assert (Hob : Z.testbit o (b - 4) = false).
      { pose proof (f_equal (fun z => Z.testbit z (b - 4)) Ho) as Hbit.
        cbv beta in Hbit.
        rewrite Z.land_spec, testbit_15, Z.bits_0 in Hbit by lia.
        destruct (Z.ltb_spec (b - 4) 4); [|lia].
        rewrite andb_true_r in Hbit. exact Hbit. }
      rewrite Hob. reflexivity.
  - lia.
Qed.

Lemma nfix_low_nibble (n : Z) :
  Z.land (Z.lor 4294967040 (Z.shiftl n 4)) 15 = 0.
Proof.
  apply Z.bits_inj'. intros b Hb.
  rewrite Z.land_spec, Z.lor_spec, testbit_high_mask, testbit_15,
    Z.shiftl_spec, Z.bits_0 by lia.
  destruct (Z.ltb_spec b 4); [|apply andb_false_r].
  rewrite Z.testbit_neg_r by lia.
  destruct (Z.leb_spec 8 b); [lia|reflexivity].
Qed.

Lemma nfix_final (v : Z) :
  Z.lor (Z.lor 4294967040 (Z.shiftl (Z.land (Z.shiftr v 4) 15) 4))
        (Z.land v 15)
  = Z.lor 4294967040 (Z.land v 255).
Proof.
  apply Z.bits_inj'. intros b Hb.
  rewrite !Z.lor_spec, !Z.land_spec, testbit_high_mask, testbit_15,
    testbit_255, Z.shiftl_spec by lia.
  destruct (Z.leb_spec 8 b); destruct (Z.ltb_spec b 32); cbn [andb orb];
    try reflexivity; try lia.
  - destruct (Z.ltb_spec b 4); [lia|]. destruct (Z.ltb_spec b 8); [lia|].
    rewrite !andb_false_r, orb_false_r.
    rewrite Z.land_spec, testbit_15 by lia.
    destruct (Z.ltb_spec (b - 4) 4); [lia|]. apply andb_false_r.
  - destruct (Z.ltb_spec b 8); [|lia]. rewrite andb_true_r.
    destruct (Z.ltb_spec b 4).
    + rewrite Z.testbit_neg_r by lia. rewrite andb_true_r. reflexivity.
    + rewrite andb_false_r, orb_false_r.
      rewrite Z.land_spec, Z.shiftr_spec, testbit_15 by lia.
      destruct (Z.ltb_spec (b - 4) 4); [|lia].
      rewrite andb_true_r. f_equal. lia.
Qed.

(** For operands from -256 on, the chain decodes to the operand itself. *)
Lemma decodedOperand_exact (v : Z) :
  -256 <= v <= max_int -> decodedOperand v = u32 v.
Proof.
  unfold decodedOperand, max_int. intros Hv.
  destruct (Z.ltb_spec v 0); [|symmetry; apply u32_id; unfold in_u32; lia].
  apply Z.bits_inj'. intros b Hb.
  rewrite Z.lor_spec, Z.land_spec, testbit_high_mask, testbit_255 by lia.
  unfold u32.
  destruct (Z.ltb_spec b 32).
  - rewrite Z.mod_pow2_bits_low by lia.
    destruct (Z.leb_spec 8 b); cbn [andb orb].
    + symmetry. replace v with (Z.lnot (- v - 1)) by (unfold Z.lnot; lia).
      rewrite Z.lnot_spec by lia.
      rewrite <- (Z.mod_small (- v - 1) (2 ^ 8)) by (cbn; lia).
      rewrite Z.mod_pow2_bits_high by lia. reflexivity.
    + destruct (Z.ltb_spec b 8); [|lia]. apply andb_true_r.
  - rewrite Z.mod_pow2_bits_high by lia.
    destruct (Z.leb_spec 8 b); [|lia]. cbn [andb orb].
    destruct (Z.ltb_spec b 8); [lia|]. apply andb_false_r.
Qed.

Lemma imageAt_cons (m : Z -> Z) (start b : Z) (bytes : list Z) :
  imageAt m start (b :: bytes) ->
  byteAt m start = b /\ imageAt m (start + 1) bytes.
Proof.
  intros Him. split.
  - rewrite <- (Him 0%nat b eq_refl). f_equal. lia.
  - intros k b' Hk. rewrite <- (Him (S k) b' Hk). f_equal. lia.
Qed.

Lemma imageAt_app (m : Z -> Z) (start : Z) (l1 l2 : list Z) :
  imageAt m start (l1 ++ l2) ->
  imageAt m start l1 /\ imageAt m (start + Z.of_nat (List.length l1)) l2.
Proof.
  intros Him. split.
  - intros k b Hk. apply Him. apply lookup_app_l_Some. exact Hk.
  - intros k b Hk.
    rewrite <- (Him (List.length l1 + k)%nat b).
    + f_equal. lia.
    + rewrite lookup_app_r by lia.
      replace (List.length l1 + k - List.length l1)%nat with k by lia.
      exact Hk.
Qed.

Lemma word_of_address (a : Z) :
  0 <= a < 4 * MEMORY_SIZE_WORDS -> Z.shiftr a 2 < MEMORY_SIZE_WORDS.
Proof.
  intros Ha. rewrite Z.shiftr_div_pow2 by lia. change (2 ^ 2) with 4.
  apply Z.div_lt_upper_bound; lia.
Qed.

Lemma next_address (a : Z) :
  0 <= a < 4 * MEMORY_SIZE_WORDS -> u32 (a + 1) = a + 1.
Proof.
  unfold MEMORY_SIZE_WORDS. intros Ha. apply u32_id. unfold in_u32. lia.
Qed.

Section PrefixChain.
Context {E : Encoding} {H : HostIO} (ok : EncodingOk E).

(** A step on a prefix byte. *)
Lemma step_prefix (p : Processor) (i : Instr) (n : Z) :
  i = Hex.PFIX \/ i = Hex.NFIX ->
  0 <= n < 16 ->
  0 <= pc p < 4 * MEMORY_SIZE_WORDS ->
  byteAt (memory p) (pc p) = opByte i n ->
  step p
  = Returns (mkProcessor (pc p + 1) (areg p) (breg p)
               (match i with
                | Hex.PFIX => u32 (Z.shiftl (Z.lor (oreg p) n) 4)
                | _ => Z.lor 4294967040 (u32 (Z.shiftl (Z.lor (oreg p) n) 4))
                end)
               (opByte i n) (memory p) (fileIO p) (running p) (tracing p)
               ((cycles p + 1) mod 2 ^ 64) (instrOpc i)).
Proof.
  intros Hi Hn Hpc Hbyte.
  destruct (opByte_parts ok i n Hn) as (_ & Hlow & Hhigh & _).
  unfold step. rewrite fetch_byteAt by (apply word_of_address; exact Hpc).
  cbv zeta. rewrite Hbyte, Hlow, Hhigh, (next_address _ Hpc).
  cbn [obind]. unfold execute. cbn [instrEnum].
  rewrite (toInstr_instrOpc ok).
  destruct Hi as [-> | ->];
    cbn [obind oreg set_oreg pc areg breg instr memory fileIO running
         tracing cycles instrEnum set_cycles];
    reflexivity.
Qed.

(** The bytes [emitPrefixes] writes are prefix bytes with the nibbles of
    the operand, from nibble [i] down to nibble 1. *)
Lemma emitPrefixes_bytes (i : nat) (instr : Instr) (d : Directive) (v : Z) :
  getValue d = Returns v ->
  emitPrefixes i instr d
  = Returns (map (fun k : nat =>
                    opByte instr (Z.land (Z.shiftr v (4 * Z.of_nat k)) 15))
                 (rev (seq 1 i))).
Proof.
  intros Hv. induction i as [|i IH]; cbn [emitPrefixes]; [reflexivity|].
  rewrite Hv, IH. cbn [obind].
  rewrite seq_S, rev_app_distr. cbn [rev app map Nat.add].
  unfold instrToInstrOpc.
  rewrite (toByte_opByte ok) by apply land15_range.
  replace (Z.of_nat (S i) * 4) with (4 * Z.of_nat (S i)) by lia.
  reflexivity.
Qed.

Lemma steps_PFIX (v : Z) (i : nat) :
  0 <= v <= max_int ->
  forall p : Processor,
    imageAt (memory p) (pc p)
      (map (fun k : nat =>
              opByte Hex.PFIX (Z.land (Z.shiftr v (4 * Z.of_nat k)) 15))
           (rev (seq 1 i))) ->
    0 <= pc p -> pc p + Z.of_nat i <= 4 * MEMORY_SIZE_WORDS ->
    oreg p = Z.shiftl (Z.shiftr v (4 * (Z.of_nat i + 1))) 4 ->
    exists p',
      steps i p = Returns p' /\
      pc p' = pc p + Z.of_nat i /\
      oreg p' = Z.shiftl (Z.shiftr v 4) 4 /\
      memory p' = memory p /\ areg p' = areg p /\ breg p' = breg p /\
      running p' = running p /\ fileIO p' = fileIO p.
Proof.
  intros Hv. induction i as [|i IH]; intros p Him Hpc Hend Ho.
  - exists p. cbn [steps]. rewrite Z.add_0_r.
    repeat split; try reflexivity. rewrite Ho. reflexivity.
  - rewrite seq_S, rev_app_distr in Him. cbn [rev app map Nat.add] in Him.
    apply imageAt_cons in Him as [Hbyte Him].
    cbn [steps].
    rewrite (step_prefix p Hex.PFIX _ (or_introl eq_refl)
               (land15_range _) ltac:(lia) Hbyte).
    cbn [obind].
    rewrite Ho.
    rewrite (pfix_accumulates v (Z.of_nat (S i))) by lia.
    rewrite (pfix_in_range v (Z.of_nat (S i)) Hv) by lia.
    match goal with
    | |- exists p', steps i ?q = _ /\ _ => destruct (IH q) as (p' & Hs & Hp)
    end.
    + exact Him.
    + cbn [pc]. lia.
    + cbn [pc]. lia.
    + cbn [oreg]. do 2 f_equal. lia.
    + exists p'. split; [exact Hs|]. cbn [pc oreg memory areg breg running
                                         fileIO] in Hp.
      destruct Hp as (H1 & H2 & H3 & H4 & H5 & H6 & H7).
      repeat split; try assumption. lia.
Qed.

Lemma steps_NFIX (v : Z) (i : nat) :
  forall p : Processor,
    imageAt (memory p) (pc p)
      (map (fun k : nat =>
              opByte Hex.NFIX (Z.land (Z.shiftr v (4 * Z.of_nat k)) 15))
           (rev (seq 1 i))) ->
    0 <= pc p -> pc p + Z.of_nat i <= 4 * MEMORY_SIZE_WORDS ->
    Z.land (oreg p) 15 = 0 ->
    exists p',
      steps i p = Returns p' /\
      pc p' = pc p + Z.of_nat i /\
      oreg p' = match i with
                | O => oreg p
                | S _ => Z.lor 4294967040
                           (Z.shiftl (Z.land (Z.shiftr v 4) 15) 4)
                end /\
      memory p' = memory p /\ areg p' = areg p /\ breg p' = breg p /\
      running p' = running p /\ fileIO p' = fileIO p.
Proof.
  induction i as [|i IH]; intros p Him Hpc Hend Ho.
  - exists p. cbn [steps]. rewrite Z.add_0_r. repeat split; reflexivity.
  - rewrite seq_S, rev_app_distr in Him. cbn [rev app map Nat.add] in Him.
    apply imageAt_cons in Him as [Hbyte Him].
    cbn [steps].
    rewrite (step_prefix p Hex.NFIX _ (or_intror eq_refl)
               (land15_range _) ltac:(lia) Hbyte).
    cbn [obind].
    rewrite (nfix_accumulates _ _ Ho (land15_range _)).
    match goal with
    | |- exists p', steps i ?q = _ /\ _ => destruct (IH q) as (p' & Hs & Hp)
    end.
    + exact Him.
    + cbn [pc]. lia.
    + cbn [pc]. lia.
    + cbn [oreg]. apply nfix_low_nibble.
    + exists p'. split; [exact Hs|]. cbn [pc oreg memory areg breg running
                                         fileIO] in Hp.
      destruct Hp as (H1 & H2 & H3 & H4 & H5 & H6 & H7).
      repeat split; try assumption; [lia|].
      rewrite H2. destruct i; [|reflexivity].
      change (Z.of_nat 1) with 1. rewrite Z.mul_1_r. reflexivity.
Qed.
End PrefixChain.

Lemma shiftr_numNibbles (v : Z) :
  0 <= v <= max_int -> Z.shiftr v (4 * numNibbles v) = 0.
Proof.
  intros Hv.
  assert (Hi : in_int v) by (unfold in_int, min_int, max_int in *; lia).
  pose proof (numNibbles_bounds v Hi) as Hb.
  destruct (numNibbles_spec v Hi) as [[_ Hs]|[Hneg _]]; [|lia].
  destruct Hs as [[-> _]|[Hpos (_ & Hlt & _)]]; [apply Z.shiftr_0_l|].
  rewrite Z.shiftr_div_pow2 by lia.
  rewrite Z.pow_mul_r by lia. change (2 ^ 4) with 16.
  apply Z.div_small. lia.
Qed.

Lemma immSize_negative (v : Z) : v < 0 -> 2 <= immSize v.
Proof.
  intros Hv. unfold immSize. pose proof (numNibbles_pos v).
  destruct (Z.ltb_spec v 0); [|lia]. cbn [andb].
  destruct (Z.eqb_spec (numNibbles v) 1); lia.
Qed.

Lemma immSize_nonneg (v : Z) : 0 <= v -> immSize v = numNibbles v.
Proof.
  intros Hv. unfold immSize. destruct (Z.ltb_spec v 0); [lia|reflexivity].
Qed.

Lemma operand_getValue {E : Encoding} (d : Directive) (v : Z) :
  operand d = Some v -> getValue d = Returns v /\ getSize d = immSize v.
Proof.
  destruct d; cbn; intros Ho; try discriminate Ho; injection Ho as ->;
    split; reflexivity.
Qed.

Section EmittedInstruction.
Context {E : Encoding} {H : HostIO} (ok : EncodingOk E).

(** The bytes of an instruction with an operand: the prefixes for the
    nibbles above the lowest, NFIX for a negative operand and PFIX
    otherwise, and the byte with the opcode and the lowest nibble. *)
Lemma emitDirective_instruction (d : Directive) (v : Z) (i : Instr)
      (byteOffset : Z) :
  operand d = Some v ->
  tokenToInstr (getToken d) = Returns i ->
  let prefixes := Z.to_nat (immSize v - 1) in
  emitDirective d byteOffset
  = Returns
      (map (fun k : nat =>
              opByte (if v <? 0 then Hex.NFIX else Hex.PFIX)
                     (Z.land (Z.shiftr v (4 * Z.of_nat k)) 15))
           (rev (seq 1 prefixes))
       ++ [opByte i (Z.land v 15)],
       wrap32 (byteOffset + Z.of_nat prefixes + 1)).
Proof.
  intros Ho Hi prefixes.
  destruct (operand_getValue d v Ho) as [Hv Hsize].
  unfold emitDirective. rewrite Hsize, Hv.
  assert (Htok : Token_eqb (getToken d) DATA = false).
  { destruct (getToken d); try reflexivity. discriminate Hi. }
  rewrite Htok. pose proof (immSize_pos v) as Hpos.
  destruct (Z.ltb_spec 0 (immSize v)); [|lia].
  unfold tokenToInstrOpc. rewrite Hi. cbn [obind].
  rewrite (nibble_opc ok), (toByte_opByte ok) by apply land15_range.
  destruct (Z.ltb_spec 1 (immSize v)).
  - rewrite (emitPrefixes_bytes ok _ _ d v Hv). cbn [obind].
    rewrite length_map, length_rev, length_seq. reflexivity.
  - assert (Hz : prefixes = 0%nat) by (unfold prefixes; lia).
    cbn [obind]. fold prefixes. rewrite Hz. reflexivity.
Qed.

(** The prefix chain and the last fetch of an emitted instruction. *)
Lemma emitted_instruction_fetched (d : Directive) (v : Z) (i : Instr)
        (byteOffset byteOffset' : Z) (bytes : list Z) (p : Processor) :
  operand d = Some v -> in_int v ->
  tokenToInstr (getToken d) = Returns i ->
  emitDirective d byteOffset = Returns (bytes, byteOffset') ->
  imageAt (memory p) (pc p) bytes ->
  oreg p = 0 -> 0 <= pc p ->
  pc p + Z.of_nat (List.length bytes) <= 4 * MEMORY_SIZE_WORDS ->
  Z.of_nat (List.length bytes) = getSize d /\
  exists p1 p2,
    steps (List.length bytes - 1) p = Returns p1 /\
    fetch p1 = Returns p2 /\
    toInstr (instrEnum p2) = Some i /\
    oreg p2 = decodedOperand v /\
    (-256 <= v -> oreg p2 = u32 v) /\
    (v < -256 -> oreg p2 <> u32 v) /\
    pc p2 = pc p + Z.of_nat (List.length bytes) /\
    memory p2 = memory p /\ areg p2 = areg p /\ breg p2 = breg p.
Proof.
  intros Ho Hv Hi Hemit Him Horeg Hpc Hend.
  destruct (operand_getValue d v Ho) as [_ Hsize].
  rewrite (emitDirective_instruction d v i byteOffset Ho Hi) in Hemit.
  cbv zeta in Hemit. injection Hemit as <- _.
  pose proof (immSize_pos v) as Hpos.
  set (n := Z.to_nat (immSize v - 1)) in *.
  rewrite length_app, length_map, length_rev, length_seq in *.
  cbn [List.length] in *.
  replace (n + 1 - 1)%nat with n by lia.
  split; [rewrite Hsize; unfold n; lia|].
  apply imageAt_app in Him as [Hpre Hlast].
  rewrite length_map, length_rev, length_seq in Hlast.
  apply imageAt_cons in Hlast as [Hlast _].
  destruct (opByte_parts ok i (Z.land v 15) (land15_range v))
    as (_ & Hlow & Hhigh & _).
  assert (Hchain :
    exists p1, steps n p = Returns p1 /\ pc p1 = pc p + Z.of_nat n /\
               Z.lor (oreg p1) (Z.land v 15) = decodedOperand v /\
               memory p1 = memory p /\ areg p1 = areg p /\ breg p1 = breg p).
  { unfold decodedOperand. destruct (Z.ltb_spec v 0) as [Hneg|Hnn].
    - destruct (steps_NFIX ok v n p Hpre Hpc ltac:(lia))
        as (p1 & Hs & Hp1 & Ho1 & Hm & Ha & Hb & _);
        [rewrite Horeg; reflexivity|].
      exists p1. repeat split; try assumption.
      pose proof (immSize_negative v Hneg).
      destruct n as [|n'] eqn:Hn; [unfold n in Hn; lia|].
      rewrite Ho1. apply nfix_final.
    - assert (Hvr : 0 <= v <= max_int)
        by (unfold in_int in Hv; lia).
      destruct (steps_PFIX ok v n Hvr p Hpre Hpc ltac:(lia))
        as (p1 & Hs & Hp1 & Ho1 & Hm & Ha & Hb & _).
      { rewrite Horeg.
        replace (Z.of_nat n + 1) with (numNibbles v)
          by (rewrite <- (immSize_nonneg v Hnn); unfold n; lia).
        rewrite (shiftr_numNibbles v Hvr). reflexivity. }
      exists p1. repeat split; try assumption.
      rewrite Ho1.
      pose proof (pfix_accumulates v 0 ltac:(lia)) as Hacc.
      change (4 * (0 + 1)) with 4 in Hacc. change (4 * 0) with 0 in Hacc.
      rewrite Z.shiftr_0_r in Hacc. exact Hacc. }
  destruct Hchain as (p1 & Hs & Hp1 & Ho1 & Hm & Ha & Hb).
  exists p1. eexists. split; [exact Hs|].
  split.
  { apply fetch_byteAt. apply word_of_address. lia. }
  cbv zeta.
  cbn [instrEnum oreg pc memory areg breg].
  rewrite Hm, Hp1, Hlast, Hlow, Hhigh, Ho1.
  split; [apply (toInstr_instrOpc ok)|].
  split; [reflexivity|].
  split; [intros Hge; apply decodedOperand_exact; unfold in_int in Hv; lia|].
  split.
  { intros Hlt Heq. unfold decodedOperand in Heq.
    destruct (Z.ltb_spec v 0); [|lia].
    assert (Hhi : Z.shiftr (Z.lor 4294967040 (Z.land v 255)) 8
                  = Z.shiftr (u32 v) 8) by (rewrite Heq; reflexivity).
    rewrite Z.shiftr_lor in Hhi.
    change (Z.shiftr 4294967040 8) with 16777215 in Hhi.
    assert (Hz : Z.shiftr (Z.land v 255) 8 = 0).
    { rewrite Z.shiftr_div_pow2 by lia. apply Z.div_small.
      change 255 with (Z.ones 8). rewrite Z.land_ones by lia.
      apply Z.mod_pos_bound. reflexivity. }
    rewrite Hz, Z.lor_0_r in Hhi.
    unfold u32 in Hhi. rewrite Z.shiftr_div_pow2 in Hhi by lia.
    unfold in_int, min_int in Hv.
    assert (Hmod : v mod 2 ^ 32 = v + 2 ^ 32).
    { symmetry. apply Z.mod_unique with (q := -1); lia. }
    rewrite Hmod in Hhi.
    assert (Hdiv : (v + 2 ^ 32) / 2 ^ 8 < 16777215).
    { apply Z.div_lt_upper_bound; lia. }
    lia. }
  split; [rewrite next_address by lia; lia|].
  repeat split; assumption || reflexivity.
Qed.

Lemma steps_app (a b : nat) (p : Processor) :
  steps (a + b) p = (p1 <- steps a p ;; steps b p1).
Proof.
  revert p. induction a as [|a IH]; intros p; cbn [Nat.add steps obind];
    [reflexivity|].
  destruct (step p) as [p1|w|u]; cbn [obind]; [apply IH|reflexivity..].
Qed.

Lemma steps_last (n : nat) (p p1 : Processor) :
  steps n p = Returns p1 -> steps (S n) p = step p1.
Proof.
  intros Hs. replace (S n) with (n + 1)%nat by lia.
  rewrite steps_app, Hs. cbn [obind steps].
  destruct (step p1); reflexivity.
Qed.

(** X9.  The assembler's encoding of an operand, read back by the
    simulator.  Let the bytes that [emitProgramBin] writes for an
    instruction with operand [v] stand in memory at [pc], with [oreg]
    clear.  The steps over the prefix bytes and the fetch of the last byte
    leave the opcode of the instruction decoded, [pc] behind the
    instruction, the registers and the memory as they were, and in [oreg]
    the operand the instruction will execute with.  That operand is [v]
    (as an unsigned word) when [v >= -256]; below that, only the low eight
    bits of [v] arrive, under 24 one bits, because the emitter writes NFIX
    for every prefix of a negative operand and each NFIX sets bits 8 to
    31. *)
Theorem emitted_operand_decoded (d : Directive) (v : Z) (i : Instr)
        (byteOffset byteOffset' : Z) (bytes : list Z) (p : Processor) :
  operand d = Some v -> in_int v ->
  tokenToInstr (getToken d) = Returns i ->
  emitDirective d byteOffset = Returns (bytes, byteOffset') ->
  imageAt (memory p) (pc p) bytes ->
  oreg p = 0 -> 0 <= pc p ->
  pc p + Z.of_nat (List.length bytes) <= 4 * MEMORY_SIZE_WORDS ->
  Z.of_nat (List.length bytes) = getSize d /\
  exists p1 p2,
    steps (List.length bytes - 1) p = Returns p1 /\
    fetch p1 = Returns p2 /\
    toInstr (instrEnum p2) = Some i /\
    oreg p2 = decodedOperand v /\
    (-256 <= v -> oreg p2 = u32 v) /\
    (v < -256 -> oreg p2 <> u32 v) /\
    pc p2 = pc p + Z.of_nat (List.length bytes) /\
    memory p2 = memory p /\ areg p2 = areg p /\ breg p2 = breg p.
Proof. apply emitted_instruction_fetched. Qed.

(** X10.  Emitted instructions do in the simulator what the source says,
    for operands from -256 on: the bytes of [LDAC v] load [v] into [areg],
    and the bytes of [BR] with the operand [v] move [pc] to [v] bytes
    behind the instruction.  Everything else the two leave alone, and
    [oreg] is clear again for the next instruction. *)
Theorem emitted_instruction_executed (d : Directive) (v : Z)
        (byteOffset byteOffset' : Z) (bytes : list Z) (p : Processor) :
  operand d = Some v -> -256 <= v <= max_int ->
  emitDirective d byteOffset = Returns (bytes, byteOffset') ->
  imageAt (memory p) (pc p) bytes ->
  oreg p = 0 -> 0 <= pc p ->
  pc p + Z.of_nat (List.length bytes) <= 4 * MEMORY_SIZE_WORDS ->
  (getToken d = Asm.LDAC ->
   exists p',
     steps (List.length bytes) p = Returns p' /\
     areg p' = u32 v /\ pc p' = pc p + Z.of_nat (List.length bytes) /\
     oreg p' = 0 /\ breg p' = breg p /\ memory p' = memory p) /\
  (getToken d = Asm.BR ->
   exists p',
     steps (List.length bytes) p = Returns p' /\
     pc p' = u32 (pc p + Z.of_nat (List.length bytes) + v) /\
     oreg p' = 0 /\ areg p' = areg p /\ breg p' = breg p /\
     memory p' = memory p).
Proof.
  intros Ho Hv Hemit Him Horeg Hpc Hend.
  assert (Hint : in_int v) by (unfold in_int, min_int, max_int in *; lia).
  assert (Hrun : forall i, tokenToInstr (getToken d) = Returns i ->
            exists p1 p2,
              steps (List.length bytes) p = step p1 /\
              fetch p1 = Returns p2 /\ toInstr (instrEnum p2) = Some i /\
              oreg p2 = u32 v /\
              pc p2 = pc p + Z.of_nat (List.length bytes) /\
              memory p2 = memory p /\ areg p2 = areg p /\ breg p2 = breg p).
  { intros i Hi.
    destruct (emitted_instruction_fetched d v i _ _ _ p Ho Hint Hi Hemit Him
                Horeg Hpc Hend)
      as (Hlen & p1 & p2 & Hs & Hf & Hop & _ & Hex & _ & Hp2 & Hm & Ha & Hb).
    exists p1, p2.
    destruct (operand_getValue d v Ho) as [_ Hsize].
    pose proof (immSize_pos v).
    replace (List.length bytes) with (S (List.length bytes - 1)) at 1 by lia.
    rewrite (steps_last _ _ _ Hs).
    repeat split; try assumption. apply Hex. lia. }
  split; intros Htok; rewrite Htok in Hrun.
  - destruct (Hrun Hex.LDAC eq_refl)
      as (p1 & p2 & Hs & Hf & Hop & Hor & Hp2 & Hm & Ha & Hb).
    eexists. split.
    { rewrite Hs. unfold step. rewrite Hf. cbn [obind].
      unfold execute. rewrite Hop. cbn [obind]. reflexivity. }
    cbn [set_cycles set_oreg set_areg areg pc oreg breg memory].
    repeat split; assumption.
  - destruct (Hrun Hex.BR eq_refl)
      as (p1 & p2 & Hs & Hf & Hop & Hor & Hp2 & Hm & Ha & Hb).
    eexists. split.
    { rewrite Hs. unfold step. rewrite Hf. cbn [obind].
      unfold execute. rewrite Hop. cbn [obind]. reflexivity. }
    cbn [set_cycles set_oreg set_pc areg pc oreg breg memory].
    repeat split; try assumption.
    rewrite Hor, Hp2. unfold u32. apply Z.add_mod_idemp_r. lia.
Qed.
End EmittedInstruction.

Lemma emitted_operand_decoded_witness :
  exists p1 p2,
    @steps specEncoding logHost 2 (imageProcessor [209; 210; 44])
    = Returns p1 /\
    @fetch logHost p1 = Returns p2 /\
    @toInstr specEncoding (instrEnum p2) = Some Hex.LDAC /\
    oreg p2 = 300.
Proof.
  destruct (@emitted_operand_decoded specEncoding logHost specEncoding_ok
              (InstrImm Asm.LDAC 300) 300 Hex.LDAC 0 3 [209; 210; 44]
              (imageProcessor [209; 210; 44]))
    as (_ & p1 & p2 & Hs & Hf & Hop & Hor & _).
  - reflexivity.
  - unfold in_int, min_int, max_int. lia.
  - reflexivity.
  - vm_compute. reflexivity.
  - intros [|[|[|k]]] b Hk; cbn in Hk; try discriminate Hk;
      injection Hk as <-; vm_compute; reflexivity.
  - reflexivity.
  - cbn. lia.
  - vm_compute. discriminate.
  - exists p1, p2. repeat split; assumption.
Defined.

Lemma emitted_instruction_executed_witness :
  exists p',
    @steps specEncoding logHost 2 (imageProcessor [207; 142]) = Returns p' /\
    pc p' = u32 (0 + 2 + -2) /\ oreg p' = 0.
Proof.
  destruct (@emitted_instruction_executed specEncoding logHost
              specEncoding_ok (InstrLabel Asm.BR "loop" (-2)) (-2) 0 2
              [207; 142] (imageProcessor [207; 142]))
    as [_ Hbr].
  - reflexivity.
  - unfold max_int. lia.
  - vm_compute. reflexivity.
  - intros [|[|k]] b Hk; cbn in Hk; try discriminate Hk;
      injection Hk as <-; vm_compute; reflexivity.
  - reflexivity.
  - cbn. lia.
  - vm_compute. discriminate.
  - destruct (Hbr eq_refl) as (p' & Hs & Hpc & Ho & _).
    exists p'. repeat split; assumption.
Defined.

(** ** From the output file to the simulator's memory *)

Lemma toByte_range (z : Z) : 0 <= toByte z < 256.
Proof. unfold toByte. apply Z.mod_pos_bound. reflexivity. Qed.

Lemma land255_range (z : Z) : 0 <= Z.land z 255 < 256.
Proof.
  change 255 with (Z.ones 8). rewrite Z.land_ones by lia.
  apply Z.mod_pos_bound. reflexivity.
Qed.

Section EmittedBytes.
Context {E : Encoding}.

Lemma emitPrefixes_range (i : nat) (instr : Instr) (d : Directive) :
  forall l, emitPrefixes i instr d = Returns l ->
            Forall (fun byte => 0 <= byte < 256) l.
Proof.
  induction i as [|i IH]; intros l Hl; cbn [emitPrefixes] in Hl.
  - injection Hl as <-. constructor.
  - destruct (getValue d) as [v|w|u]; cbn [obind] in Hl; try discriminate.
    destruct (emitPrefixes i instr d) as [rest|w|u]; cbn [obind] in Hl;
      try discriminate.
    injection Hl as <-. constructor; [apply toByte_range|].
    apply IH. reflexivity.
Qed.

Lemma emitDirective_range (d : Directive) (byteOffset : Z) bytes byteOffset' :
  emitDirective d byteOffset = Returns (bytes, byteOffset') ->
  Forall (fun byte => 0 <= byte < 256) bytes.
Proof.
  unfold emitDirective. intros Hr.
  destruct (Token_eqb (getToken d) DATA).
  - destruct d as [v| | | | | | ]; try discriminate Hr.
    injection Hr as <- _. apply Forall_app. split.
    + apply Forall_forall. intros x Hx. apply list_elem_of_In in Hx.
      apply repeat_spec in Hx. lia.
    + change (Forall (fun byte => 0 <= byte < 256) (intBytes v)).
      unfold intBytes. repeat constructor; apply land255_range.
  - destruct (0 <? getSize d); [|injection Hr as <- _; constructor].
    destruct (1 <? getSize d).
    + destruct (getValue d) as [v|w|u]; cbn [obind] in Hr; try discriminate.
      destruct (emitPrefixes _ _ d) as [pre|w|u] eqn:Hp; cbn [obind] in Hr;
        try discriminate.
      destruct (tokenToInstrOpc (getToken d)) as [opc|w|u];
        cbn [obind] in Hr; try discriminate.
      injection Hr as <- _. apply Forall_app. split.
      * eapply emitPrefixes_range. exact Hp.
      * repeat constructor; apply toByte_range.
    + cbn [obind] in Hr.
      destruct (tokenToInstrOpc (getToken d)) as [opc|w|u];
        cbn [obind] in Hr; try discriminate.
      destruct (getValue d) as [v|w|u]; cbn [obind] in Hr; try discriminate.
      injection Hr as <- _. repeat constructor; apply toByte_range.
Qed.

Lemma emitProgramBin_from_range (program : list Directive) :
  forall written byteOffset bytes byteOffset',
    Forall (fun byte => 0 <= byte < 256) written ->
    emitProgramBin_from program written byteOffset
    = Returns (bytes, byteOffset') ->
    Forall (fun byte => 0 <= byte < 256) bytes.
Proof.
  induction program as [|d program IH];
    intros written byteOffset bytes byteOffset' Hw Hr;
    cbn [emitProgramBin_from] in Hr.
  - injection Hr as <- _. exact Hw.
  - destruct (emitDirective d byteOffset) as [[bs o1]|w|u] eqn:Hd;
      cbn [obind fst snd] in Hr; try discriminate.
    eapply IH; [|exact Hr]. apply Forall_app. split; [exact Hw|].
    eapply emitDirective_range. exact Hd.
Qed.

(** The file is the bytes of the directives, one after the other. *)
Lemma emitProgramBin_split (program : list Directive) (k : nat)
      (d : Directive) file byteOffset :
  emitProgramBin program = Returns (file, byteOffset) ->
  program !! k = Some d ->
  exists before at_ bytes next after,
    emitProgramBin (take k program) = Returns (before, at_) /\
    emitDirective d at_ = Returns (bytes, next) /\
    file = before ++ bytes ++ after.
Proof.
  unfold emitProgramBin. intros Hr Hk.
  rewrite <- (take_drop_middle program k d Hk) in Hr.
  rewrite emitProgramBin_from_app in Hr.
  destruct (emitProgramBin_from (take k program) [] 0)
    as [[before at_]|w|u] eqn:Hb; cbn [obind fst snd] in Hr;
    try discriminate.
  cbn [emitProgramBin_from] in Hr.
  destruct (emitDirective d at_) as [[bytes next]|w|u] eqn:Hd;
    cbn [obind fst snd] in Hr; try discriminate.
  assert (Hat : in_int at_).
  { destruct (emitProgramBin_offset _ _ _ Hb) as [_ ->]. apply wrap32_in_int. }
  assert (Hnext : in_int next).
  { destruct (emitDirective_offset _ _ _ _ Hd Hat) as [_ ->].
    apply wrap32_in_int. }
  destruct (emitProgramBin_from_spec _ _ _ _ _ Hr Hnext)
    as (_ & after & Hfile & _).
  exists before, at_, bytes, next, after.
  split; [reflexivity|]. split; [exact Hd|].
  rewrite Hfile, app_assoc. reflexivity.
Qed.
End EmittedBytes.

Lemma load_image {H : HostIO} (file : list Z) (p p0 : Processor) :
  load file p = Returns p0 ->
  Forall (fun byte => 0 <= byte < 256) file ->
  imageAt (memory p0) 0 file.
Proof.
  unfold load. intros Hl Hall.
  destruct (Z.of_nat (List.length file) <=? 4 * MEMORY_SIZE_WORDS);
    [|discriminate].
  injection Hl as <-. intros k b Hk. cbn [memory set_memory].
  apply byteAt_storeBytes; assumption.
Qed.

(** X11.  The assembler's output file in the simulator's memory: when the
    file that [emitProgramBin] wrote is loaded, every byte of it is the
    byte that [run] extracts at the byte address equal to its position in
    the file; so the bytes of each directive stand at the address equal to
    the number of bytes written for the directives in front of it. *)
Theorem assembled_file_in_memory (E : Encoding) (H : HostIO)
        (program : list Directive) (file : list Z) (byteOffset : Z)
        (storage p0 : Processor) :
  emitProgramBin program = Returns (file, byteOffset) ->
  load file (newProcessor storage) = Returns p0 ->
  imageAt (memory p0) 0 file /\
  forall k d,
    program !! k = Some d ->
    exists before at_ bytes next,
      emitProgramBin (take k program) = Returns (before, at_) /\
      emitDirective d at_ = Returns (bytes, next) /\
      imageAt (memory p0) (Z.of_nat (List.length before)) bytes.
Proof.
  intros Hemit Hload.
  assert (Hall : Forall (fun byte => 0 <= byte < 256) file).
  { eapply emitProgramBin_from_range; [constructor|exact Hemit]. }
  pose proof (load_image _ _ _ Hload Hall) as Him.
  split; [exact Him|].
  intros k d Hk.
  destruct (emitProgramBin_split program k d file byteOffset Hemit Hk)
    as (before & at_ & bytes & next & after & Hb & Hd & Hfile).
  exists before, at_, bytes, next.
  split; [exact Hb|]. split; [exact Hd|].
  rewrite Hfile in Him.
  apply imageAt_app in Him as [_ Him]. apply imageAt_app in Him as [Him _].
  rewrite Z.add_0_l in Him. exact Him.
Qed.

Lemma assembled_file_in_memory_witness :
  exists p0 : @Processor logHost,
    load [209; 210; 44] (newProcessor (imageProcessor [])) = Returns p0 /\
    imageAt (memory p0) 0 [209; 210; 44].
Proof.
  eexists. split; [reflexivity|].
  refine (proj1 (assembled_file_in_memory specEncoding logHost
                   [InstrImm Asm.LDAC 300] [209; 210; 44] 3
                   (imageProcessor []) _ _ eq_refl)).
  vm_compute. reflexivity.
Defined.

(** ** Data words *)

Lemma testbit_u32_high (x k : Z) :
  in_u32 x -> 32 <= k -> Z.testbit x k = false.
Proof.
  unfold in_u32. intros Hx Hk. rewrite <- (Z.mod_small x (2 ^ 32)) by lia.
  apply Z.mod_pow2_bits_high. lia.
Qed.

Lemma in_u32_bits (x : Z) :
  0 <= x -> (forall k, 32 <= k -> Z.testbit x k = false) -> in_u32 x.
Proof.
  intros Hx Hbits. unfold in_u32. split; [exact Hx|].
  assert (Heq : x = x mod 2 ^ 32).
  { apply Z.bits_inj'. intros k Hk. destruct (Z.ltb_spec k 32).
    - rewrite Z.mod_pow2_bits_low by lia. reflexivity.
    - rewrite Z.mod_pow2_bits_high by lia. apply Hbits. lia. }
  rewrite Heq. apply Z.mod_pos_bound. lia.
Qed.

Lemma storeByte_in_u32 (m : Z -> Z) (b byte i : Z) :
  in_u32 (m i) -> 0 <= byte < 256 -> in_u32 (storeByte m b byte i).
Proof.
  intros Hm Hb. unfold storeByte.
  destruct (i =? Z.shiftr b 2); [|exact Hm].
  destruct (lane_shift b) as (l & Hl & _ & ->).
  apply in_u32_bits.
  - apply Z.lor_nonneg. split.
    + apply Z.land_nonneg. left. apply Hm.
    + apply Z.shiftl_nonneg. lia.
  - intros k Hk.
    rewrite Z.lor_spec, Z.land_spec, Z.shiftl_spec by lia.
    rewrite (testbit_u32_high _ _ Hm Hk).
    rewrite (testbit_byte_high byte) by lia. reflexivity.
Qed.

Lemma storeBytes_in_u32 (bytes : list Z) :
  forall (m : Z -> Z) start i,
    in_u32 (m i) -> Forall (fun byte => 0 <= byte < 256) bytes ->
    in_u32 (storeBytes m start bytes i).
Proof.
  induction bytes as [|byte bytes IH]; intros m start i Hm Hall;
    cbn [storeBytes]; [exact Hm|].
  inversion Hall; subst. apply IH; [|assumption].
  apply storeByte_in_u32; assumption.
Qed.

(** The byte in lane [l] of word [w]. *)
Lemma byteAt_lane (m : Z -> Z) (w l : Z) :
  0 <= l < 4 ->
  byteAt m (4 * w + l) = Z.land (Z.shiftr (m w) (8 * l)) 255.
Proof.
  intros Hl. unfold byteAt.
  assert (Hw : Z.shiftr (4 * w + l) 2 = w).
  { rewrite Z.shiftr_div_pow2 by lia. change (2 ^ 2) with 4.
    symmetry. apply Z.div_unique with (r := l); lia. }
  assert (Hlane : Z.land (4 * w + l) 3 = l).
  { rewrite land3_mod4. symmetry. apply Z.mod_unique with (q := w); lia. }
  rewrite Hw, Hlane, Z.shiftl_mul_pow2 by lia. change (2 ^ 3) with 8.
  do 2 f_equal. lia.
Qed.

(** A 32-bit word is the value whose four bytes it holds. *)
Lemma word_from_bytes (x v : Z) :
  in_u32 x ->
  (forall l, 0 <= l < 4 ->
             Z.land (Z.shiftr x (8 * l)) 255 = Z.land (Z.shiftr v (8 * l)) 255) ->
  x = u32 v.
Proof.
  intros Hx Hbytes. apply Z.bits_inj'. intros k Hk. unfold u32.
  destruct (Z.ltb_spec k 32).
  - rewrite Z.mod_pow2_bits_low by lia.
    assert (Hl : 0 <= k / 8 < 4).
    { split; [apply Z.div_pos; lia|apply Z.div_lt_upper_bound; lia]. }
    pose proof (Z.div_mod k 8 ltac:(lia)) as Hdm.
    pose proof (Z.mod_pos_bound k 8 ltac:(lia)) as Hr.
    pose proof (f_equal (fun z => Z.testbit z (k mod 8)) (Hbytes (k / 8) Hl))
      as Hbit.
    cbv beta in Hbit.
    rewrite !Z.land_spec, !Z.shiftr_spec, testbit_255 in Hbit by lia.
    destruct (Z.ltb_spec (k mod 8) 8); [|lia].
    rewrite !andb_true_r in Hbit.
    replace (k mod 8 + 8 * (k / 8)) with k in Hbit by lia. exact Hbit.
  - rewrite Z.mod_pow2_bits_high by lia. apply testbit_u32_high; assumption.
Qed.

(** X12.  A data word from the source to the simulator's memory: the value
    of a [DATA] directive is what the memory word holds at the word address
    of the directive, that is a quarter of the number of bytes written in
    front of it with the padding, once the assembler's output file is
    loaded (the memory words being 32-bit words before the load). *)
Theorem data_word_in_memory (E : Encoding) (H : HostIO)
        (program : list Directive) (file : list Z) (byteOffset : Z)
        (storage p0 : Processor) (k : nat) (v : Z) (before : list Z)
        (at_ : Z) :
  emitProgramBin program = Returns (file, byteOffset) ->
  load file (newProcessor storage) = Returns p0 ->
  program !! k = Some (Data v) ->
  emitProgramBin (take k program) = Returns (before, at_) ->
  let address := Z.of_nat (List.length before) + paddingBefore at_ in
  in_u32 (memory storage (address / 4)) ->
  address mod 4 = 0 /\ memory p0 (address / 4) = u32 v.
Proof.
  intros Hemit Hload Hk Hbefore address Hword.
  assert (Hall : Forall (fun byte => 0 <= byte < 256) file).
  { eapply emitProgramBin_from_range; [constructor|exact Hemit]. }
  pose proof (load_image _ _ _ Hload Hall) as Him.
  destruct (emitProgramBin_split program k _ file byteOffset Hemit Hk)
    as (before' & at' & bytes & next & after & Hb & Hd & Hfile).
  rewrite Hbefore in Hb. injection Hb as <- <-.
  rewrite emitDirective_Data in Hd. injection Hd as <- _.
  pose proof (paddingBefore_range at_) as Hpad.
  destruct (emitProgramBin_offset _ _ _ Hbefore) as [_ Hat].
  assert (Haligned : address mod 4 = 0).
  { unfold address. pose proof (paddingBefore_aligns at_) as Ha.
    pose proof (wrap32_mod4 (Z.of_nat (List.length before))) as Hm.
    rewrite <- Hat in Hm.
    rewrite Z.add_mod by lia. rewrite <- Hm.
    rewrite <- Z.add_mod by lia. exact Ha. }
  split; [exact Haligned|].
  rewrite Hfile in Him.
  apply imageAt_app in Him as [_ Him]. apply imageAt_app in Him as [Him _].
  apply imageAt_app in Him as [_ Him].
  rewrite repeat_length, Z.add_0_l, Z2Nat.id in Him by lia.
  fold address in Him.
  assert (Haddr : address = 4 * (address / 4)).
  { pose proof (Z.div_mod address 4 ltac:(lia)). lia. }
  apply word_from_bytes.
  - unfold load in Hload.
    destruct (Z.of_nat (List.length file) <=? 4 * MEMORY_SIZE_WORDS);
      [|discriminate].
    injection Hload as <-. cbn [memory set_memory newProcessor].
    apply storeBytes_in_u32; [exact Hword|exact Hall].
  - intros l Hl. rewrite <- byteAt_lane by exact Hl. rewrite <- Haddr.
    assert (Hcase : l = 0 \/ l = 1 \/ l = 2 \/ l = 3) by lia.
    destruct Hcase as [-> | [-> | [-> | ->]]].
    + exact (Him 0%nat _ eq_refl).
    + exact (Him 1%nat _ eq_refl).
    + exact (Him 2%nat _ eq_refl).
    + exact (Him 3%nat _ eq_refl).
Qed.

Lemma data_word_in_memory_witness :
  exists file (p0 : @Processor logHost),
    @emitProgramBin specEncoding exitProgram = Returns (file, 13) /\
    load file (newProcessor (imageProcessor [])) = Returns p0 /\
    memory p0 1 = u32 16383.
Proof.
  assert (Hfile : @emitProgramBin specEncoding exitProgram
                  = Returns ([135; 0; 0; 0; 255; 63; 0; 0; 32; 17; 114; 32;
                              241], 13))
    by (vm_compute; reflexivity).
  eexists _, _. split; [exact Hfile|]. split; [reflexivity|].
  refine (proj2 (data_word_in_memory specEncoding logHost exitProgram _ 13
                   (imageProcessor []) _ 1 16383 [135] 1 Hfile eq_refl
                   eq_refl _ _)).
  - vm_compute. reflexivity.
  - vm_compute. split; discriminate || reflexivity.
Defined.

(** ** The simulator's loop *)

Section SimulatorLoop.
Context {E : Encoding} {H : HostIO}.

Lemma readMemory_returns (p : Processor) (index v : Z) :
  readMemory p index = Returns v ->
  index < MEMORY_SIZE_WORDS /\ v = memory p index.
Proof.
  unfold readMemory. destruct (Z.ltb_spec index MEMORY_SIZE_WORDS);
    [|discriminate].
  intros Hr. injection Hr as <-. split; [assumption|reflexivity].
Qed.

Lemma writeMemory_returns (p p' : Processor) (index v : Z) :
  writeMemory p index v = Returns p' ->
  index < MEMORY_SIZE_WORDS /\
  p' = set_memory (fun i => if i =? index then v else memory p i) p.
Proof.
  unfold writeMemory. destruct (Z.ltb_spec index MEMORY_SIZE_WORDS);
    [|discriminate].
  intros Hr. injection Hr as <-. split; [assumption|reflexivity].
Qed.

Lemma fetch_returns (p p1 : Processor) :
  fetch p = Returns p1 ->
  Z.shiftr (pc p) 2 < MEMORY_SIZE_WORDS /\
  p1 = mkProcessor (u32 (pc p + 1)) (areg p) (breg p)
         (Z.lor (oreg p) (Z.land (byteAt (memory p) (pc p)) 15))
         (byteAt (memory p) (pc p)) (memory p) (fileIO p) (running p)
         (tracing p) (cycles p)
         (Z.land (Z.shiftr (byteAt (memory p) (pc p)) 4) 15).
Proof.
  unfold fetch. intros Hf.
  destruct (readMemory p (Z.shiftr (pc p) 2)) as [w| |] eqn:Hr;
    cbn [obind] in Hf; try discriminate.
  apply readMemory_returns in Hr as [Hlt ->].
  injection Hf as <-. split; [exact Hlt|reflexivity].
Qed.

(** What the system call leaves: only EXIT clears [running], only READ
    writes memory. *)
Lemma syscall_returns (p p' : Processor) :
  syscall p = Returns p' ->
  pc p' = pc p /\ areg p' = areg p /\ breg p' = breg p /\ oreg p' = oreg p /\
  (running p' = running p \/
   (toSyscall (areg p) = Some Hex.EXIT /\ running p' = false)) /\
  ((forall j, memory p' j = memory p j) \/
   (toSyscall (areg p) = Some Hex.READ /\
    exists index value,
      index < MEMORY_SIZE_WORDS /\
      index = u32 (Z.shiftr (memory p 1) 2 + 1) /\
      value = u32 (fst (input (fileIO p)
                          (memory p (u32 (Z.shiftr (memory p 1) 2 + 2))))) /\
      forall j, memory p' j = if j =? index then value else memory p j)).
Proof.
  unfold syscall. intros Hs.
  destruct (readMemory p 1) as [w1| |] eqn:H1; cbn [obind] in Hs;
    try discriminate.
  apply readMemory_returns in H1 as [_ ->].
  destruct (toSyscall (areg p)) as [[ | | ]|] eqn:Hsys; try discriminate.
  - injection Hs as <-. cbn. repeat split; try reflexivity.
    + right. split; reflexivity.
    + left. reflexivity.
  - destruct (readMemory p _) as [v| |]; cbn [obind] in Hs; try discriminate.
    destruct (readMemory p _) as [s| |]; cbn [obind] in Hs; try discriminate.
    injection Hs as <-. cbn. repeat split; try reflexivity.
    + left. reflexivity.
    + left. reflexivity.
  - destruct (readMemory p _) as [s| |] eqn:Hrs; cbn [obind] in Hs;
      try discriminate.
    apply readMemory_returns in Hrs as [_ ->].
    apply writeMemory_returns in Hs as [Hlt ->]. cbn.
    repeat split; try reflexivity.
    + left. reflexivity.
    + right. split; [reflexivity|].
      eexists _, _. split; [exact Hlt|].
      split; [reflexivity|]. split; [reflexivity|]. reflexivity.
Qed.

Lemma execute_running (p1 p2 : Processor) :
  execute p1 = Returns p2 ->
  running p2 = running p1 \/ (atExit p1 /\ running p2 = false).
Proof.
  unfold execute, executeOpr, atExit. intros Hx.
  destruct (toInstr (instrEnum p1)) as [[ | | | | | | | | | | | | | | ]|];
    try discriminate Hx;
    repeat match type of Hx with
      | context [readMemory ?q ?i] =>
          destruct (readMemory q i); cbn [obind] in Hx; try discriminate Hx
      | context [writeMemory ?q ?i ?v] =>
          let Hw := fresh "Hw" in
          destruct (writeMemory q i v) eqn:Hw; cbn [obind] in Hx;
          try discriminate Hx;
          apply writeMemory_returns in Hw as [_ ->]
      end;
    try (injection Hx as <-; left; reflexivity).
  - injection Hx as <-. left. destruct (areg p1 =? 0); reflexivity.
  - injection Hx as <-. left. destruct (signed (areg p1) <? 0); reflexivity.
  - destruct (toOprInstr (oreg p1)) as [[ | | | ]|]; try discriminate Hx;
      cbn [obind] in Hx; try (injection Hx as <-; left; reflexivity).
    destruct (syscall p1) as [p'| |] eqn:Hs; cbn [obind] in Hx;
      try discriminate Hx.
    injection Hx as <-.
    destruct (syscall_returns _ _ Hs) as (_ & _ & _ & _ & Hrun & _).
    cbn [running set_oreg].
    destruct Hrun as [Hrun|[Hexit Hrun]]; [left; exact Hrun|].
    right. repeat split; assumption || reflexivity.
Qed.

Lemma step_running (p p' : Processor) :
  step p = Returns p' ->
  exists p1, fetch p = Returns p1 /\
             (running p' = running p \/ (atExit p1 /\ running p' = false)).
Proof.
  unfold step. intros Hs.
  destruct (fetch p) as [p1| |] eqn:Hf; cbn [obind] in Hs; try discriminate.
  destruct (execute p1) as [p2| |] eqn:Hx; cbn [obind] in Hs;
    try discriminate.
  injection Hs as <-. exists p1. split; [reflexivity|].
  apply fetch_returns in Hf as [_ Hp1].
  destruct (execute_running _ _ Hx) as [Hr|Hr]; cbn [running set_cycles].
  - left. rewrite Hr, Hp1. reflexivity.
  - right. exact Hr.
Qed.

(** X13.  The simulator stops by the system call EXIT and by nothing else:
    when [run] returns, [running] is clear, and if it was set at the start,
    the last iteration of the loop fetched OPR with the operand SVC while
    [areg] selected EXIT.  (Every other way out of the loop is an
    exception or undefined behaviour.) *)
Theorem run_returns_after_EXIT (fuel : nat) (p p' : Processor) :
  run fuel p = Some (Returns p') ->
  running p' = false /\
  (running p = false -> p' = p) /\
  (running p = true ->
   exists q q1,
     running q = true /\ fetch q = Returns q1 /\ atExit q1 /\
     step q = Returns p').
Proof.
  revert p. induction fuel as [|fuel IH]; intros p Hr; cbn [run] in Hr;
    [discriminate|].
  destruct (running p) eqn:Hrun.
  - destruct (step p) as [p1| |] eqn:Hs; try discriminate Hr.
    destruct (IH p1 Hr) as (Hfalse & Hsame & Hlast).
    split; [exact Hfalse|]. split; [discriminate|]. intros _.
    destruct (running p1) eqn:Hrun1.
    + apply Hlast. reflexivity.
    + rewrite (Hsame eq_refl).
      destruct (step_running _ _ Hs) as (q1 & Hf & [Hkeep|[Hexit _]]).
      * congruence.
      * exists p, q1. split; [exact Hrun|]. split; [exact Hf|].
        split; [exact Hexit|exact Hs].
  - injection Hr as <-. split; [exact Hrun|]. split; [reflexivity|].
    discriminate.
Qed.
Lemma execute_memory (p1 p2 : Processor) :
  execute p1 = Returns p2 ->
  match memoryWrite p1 with
  | Some (index, value) =>
      index < MEMORY_SIZE_WORDS /\
      forall j, memory p2 j = if j =? index then value else memory p1 j
  | None => forall j, memory p2 j = memory p1 j
  end.
Proof.
  unfold execute, executeOpr, memoryWrite. intros Hx.
  destruct (toInstr (instrEnum p1)) as [[ | | | | | | | | | | | | | | ]|];
    try discriminate Hx;
    repeat match type of Hx with
      | context [readMemory ?q ?i] =>
          destruct (readMemory q i); cbn [obind] in Hx; try discriminate Hx
      end;
    try (injection Hx as <-; intros j; reflexivity).
  - destruct (writeMemory p1 _ _) as [q| |] eqn:Hw; cbn [obind] in Hx;
      try discriminate Hx.
    apply writeMemory_returns in Hw as [Hlt ->]. injection Hx as <-.
    split; [exact Hlt|]. intros j. reflexivity.
  - destruct (writeMemory p1 _ _) as [q| |] eqn:Hw; cbn [obind] in Hx;
      try discriminate Hx.
    apply writeMemory_returns in Hw as [Hlt ->]. injection Hx as <-.
    split; [exact Hlt|]. intros j. reflexivity.
  - injection Hx as <-. intros j. destruct (areg p1 =? 0); reflexivity.
  - injection Hx as <-. intros j.
    destruct (signed (areg p1) <? 0); reflexivity.
  - destruct (toOprInstr (oreg p1)) as [[ | | | ]|]; try discriminate Hx;
      cbn [obind] in Hx; try (injection Hx as <-; intros j; reflexivity).
    destruct (syscall p1) as [p'| |] eqn:Hs; cbn [obind] in Hx;
      try discriminate Hx.
    injection Hx as <-. cbn [memory set_oreg].
    destruct (syscall_returns _ _ Hs)
      as (_ & _ & _ & _ & _ & [Hsame|(Hread & index & value & Hlt & -> & ->
                                      & Hupd)]).
    + destruct (toSyscall (areg p1)) as [[ | | ]|] eqn:Hsys;
        try exact Hsame.
      unfold syscall in Hs.
      destruct (readMemory p1 1) as [w1| |] eqn:H1; cbn [obind] in Hs;
        try discriminate.
      apply readMemory_returns in H1 as [_ ->]. rewrite Hsys in Hs.
      destruct (readMemory p1 _) as [s0| |] eqn:Hrs; cbn [obind] in Hs;
        try discriminate.
      apply readMemory_returns in Hrs as [_ ->].
      apply writeMemory_returns in Hs as [Hlt ->].
      split; [exact Hlt|]. intros j. reflexivity.
    + rewrite Hread. split; [exact Hlt|exact Hupd].
Qed.

(** X14.  A step of the simulator writes at most one memory word, and only
    for STAM, STAI and the system call READ: for these the word at the
    index the instruction addresses receives the value, [areg] or the value
    read; every other word, and for every other instruction the whole
    memory, is as before the step. *)
Theorem step_writes_one_word (p p' : Processor) :
  step p = Returns p' ->
  exists p1,
    fetch p = Returns p1 /\
    match memoryWrite p1 with
    | Some (index, value) =>
        index < MEMORY_SIZE_WORDS /\
        forall j, memory p' j = if j =? index then value else memory p j
    | None => forall j, memory p' j = memory p j
    end.
Proof.
  unfold step. intros Hs.
  destruct (fetch p) as [p1| |] eqn:Hf; cbn [obind] in Hs; try discriminate.
  destruct (execute p1) as [p2| |] eqn:Hx; cbn [obind] in Hs;
    try discriminate.
  injection Hs as <-. exists p1. split; [reflexivity|].
  pose proof (execute_memory _ _ Hx) as Hm.
  assert (Hmem : memory p1 = memory p).
  { apply fetch_returns in Hf as [_ ->]. reflexivity. }
  cbn [memory set_cycles]. rewrite Hmem in Hm. exact Hm.
Qed.
End SimulatorLoop.

Lemma run_returns_after_EXIT_witness :
  exists p',
    @run specEncoding logHost 2 atExitCall = Some (Returns p') /\
    running p' = false.
Proof.
  eexists. split; [reflexivity|].
  exact (proj1 (@run_returns_after_EXIT specEncoding logHost 2 atExitCall _
                  eq_refl)).
Defined.

Lemma step_writes_one_word_witness :
  exists p',
    @step specEncoding logHost atStore = Returns p' /\
    forall j, memory p' j = if j =? 0 then 5 else memory atStore j.
Proof.
  eexists. split; [reflexivity|].
  destruct (@step_writes_one_word specEncoding logHost atStore _ eq_refl)
    as (p1 & Hf & Hm).
  injection Hf as <-. exact (proj2 Hm).
Defined.

(** ** Keywords and literals *)

(** X15.  The keyword table and the printed token names agree: a name is
    looked up as a token other than IDENTIFIER exactly when it is the
    printed name of one of the twenty keyword tokens, and then it is looked
    up as that token. *)
Theorem keywords_are_token_names (name : string) (t : Token) :
  (lookup name = t /\ t <> IDENTIFIER) <->
  (tokenEnumStr t = name /\ In t (map snd keywords)).
Proof.
  split.
  - intros [Hl Hne]. unfold lookup, keywords in Hl. cbn [List.find fst snd] in Hl.
    repeat match type of Hl with
      | context [String.eqb ?kw name] =>
          destruct (String.eqb_spec kw name) as [<-|_];
          [subst t; split; [reflexivity|cbn; tauto]|]
      end.
    congruence.
  - intros [Hn Hin]. subst name. cbn in Hin.
    repeat (destruct Hin as [<-|Hin]; [split; [reflexivity|discriminate]|]).
    contradiction.
Qed.

Lemma wrap32_u32 (z : Z) : wrap32 (u32 z) = wrap32 z.
Proof. unfold wrap32, u32. rewrite Zplus_mod_idemp_l. reflexivity. Qed.

Lemma u32_opp_u32 (z : Z) : u32 (- u32 z) = u32 (- z).
Proof.
  unfold u32. change (- (z mod 2 ^ 32)) with (0 - z mod 2 ^ 32).
  rewrite Zminus_mod_idemp_r. reflexivity.
Qed.

(** X16.  Integer literals.  Where the parser expects a signed integer, a
    number [n] gives the value [n] when it fits an [int], and a minus sign
    followed by a number [n] gives [-n] when [n <= 2^31]; in general the
    number saturates at [2^64 - 1] and the result is taken modulo [2^32]
    into the range of [int], without any diagnostic. *)
Theorem integer_literals (lexer : Lexer) (n : Z) (rest : list Lexeme) :
  0 <= n ->
  let literal := Z.min n (2 ^ 64 - 1) in
  (tokens lexer = Number n :: rest ->
   exists lexer',
     parseInteger (snd (getNextToken lexer))
     = Returns (wrap32 literal, lexer') /\
     tokens lexer' = rest /\
     (n <= max_int -> wrap32 literal = n)) /\
  (tokens lexer = Minus :: Number n :: rest ->
   exists lexer',
     parseInteger (snd (getNextToken lexer))
     = Returns (wrap32 (- literal), lexer') /\
     tokens lexer' = rest /\
     (n <= 2 ^ 31 -> wrap32 (- literal) = - n)).
Proof.
  intros Hn literal. split; intros Htok.
  - unfold getNextToken. rewrite Htok. cbn [snd].
    unfold parseInteger, expectLast, getLastToken, getNumber.
    cbn [lastToken value Token_eqb obind].
    eexists. split; [|split].
    + unfold numberValue. rewrite wrap32_u32. reflexivity.
    + reflexivity.
    + intros Hmax. unfold max_int in Hmax. unfold literal.
      rewrite Z.min_l by lia. apply wrap32_id.
      unfold in_int, min_int, max_int. lia.
  - unfold getNextToken at 1. rewrite Htok. cbn [snd].
    unfold parseInteger, expectNext, expectLast, getLastToken, getNumber.
    cbn [lastToken Token_eqb]. unfold getNextToken.
    cbn [tokens snd lastToken value Token_eqb obind].
    eexists. split; [|split].
    + unfold numberValue. rewrite wrap32_u32, <- wrap32_u32, u32_opp_u32,
        wrap32_u32. reflexivity.
    + reflexivity.
    + intros Hmax. unfold literal. rewrite Z.min_l by lia.
      apply wrap32_id. unfold in_int, min_int, max_int. lia.
Qed.

Lemma integer_literals_witness :
  exists lexer',
    parseInteger (snd (getNextToken (openLexer [Minus; Number 2147483648])))
    = Returns (wrap32 (- Z.min 2147483648 (2 ^ 64 - 1)), lexer') /\
    tokens lexer' = [] /\
    (2147483648 <= 2 ^ 31 ->
     wrap32 (- Z.min 2147483648 (2 ^ 64 - 1)) = - 2147483648).
Proof.
  apply (integer_literals (openLexer [Minus; Number 2147483648]) 2147483648
           []); [lia|reflexivity].
Defined.

(** * The lexer on characters *)

Section LexerOnCharacters.
Import Scanner.

Lemma ctype_cases (f : Z -> bool) (c : Z) :
  (classified c = true /\ ctype f c = Returns (f c)) \/
  (classified c = false /\ ctype f c = Undefined (OutOfBounds c)).
Proof. unfold ctype. destruct (classified c); [left|right]; split; reflexivity. Qed.

Lemma unread_readChar (s : Stream) :
  lastChar s <> EOF -> (unread (readChar s) < unread s)%nat.
Proof.
  intros Hne. unfold unread, readChar.
  destruct (Z.eqb_spec (lastChar s) EOF) as [|_]; [contradiction|].
  destruct (file s) as [|c rest]; cbn [lastChar file set_lastChar List.length].
  - rewrite Z.eqb_refl. lia.
  - destruct (c =? EOF); lia.
Qed.

Lemma unread_nextLine (s : Stream) : unread (nextLine s) = unread s.
Proof. reflexivity. Qed.

Lemma allClassified_readChar (s : Stream) :
  allClassified s = true -> allClassified (readChar s) = true.
Proof.
  unfold allClassified, readChar. intros Hc.
  apply andb_prop in Hc as [_ Hf].
  destruct (file s) as [|c rest] eqn:Hfile;
    cbn [lastChar file set_lastChar forallb] in *.
  - rewrite Hfile. reflexivity.
  - exact Hf.
Qed.

Lemma isspace_not_EOF (c : Z) : isspace c = true -> c <> EOF.
Proof. unfold isspace, EOF. intros H ->. discriminate H. Qed.

Lemma isalpha_not_EOF (c : Z) : isalpha c = true -> c <> EOF.
Proof. unfold isalpha, EOF. intros H ->. discriminate H. Qed.

Lemma isdigit_not_EOF (c : Z) : isdigit c = true -> c <> EOF.
Proof. unfold isdigit, EOF. intros H ->. discriminate H. Qed.


Lemma readChar_fields (s : Stream) :
  identifier (readChar s) = identifier s /\ value (readChar s) = value s /\
  lastToken (readChar s) = lastToken s /\
  currentLine (readChar s) = currentLine s.
Proof. unfold readChar. destruct (file s); repeat split; reflexivity. Qed.

Lemma loopEnds_step (s s1 : Stream) (post post1 : Stream -> Prop)
      (r : outcome Stream) :
  value s1 = value s -> lastToken s1 = lastToken s ->
  (allClassified s = true -> allClassified s1 = true) ->
  (forall s', post1 s' -> post s') ->
  loopEnds s1 post1 r -> loopEnds s post r.
Proof.
  intros Hv Ht Hc Hpost. destruct r as [s'|w|u]; cbn [loopEnds].
  - intros (Hp & Hv' & Ht' & Hc'). split; [apply Hpost; exact Hp|].
    split; [congruence|]. split; [congruence|]. auto.
  - auto.
  - intros [Hu Hnot]. split; [exact Hu|].
    destruct (allClassified s); [|reflexivity].
    rewrite Hc in Hnot by reflexivity. discriminate.
Qed.

Lemma loopEnds_unclassified (s : Stream) (post : Stream -> Prop) :
  classified (lastChar s) = false ->
  loopEnds s post (Undefined (OutOfBounds (lastChar s))).
Proof.
  intros Hc. cbn [loopEnds]. split; [eexists; split; [reflexivity|exact Hc]|].
  unfold allClassified. rewrite Hc. reflexivity.
Qed.

Lemma skipWhitespace_spec (fuel : nat) :
  forall s,
    (unread s < fuel)%nat ->
    exists r,
      skipWhitespace fuel s = Some r /\
      loopEnds s (fun s' => (unread s' <= unread s)%nat /\
                            isspace (lastChar s') = false /\
                            classified (lastChar s') = true /\
                            identifier s' = identifier s) r.
Proof.
  induction fuel as [|fuel IH]; intros s Hf; [lia|]. cbn [skipWhitespace].
  destruct (ctype_cases isspace (lastChar s)) as [[Hc ->]|[Hc ->]].
  - destruct (isspace (lastChar s)) eqn:Hsp.
    + set (s0 := if lastChar s =? 10 then nextLine s else s).
      assert (H0 : lastChar s0 = lastChar s /\ unread s0 = unread s /\
                   identifier s0 = identifier s /\ value s0 = value s /\
                   lastToken s0 = lastToken s /\
                   allClassified s0 = allClassified s).
      { unfold s0. destruct (lastChar s =? 10); repeat split; reflexivity. }
      destruct H0 as (Hl0 & Hu0 & Hi0 & Hv0 & Ht0 & Hc0).
      assert (Hne : lastChar s0 <> EOF)
        by (rewrite Hl0; apply isspace_not_EOF; exact Hsp).
      pose proof (unread_readChar s0 Hne) as Hlt.
      destruct (readChar_fields s0) as (Hi1 & Hv1 & Ht1 & _).
      destruct (IH (readChar s0) ltac:(lia)) as (r & Hr & Hends).
      exists r. split; [exact Hr|].
      eapply loopEnds_step; [| | | |exact Hends]; try congruence.
      * intros Hall. apply allClassified_readChar. congruence.
      * cbv beta. intros s' (H1 & H2 & H3 & H4).
        repeat split; try assumption; [lia|congruence].
    + eexists. split; [reflexivity|]. cbn [loopEnds].
      repeat split; auto.
  - eexists. split; [reflexivity|]. apply loopEnds_unclassified. exact Hc.
Qed.

Lemma skipComment_spec (fuel : nat) :
  forall s,
    lastChar s <> EOF -> (unread s <= fuel)%nat ->
    exists s',
      skipComment fuel s = Some s' /\
      (unread s' < unread s)%nat /\
      (lastChar s' = EOF \/ lastChar s' = 10) /\
      identifier s' = identifier s /\ value s' = value s /\
      lastToken s' = lastToken s /\
      (allClassified s = true -> allClassified s' = true).
Proof.
  induction fuel as [|fuel IH]; intros s Hne Hf.
  - unfold unread in Hf. destruct (Z.eqb_spec (lastChar s) EOF); [contradiction|lia].
  - cbn [skipComment].
    pose proof (unread_readChar s Hne) as Hlt.
    destruct (readChar_fields s) as (Hi1 & Hv1 & Ht1 & _).
    destruct (Z.eqb_spec (lastChar (readChar s)) EOF) as [Heof|Hneof];
      cbn [negb andb].
    + exists (readChar s). repeat split; auto using allClassified_readChar.
    + destruct (Z.eqb_spec (lastChar (readChar s)) 10) as [Hnl|Hnnl];
        cbn [negb].
      * exists (readChar s). repeat split; auto using allClassified_readChar.
      * destruct (IH (readChar s) Hneof ltac:(lia))
          as (s' & Hs & Hu & Hl & Hi & Hv & Ht & Hc).
        exists s'. split; [exact Hs|]. split; [lia|]. split; [exact Hl|].
        split; [congruence|]. split; [congruence|]. split; [congruence|].
        intros Hall. apply Hc. apply allClassified_readChar. exact Hall.
Qed.

Lemma readIdentifier_spec (fuel : nat) :
  forall s,
    lastChar s <> EOF -> (unread s <= fuel)%nat ->
    exists r,
      readIdentifier fuel s = Some r /\
      loopEnds s (fun s' => (unread s' < unread s)%nat /\
                            classified (lastChar s') = true) r.
Proof.
  induction fuel as [|fuel IH]; intros s Hne Hf.
  - unfold unread in Hf. destruct (Z.eqb_spec (lastChar s) EOF); [contradiction|lia].
  - cbn [readIdentifier].
    pose proof (unread_readChar s Hne) as Hlt.
    destruct (readChar_fields s) as (_ & Hv1 & Ht1 & _).
    destruct (ctype_cases isalnum (lastChar (readChar s))) as [[Hc ->]|[Hc ->]].
    + destruct (isalnum (lastChar (readChar s)) || (lastChar (readChar s) =? 95))
        eqn:Hword.
      * set (s1 := set_identifier _ (readChar s)).
        assert (Hne1 : lastChar s1 <> EOF).
        { unfold s1. cbn [lastChar set_identifier]. intros Heq.
          rewrite Heq in Hword. discriminate Hword. }
        destruct (IH s1 Hne1 ltac:(unfold s1, unread in *;
                                   cbn [lastChar file set_identifier] in *; lia))
          as (r & Hr & Hends).
        exists r. split; [exact Hr|].
        eapply loopEnds_step; [| | | |exact Hends].
        -- exact Hv1.
        -- exact Ht1.
        -- intros Hall. apply (allClassified_readChar s Hall).
        -- cbv beta. intros s' [H1 H2]. split; [|exact H2].
           unfold s1, unread in *. cbn [lastChar file set_identifier] in *. lia.
      * eexists. split; [reflexivity|]. cbn [loopEnds].
        repeat split; auto using allClassified_readChar.
    + eexists. split; [reflexivity|].
      eapply loopEnds_step;
        [exact Hv1|exact Ht1|apply allClassified_readChar| |
         apply loopEnds_unclassified; exact Hc].
      intros s' Hs'. exact Hs'.
Qed.

Lemma readNumber_spec (fuel : nat) :
  forall s number,
    lastChar s <> EOF -> (unread s <= fuel)%nat ->
    exists r,
      readNumber fuel s number = Some r /\
      loopEnds s (fun s' => (unread s' < unread s)%nat /\
                            classified (lastChar s') = true /\
                            identifier s' = identifier s)
               (p <- r ;; Returns (fst p)).
Proof.
  induction fuel as [|fuel IH]; intros s number Hne Hf.
  - unfold unread in Hf. destruct (Z.eqb_spec (lastChar s) EOF); [contradiction|lia].
  - cbn [readNumber].
    pose proof (unread_readChar s Hne) as Hlt.
    destruct (readChar_fields s) as (Hi1 & Hv1 & Ht1 & _).
    destruct (ctype_cases isdigit (lastChar (readChar s))) as [[Hc ->]|[Hc ->]].
    + destruct (isdigit (lastChar (readChar s))) eqn:Hd.
      * destruct (IH (readChar s) (number ++ [lastChar (readChar s)])
                    (isdigit_not_EOF _ Hd) ltac:(lia)) as (r & Hr & Hends).
        exists r. split; [exact Hr|].
        eapply loopEnds_step; [| | | |exact Hends].
        -- exact Hv1.
        -- exact Ht1.
        -- apply allClassified_readChar.
        -- cbv beta. intros s' (H1 & H2 & H3).
           split; [lia|]. split; [exact H2|congruence].
      * eexists. split; [reflexivity|]. cbn [obind fst loopEnds].
        repeat split; auto using allClassified_readChar.
    + eexists. split; [reflexivity|]. cbn [obind].
      eapply loopEnds_step;
        [exact Hv1|exact Ht1|apply allClassified_readChar| |
         apply loopEnds_unclassified; exact Hc].
      intros s' Hs'. exact Hs'.
Qed.

Lemma lookup_keyword (name : string) :
  lookup name = IDENTIFIER \/
  (In (lookup name) (map snd keywords) /\ tokenEnumStr (lookup name) = name).
Proof.
  unfold lookup, keywords. cbn [List.find fst snd].
  repeat match goal with
    | |- context [String.eqb ?kw name] =>
        destruct (String.eqb_spec kw name) as [<-|_];
        [right; split; [cbn; tauto|reflexivity]|]
    end.
  left. reflexivity.
Qed.

Lemma lookup_not_END_OF_FILE (name : string) :
  Token_eqb (lookup name) END_OF_FILE = false.
Proof.
  destruct (lookup_keyword name) as [->|[Hin _]]; [reflexivity|].
  cbn in Hin.
  repeat (destruct Hin as [<-|Hin]; [reflexivity|]). contradiction.
Qed.

(** What [readToken] may end with. *)
Lemma readToken_spec (fuel : nat) :
  forall s,
    (unread s < fuel)%nat ->
    exists r,
      readToken fuel s = Some r /\
      match r with
      | Returns (t, s') =>
          (if Token_eqb t END_OF_FILE then lastChar s' = EOF
           else (unread s' < unread s)%nat) /\
          (allClassified s = true -> allClassified s' = true)
      | Throws _ => False
      | Undefined u =>
          (exists c, u = OutOfBounds c /\ classified c = false) /\
          allClassified s = false
      end.
Proof.
  induction fuel as [|fuel IH]; intros s Hf; [lia|]. cbn [readToken].
  destruct (skipWhitespace_spec (S fuel) s Hf) as (r1 & -> & Hends1).
  destruct r1 as [s1|w|u]; cbn [loopEnds] in Hends1; [|contradiction|].
  2:{ eexists. split; [reflexivity|]. exact Hends1. }
  destruct Hends1 as ((Hu1 & Hsp1 & Hc1 & Hi1) & Hv1 & Ht1 & Hall1).
  destruct (Z.eqb_spec (lastChar s1) 35) as [Hhash|Hnhash].
  - assert (Hne : lastChar s1 <> EOF) by (rewrite Hhash; discriminate).
    destruct (skipComment_spec (S fuel) s1 Hne ltac:(lia))
      as (s2 & -> & Hu2 & _ & _ & _ & _ & Hall2).
    set (s3 := if lastChar s2 =? 10 then nextLine s2 else s2).
    assert (H3 : unread s3 = unread s2 /\ allClassified s3 = allClassified s2).
    { unfold s3. destruct (lastChar s2 =? 10); split; reflexivity. }
    destruct H3 as [Hu3 Hc3].
    destruct (IH s3 ltac:(lia)) as (r & Hr & Hpost).
    exists r. split; [exact Hr|].
    destruct r as [[t s']|w|u]; [|exact Hpost|].
    + destruct Hpost as [Hprog Hall]. split.
      * destruct (Token_eqb t END_OF_FILE); [exact Hprog|lia].
      * intros Hs. apply Hall. rewrite Hc3. auto.
    + destruct Hpost as [Hu Hnot]. split; [exact Hu|].
      destruct (allClassified s) eqn:Hs; [|reflexivity].
      rewrite Hc3, Hall2 in Hnot by auto. discriminate.
  - unfold ctype. rewrite Hc1.
    destruct (isalpha (lastChar s1)) eqn:Halpha.
    + set (s2 := set_identifier _ s1).
      destruct (readIdentifier_spec (S fuel) s2
                  (isalpha_not_EOF _ Halpha) ltac:(unfold s2, unread in *;
                    cbn [lastChar file set_identifier] in *; lia))
        as (r & -> & Hends).
      destruct r as [s'|w|u]; cbn [loopEnds] in Hends; [|contradiction|].
      * destruct Hends as ((Hu' & _) & _ & _ & Hall').
        eexists. split; [reflexivity|]. cbv beta iota.
        rewrite lookup_not_END_OF_FILE. split.
        -- unfold s2, unread in *. cbn [lastChar file set_identifier] in *. lia.
        -- intros Hs. apply Hall'. apply Hall1. exact Hs.
      * eexists. split; [reflexivity|]. destruct Hends as [Hu Hnot].
        split; [exact Hu|].
        destruct (allClassified s) eqn:Hs; [|reflexivity].
        change (allClassified s2) with (allClassified s1) in Hnot.
        rewrite Hall1 in Hnot by reflexivity. discriminate.
    + destruct (isdigit (lastChar s1)) eqn:Hdigit.
      * destruct (readNumber_spec (S fuel) s1 [lastChar s1]
                    (isdigit_not_EOF _ Hdigit) ltac:(lia))
          as (r & -> & Hends).
        destruct r as [[s' number]|w|u]; cbn [obind fst loopEnds] in Hends;
          [|contradiction|].
        -- destruct Hends as ((Hu' & _) & _ & _ & Hall').
           eexists. split; [reflexivity|]. cbn [Token_eqb]. split.
           ++ unfold unread in *. cbn [lastChar file set_value]. lia.
           ++ intros Hs. apply Hall'. apply Hall1. exact Hs.
        -- eexists. split; [reflexivity|]. destruct Hends as [Hu Hnot].
           split; [exact Hu|].
           destruct (allClassified s) eqn:Hs; [|reflexivity].
           rewrite Hall1 in Hnot by reflexivity. discriminate.
      * destruct (Z.eqb_spec (lastChar s1) 45) as [Hminus|Hnminus].
        -- eexists. split; [reflexivity|]. cbn [Token_eqb].
           assert (Hne : lastChar s1 <> EOF) by (rewrite Hminus; discriminate).
           pose proof (unread_readChar s1 Hne). split; [lia|].
           intros Hs. apply allClassified_readChar. auto.
        -- destruct (Z.eqb_spec (lastChar s1) EOF) as [Heof|Hneof].
           ++ eexists. split; [reflexivity|]. cbn [Token_eqb].
              split; [exact Heof|exact Hall1].
           ++ eexists. split; [reflexivity|]. cbn [Token_eqb].
              pose proof (unread_readChar s1 Hneof). split; [lia|].
              intros Hs. apply allClassified_readChar. auto.
Qed.

Lemma readToken_at_EOF (fuel : nat) (s : Stream) :
  lastChar s = EOF ->
  readToken (S fuel) s = Some (Returns (END_OF_FILE, s)).
Proof.
  intros Heof. cbn [readToken skipWhitespace]. unfold ctype.
  rewrite Heof. cbn. rewrite Heof. cbn. reflexivity.
Qed.

(** X18.  [getNextToken] on the characters of a file always ends.  It
    never throws; its behaviour is undefined only over a character that
    the functions of <cctype> are not defined on, which the stream then
    still held unread; otherwise it returns a token that is recorded in
    [lastToken], and unless that token is END_OF_FILE it has consumed at
    least one character.  After END_OF_FILE, [lastChar] is [EOF], and
    from such a stream every further call returns END_OF_FILE and leaves
    the stream as it is. *)
Theorem getNextToken_ends (s : Stream) :
  exists r,
    getNextToken s = Some r /\
    match r with
    | Returns (t, s') =>
        lastToken s' = t /\
        (if Token_eqb t END_OF_FILE then lastChar s' = EOF
         else (unread s' < unread s)%nat) /\
        (lastChar s = EOF ->
         t = END_OF_FILE /\ s' = set_lastToken END_OF_FILE s)
    | Throws _ => False
    | Undefined u =>
        (exists c, u = OutOfBounds c /\ classified c = false) /\
        allClassified s = false
    end.
Proof.
  unfold getNextToken.
  assert (Hf : (unread s < readToken_fuel s)%nat).
  { unfold unread, readToken_fuel. destruct (lastChar s =? EOF); lia. }
  destruct (readToken_spec (readToken_fuel s) s Hf) as (r & Hr & Hpost).
  rewrite Hr. destruct r as [[t s']|w|u].
  - eexists. split; [reflexivity|]. destruct Hpost as [Hprog _].
    split; [reflexivity|]. split.
    + destruct (Token_eqb t END_OF_FILE); exact Hprog.
    + intros Heof. unfold readToken_fuel in Hr.
      rewrite (readToken_at_EOF _ _ Heof) in Hr.
      injection Hr as <- <-. split; reflexivity.
  - contradiction.
  - eexists. split; [reflexivity|]. exact Hpost.
Qed.

(** ** Words and numbers *)

Lemma string_append_nil_r (a : string) : (a ++ "")%string = a.
Proof.
  induction a as [|c a IH]; [reflexivity|].
  change (String c (a ++ "")%string = String c a). f_equal. exact IH.
Qed.

Lemma string_append_assoc (a b c : string) :
  ((a ++ b) ++ c)%string = (a ++ (b ++ c))%string.
Proof.
  induction a as [|x a IH]; [reflexivity|].
  change (String x ((a ++ b) ++ c)%string = String x (a ++ (b ++ c))%string).
  f_equal. exact IH.
Qed.

Ltac char_cases :=
  unfold isalnum, isalpha, isdigit, isspace, classified, EOF in *;
  repeat (match goal with
          | H : context [?a =? ?b] |- _ => destruct (Z.eqb_spec a b)
          | H : context [?a <=? ?b] |- _ => destruct (Z.leb_spec a b)
          | |- context [?a =? ?b] => destruct (Z.eqb_spec a b)
          | |- context [?a <=? ?b] => destruct (Z.leb_spec a b)
          end; cbn [andb orb negb] in *; try lia; try discriminate);
  try (repeat split; reflexivity).

Lemma wordChar_classified (c : Z) :
  isalnum c || (c =? 95) = true -> classified c = true.
Proof. intros H. char_cases. Qed.

Lemma isalpha_starts (c : Z) :
  isalpha c = true ->
  classified c = true /\ isspace c = false /\ (c =? 35) = false.
Proof. intros H. char_cases. Qed.

Lemma isdigit_starts (c : Z) :
  isdigit c = true ->
  classified c = true /\ isspace c = false /\ (c =? 35) = false /\
  isalpha c = false.
Proof. intros H. char_cases. Qed.

Lemma movedTo_fields (rest : list Z) (s s1 : Stream) :
  identifier s1 = identifier s -> value s1 = value s ->
  lastToken s1 = lastToken s -> currentLine s1 = currentLine s ->
  movedTo rest s1 = movedTo rest s.
Proof.
  intros Hi Hv Ht Hl. unfold movedTo. destruct rest; congruence.
Qed.

Lemma readChar_movedTo (s : Stream) : readChar s = movedTo (file s) s.
Proof.
  unfold readChar, movedTo, set_lastChar.
  destruct (file s) eqn:Hfile; reflexivity.
Qed.

Lemma readIdentifier_word (w : list Z) :
  forall (fuel : nat) (s : Stream) (rest : list Z),
    file s = w ++ rest ->
    Forall (fun c => isalnum c || (c =? 95) = true) w ->
    endsWord rest = true ->
    (List.length w < fuel)%nat ->
    readIdentifier fuel s
    = Some (Returns
              (movedTo rest
                 (set_identifier (identifier s ++ stringOf w) s))).
Proof.
  induction w as [|c w IH]; intros fuel s rest Hfile Hall Hend Hf;
    (destruct fuel as [|fuel]; [cbn [List.length] in Hf; lia|]);
    cbn [readIdentifier]; rewrite readChar_movedTo, Hfile; cbn [app].
  - cbn [stringOf fold_right]. rewrite string_append_nil_r.
    unfold endsWord in Hend. unfold ctype.
    destruct rest as [|d rest]; cbn [movedTo lastChar].
    + reflexivity.
    + apply andb_prop in Hend as [Hc Hn]. rewrite Hc.
      apply negb_true_iff in Hn. rewrite Hn. reflexivity.
  - inversion Hall as [|? ? Hc Hall']; subst.
    cbn [movedTo lastChar]. unfold ctype.
    rewrite (wordChar_classified c Hc), Hc.
    rewrite (IH fuel _ rest); [|reflexivity|exact Hall'|exact Hend|
                               cbn [List.length] in Hf; lia].
    cbn [identifier set_identifier]. unfold appendChar.
    rewrite string_append_assoc. cbn [stringOf fold_right].
    apply f_equal, f_equal. apply movedTo_fields; reflexivity.
Qed.

Lemma readNumber_digits (w : list Z) :
  forall (fuel : nat) (s : Stream) (number rest : list Z),
    file s = w ++ rest ->
    Forall (fun c => isdigit c = true) w ->
    endsNumber rest = true ->
    (List.length w < fuel)%nat ->
    readNumber fuel s number = Some (Returns (movedTo rest s, number ++ w)).
Proof.
  induction w as [|c w IH]; intros fuel s number rest Hfile Hall Hend Hf;
    (destruct fuel as [|fuel]; [cbn [List.length] in Hf; lia|]);
    cbn [readNumber]; rewrite readChar_movedTo, Hfile; cbn [app].
  - rewrite app_nil_r. unfold endsNumber in Hend. unfold ctype.
    destruct rest as [|d rest]; cbn [movedTo lastChar].
    + reflexivity.
    + apply andb_prop in Hend as [Hc Hn]. rewrite Hc.
      apply negb_true_iff in Hn. rewrite Hn. reflexivity.
  - inversion Hall as [|? ? Hc Hall']; subst.
    cbn [movedTo lastChar]. unfold ctype.
    assert (Hcl : classified c = true) by (apply isdigit_starts; exact Hc).
    rewrite Hcl, Hc.
    rewrite (IH fuel _ _ rest); [|reflexivity|exact Hall'|exact Hend|
                                 cbn [List.length] in Hf; lia].
    rewrite <- app_assoc. cbn [app].
    apply f_equal, f_equal. f_equal.
Qed.

(** X19.  Words and numbers are the longest runs of their characters.  At
    a letter, [getNextToken] takes the letter and all letters, digits and
    underscores up to the first other character or the end of the file as
    one name, returns the token the name has in the keyword table and
    leaves the name in [identifier]; so a keyword is recognised only as a
    whole word.  At a digit, it takes all digits up to the first other
    character as one number, returns NUMBER and leaves in [value] what
    the digits denote (saturated at [2^64 - 1], modulo [2^32]).  In both
    cases nothing else of the lexer's state changes, and the next
    character to look at is the one that ended the run. *)
Theorem words_and_numbers (s : Stream) (w rest : list Z) :
  file s = w ++ rest ->
  (isalpha (lastChar s) = true ->
   Forall (fun c => isalnum c || (c =? 95) = true) w ->
   endsWord rest = true ->
   let name := stringOf (lastChar s :: w) in
   getNextToken s
   = Some (Returns (lookup name,
                    set_lastToken (lookup name)
                      (movedTo rest (set_identifier name s))))) /\
  (isdigit (lastChar s) = true ->
   Forall (fun c => isdigit c = true) w ->
   endsNumber rest = true ->
   getNextToken s
   = Some (Returns (NUMBER,
                    set_lastToken NUMBER
                      (set_value (numberValue (decimal (lastChar s :: w)))
                         (movedTo rest s))))).
Proof.
  intros Hfile.
  assert (Hlen : (List.length w < readToken_fuel s)%nat).
  { unfold readToken_fuel. rewrite Hfile, length_app. lia. }
  split.
  - intros Halpha Hall Hend name.
    destruct (isalpha_starts _ Halpha) as (Hc & Hsp & Hhash).
    unfold getNextToken, readToken_fuel in *.
    cbn [readToken skipWhitespace]. unfold ctype.
    repeat (rewrite ?Hc, ?Hsp, ?Hhash, ?Halpha; cbv iota).
    rewrite (readIdentifier_word w _ _ rest); [|exact Hfile|exact Hall|exact Hend|exact Hlen].
    cbn [identifier set_identifier movedTo].
    assert (Hmoved : movedTo rest
                       (set_identifier
                          (String (charOf (lastChar s)) "" ++ stringOf w)
                          (set_identifier (String (charOf (lastChar s)) "") s))
                     = movedTo rest (set_identifier name s)).
    { apply movedTo_fields; reflexivity. }
    rewrite Hmoved.
    assert (Hid : identifier (movedTo rest (set_identifier name s)) = name)
      by (destruct rest; reflexivity).
    rewrite Hid. reflexivity.
  - intros Hdigit Hall Hend.
    destruct (isdigit_starts _ Hdigit) as (Hc & Hsp & Hhash & Halpha).
    unfold getNextToken, readToken_fuel in *.
    cbn [readToken skipWhitespace]. unfold ctype.
    repeat (rewrite ?Hc, ?Hsp, ?Hhash, ?Halpha, ?Hdigit; cbv iota).
    rewrite (readNumber_digits w _ _ _ rest); [|exact Hfile|exact Hall|exact Hend|exact Hlen].
    reflexivity.
Qed.

Lemma words_and_numbers_witness :
  Scanner.getNextToken (openFile [66; 82; 32; 49])
  = Some (Returns (Asm.BR, mkStream [49] 32 "BR" 0 Asm.BR 0)).
Proof.
  apply (proj1 (words_and_numbers (openFile [66; 82; 32; 49]) [82] [32; 49]
                  eq_refl));
    [reflexivity|repeat constructor|reflexivity].
Defined.

(** ** Blanks and comments *)

Lemma skipWhitespace_more (fuel : nat) :
  forall s r (fuel' : nat),
    skipWhitespace fuel s = Some r -> (fuel <= fuel')%nat ->
    skipWhitespace fuel' s = Some r.
Proof.
  induction fuel as [|fuel IH]; intros s r fuel' Hr Hle;
    cbn [skipWhitespace] in Hr; [discriminate|].
  destruct fuel' as [|fuel']; [lia|]. cbn [skipWhitespace].
  destruct (ctype isspace (lastChar s)) as [[|]| |]; try exact Hr.
  apply IH; [exact Hr|lia].
Qed.

Lemma skipComment_more (fuel : nat) :
  forall s r (fuel' : nat),
    skipComment fuel s = Some r -> (fuel <= fuel')%nat ->
    skipComment fuel' s = Some r.
Proof.
  induction fuel as [|fuel IH]; intros s r fuel' Hr Hle;
    cbn [skipComment] in Hr; [discriminate|].
  destruct fuel' as [|fuel']; [lia|]. cbn [skipComment].
  destruct (negb (lastChar (readChar s) =? EOF)
            && negb (lastChar (readChar s) =? 10)); [|exact Hr].
  apply IH; [exact Hr|lia].
Qed.

Lemma readIdentifier_more (fuel : nat) :
  forall s r (fuel' : nat),
    readIdentifier fuel s = Some r -> (fuel <= fuel')%nat ->
    readIdentifier fuel' s = Some r.
Proof.
  induction fuel as [|fuel IH]; intros s r fuel' Hr Hle;
    cbn [readIdentifier] in Hr; [discriminate|].
  destruct fuel' as [|fuel']; [lia|]. cbn [readIdentifier].
  destruct (ctype isalnum (lastChar (readChar s))) as [b| |]; try exact Hr.
  destruct (b || (lastChar (readChar s) =? 95)); [|exact Hr].
  apply IH; [exact Hr|lia].
Qed.

Lemma readNumber_more (fuel : nat) :
  forall s number r (fuel' : nat),
    readNumber fuel s number = Some r -> (fuel <= fuel')%nat ->
    readNumber fuel' s number = Some r.
Proof.
  induction fuel as [|fuel IH]; intros s number r fuel' Hr Hle;
    cbn [readNumber] in Hr; [discriminate|].
  destruct fuel' as [|fuel']; [lia|]. cbn [readNumber].
  destruct (ctype isdigit (lastChar (readChar s))) as [[|]| |]; try exact Hr.
  apply IH; [exact Hr|lia].
Qed.

Lemma readToken_more (fuel : nat) :
  forall s r (fuel' : nat),
    readToken fuel s = Some r -> (fuel <= fuel')%nat ->
    readToken fuel' s = Some r.
Proof.
  induction fuel as [|fuel IH]; intros s r fuel' Hr Hle;
    cbn [readToken] in Hr; [discriminate|].
  destruct fuel' as [|fuel']; [lia|]. cbn [readToken].
  destruct (skipWhitespace (S fuel) s) as [r1|] eqn:Hw; [|discriminate].
  rewrite (skipWhitespace_more _ _ _ (S fuel') Hw ltac:(lia)).
  destruct r1 as [s1| |]; try exact Hr.
  destruct (lastChar s1 =? 35).
  - destruct (skipComment (S fuel) s1) as [s2|] eqn:Hc; [|discriminate].
    rewrite (skipComment_more _ _ _ (S fuel') Hc ltac:(lia)).
    apply IH; [exact Hr|lia].
  - destruct (ctype isalpha (lastChar s1)) as [[|]| |]; try exact Hr.
    + destruct (readIdentifier (S fuel) _) as [r2|] eqn:Hi; [|discriminate].
      rewrite (readIdentifier_more _ _ _ (S fuel') Hi ltac:(lia)). exact Hr.
    + destruct (ctype isdigit (lastChar s1)) as [[|]| |]; try exact Hr.
      destruct (readNumber (S fuel) _ _) as [r2|] eqn:Hn; [|discriminate].
      rewrite (readNumber_more _ _ _ _ (S fuel') Hn ltac:(lia)). exact Hr.
Qed.

(** Enough fuel is enough: the result does not depend on how much more
    there is. *)
Lemma readToken_enough (s : Stream) (f1 f2 : nat) :
  (unread s < f1)%nat -> (unread s < f2)%nat ->
  readToken f1 s = readToken f2 s.
Proof.
  intros H1 H2.
  destruct (readToken_spec f1 s H1) as (r1 & Hr1 & _).
  destruct (readToken_spec f2 s H2) as (r2 & Hr2 & _).
  destruct (Nat.le_ge_cases f1 f2) as [Hle|Hle].
  - rewrite (readToken_more _ _ _ _ Hr1 Hle). exact Hr1.
  - rewrite Hr2. apply (readToken_more _ _ _ _ Hr2 Hle).
Qed.

Lemma unread_fuel (s : Stream) : (unread s < readToken_fuel s)%nat.
Proof.
  unfold unread, readToken_fuel. destruct (lastChar s =? EOF); lia.
Qed.

Lemma getNextToken_readToken (s s' : Stream) (fuel : nat) :
  (unread s' < fuel)%nat ->
  readToken (readToken_fuel s) s = readToken fuel s' ->
  getNextToken s = getNextToken s'.
Proof.
  intros Hf Heq. unfold getNextToken. rewrite Heq.
  rewrite (readToken_enough s' fuel (readToken_fuel s') Hf (unread_fuel s')).
  reflexivity.
Qed.

Lemma skipComment_body (body : list Z) :
  forall (fuel : nat) (s : Stream) (rest : list Z),
    file s = body ++ rest ->
    Forall (fun c => c <> 10 /\ c <> EOF) body ->
    (rest = [] \/ exists rest', rest = 10 :: rest') ->
    (List.length body < fuel)%nat ->
    skipComment fuel s = Some (movedTo rest s).
Proof.
  induction body as [|c body IH]; intros fuel s rest Hfile Hall Hrest Hf;
    (destruct fuel as [|fuel]; [cbn [List.length] in Hf; lia|]);
    cbn [skipComment]; rewrite readChar_movedTo, Hfile; cbn [app].
  - destruct Hrest as [->|[rest' ->]]; reflexivity.
  - inversion Hall as [|? ? [Hnl Hneof] Hall']; subst.
    cbn [movedTo lastChar].
    destruct (Z.eqb_spec c EOF); [contradiction|].
    destruct (Z.eqb_spec c 10); [contradiction|]. cbn [negb andb].
    rewrite (IH fuel _ rest); [|reflexivity|exact Hall'|exact Hrest|
                               cbn [List.length] in Hf; lia].
    f_equal.
Qed.

Lemma skipWhitespace_space (fuel : nat) (s : Stream) :
  isspace (lastChar s) = true ->
  skipWhitespace (S fuel) s
  = skipWhitespace fuel (readChar (if lastChar s =? 10 then nextLine s else s)).
Proof.
  intros Hsp. cbn [skipWhitespace]. unfold ctype.
  assert (Hc : classified (lastChar s) = true) by (clear - Hsp; char_cases).
  rewrite Hc, Hsp. reflexivity.
Qed.

(** X20.  What the lexer passes over.  A white-space character is skipped:
    the next token is the one found after reading on, with the line count
    increased after a newline.  A comment runs from [#] to the end of the
    line: the next token is the one found at the newline that ends it,
    from where the count has already been increased once (the newline
    itself is then skipped as white space and counted again).  A comment
    that nothing ends but the end of the file is followed by
    END_OF_FILE. *)
Theorem blanks_and_comments (s : Stream) :
  (isspace (lastChar s) = true ->
   getNextToken s
   = getNextToken (readChar (if lastChar s =? 10 then nextLine s else s))) /\
  (lastChar s = 35 ->
   forall body rest,
     file s = body ++ 10 :: rest ->
     Forall (fun c => c <> 10 /\ c <> EOF) body ->
     getNextToken s = getNextToken (nextLine (movedTo (10 :: rest) s))) /\
  (lastChar s = 35 ->
   Forall (fun c => c <> 10 /\ c <> EOF) (file s) ->
   getNextToken s
   = Some (Returns (END_OF_FILE, set_lastToken END_OF_FILE (movedTo [] s)))).
Proof.
  split; [|split].
  - intros Hsp.
    set (s1 := readChar (if lastChar s =? 10 then nextLine s else s)).
    assert (Hlt : (unread s1 < unread s)%nat).
    { unfold s1. destruct (lastChar s =? 10) eqn:Hnl.
      - rewrite <- (unread_nextLine s). apply unread_readChar.
        cbn [lastChar nextLine]. apply isspace_not_EOF. exact Hsp.
      - apply unread_readChar. apply isspace_not_EOF. exact Hsp. }
    pose proof (unread_fuel s) as Hfuel.
    apply (getNextToken_readToken s s1 (readToken_fuel s)); [lia|].
    unfold readToken_fuel in *. cbn [readToken].
    assert (Hstep : skipWhitespace (S (S (List.length (file s)))) s
                    = skipWhitespace (S (S (List.length (file s)))) s1).
    { rewrite (skipWhitespace_space _ s Hsp). fold s1.
      destruct (skipWhitespace_spec (S (List.length (file s))) s1 ltac:(lia))
        as (r & Hr & _).
      rewrite Hr. symmetry.
      apply (skipWhitespace_more _ _ _ _ Hr). lia. }
    rewrite Hstep. reflexivity.
  - intros Hhash body rest Hfile Hall.
    pose proof (unread_fuel s) as Hfuel.
    set (s2 := nextLine (movedTo (10 :: rest) s)).
    assert (Hu2 : (S (unread s2) < readToken_fuel s)%nat).
    { unfold s2, unread, readToken_fuel. cbn [lastChar file nextLine movedTo].
      rewrite Hfile, length_app. cbn [List.length].
      destruct (10 =? EOF); lia. }
    apply (getNextToken_readToken s s2 (pred (readToken_fuel s))); [lia|].
    unfold readToken_fuel in *. cbn [readToken skipWhitespace Nat.pred].
    unfold ctype. rewrite Hhash. cbn [classified isspace]. 
    change (classified 35) with true. change (isspace 35) with false.
    cbv iota. rewrite Hhash. change (35 =? 35) with true. cbv iota.
    rewrite (skipComment_body body _ s (10 :: rest) Hfile Hall);
      [|right; eexists; reflexivity|rewrite Hfile, length_app; lia].
    cbn [movedTo lastChar]. change (10 =? 10) with true. cbv iota.
    reflexivity.
  - intros Hhash Hall.
    unfold getNextToken, readToken_fuel. cbn [readToken skipWhitespace].
    unfold ctype. rewrite Hhash.
    change (classified 35) with true. change (isspace 35) with false.
    cbv iota. rewrite Hhash. change (35 =? 35) with true. cbv iota.
    rewrite (skipComment_body (file s) _ s []);
      [|rewrite app_nil_r; reflexivity|exact Hall|left; reflexivity|lia].
    change (lastChar (movedTo [] s) =? 10) with false. cbv iota.
    reflexivity.
Qed.

Lemma blanks_and_comments_witness :
  Scanner.getNextToken (openFile [35; 66; 82; 10; 45])
  = Scanner.getNextToken (nextLine (movedTo [10; 45]
                                      (openFile [35; 66; 82; 10; 45]))).
Proof.
  apply (proj1 (proj2 (blanks_and_comments (openFile [35; 66; 82; 10; 45])))
           eq_refl [66; 82] [45] eq_refl).
  repeat constructor; discriminate.
Defined.

(** ** The lexemes the parser sees *)

(** What a token tells about [identifier] and [value]. *)
Lemma readToken_shape (fuel : nat) :
  forall s t s',
    (unread s < fuel)%nat ->
    readToken fuel s = Some (Returns (t, s')) ->
    (t = lookup (identifier s') /\ value s' = value s) \/
    (t = NUMBER /\ identifier s' = identifier s /\
     exists d, value s' = numberValue d) \/
    ((t = MINUS \/ t = NONE \/ t = END_OF_FILE) /\
     identifier s' = identifier s /\ value s' = value s).
Proof.
  induction fuel as [|fuel IH]; intros s t s' Hf Hr; [lia|].
  cbn [readToken] in Hr.
  destruct (skipWhitespace_spec (S fuel) s Hf) as (r1 & Hr1 & Hends1).
  rewrite Hr1 in Hr.
  destruct r1 as [s1|w|u]; cbn [loopEnds] in Hends1; try discriminate Hr.
  destruct Hends1 as ((Hu1 & Hsp1 & Hc1 & Hi1) & Hv1 & Ht1 & Hall1).
  destruct (Z.eqb_spec (lastChar s1) 35) as [Hhash|Hnhash].
  - assert (Hne : lastChar s1 <> EOF) by (rewrite Hhash; discriminate).
    destruct (skipComment_spec (S fuel) s1 Hne ltac:(lia))
      as (s2 & Hs2 & Hu2 & _ & Hi2 & Hv2 & _ & _).
    rewrite Hs2 in Hr.
    set (s3 := if lastChar s2 =? 10 then nextLine s2 else s2) in *.
    assert (H3 : unread s3 = unread s2 /\ identifier s3 = identifier s2 /\
                 value s3 = value s2).
    { unfold s3. destruct (lastChar s2 =? 10); repeat split; reflexivity. }
    destruct H3 as (Hu3 & Hi3 & Hv3).
    destruct (IH s3 t s' ltac:(lia) Hr)
      as [[H1 H2]|[(H1 & H2 & H3)|(H1 & H2 & H3)]].
    + left. split; [exact H1|congruence].
    + right. left. split; [exact H1|]. split; [congruence|exact H3].
    + right. right. split; [exact H1|]. split; congruence.
  - unfold ctype in Hr. rewrite Hc1 in Hr.
    destruct (isalpha (lastChar s1)) eqn:Halpha.
    + set (s2 := set_identifier _ s1) in *.
      destruct (readIdentifier_spec (S fuel) s2
                  (isalpha_not_EOF _ Halpha) ltac:(unfold s2, unread in *;
                    cbn [lastChar file set_identifier] in *; lia))
        as (r & Hrr & Hends).
      rewrite Hrr in Hr.
      destruct r as [s0|w|u]; cbn [loopEnds] in Hends; try discriminate Hr.
      destruct Hends as (_ & Hv' & _ & _).
      injection Hr as <- <-. left. split; [reflexivity|].
      rewrite Hv'. exact Hv1.
    + destruct (isdigit (lastChar s1)) eqn:Hdigit.
      * destruct (readNumber_spec (S fuel) s1 [lastChar s1]
                    (isdigit_not_EOF _ Hdigit) ltac:(lia))
          as (r & Hrr & Hends).
        rewrite Hrr in Hr.
        destruct r as [[s0 number]|w|u]; cbn [obind fst loopEnds] in Hends;
          try discriminate Hr.
        destruct Hends as ((_ & _ & Hi') & _).
        injection Hr as <- <-. right. left. split; [reflexivity|].
        split; [cbn [identifier set_value]; congruence|].
        eexists. reflexivity.
      * destruct (readChar_fields s1) as (Hi' & Hv' & _).
        destruct (lastChar s1 =? 45).
        -- injection Hr as <- <-. right. right.
           split; [left; reflexivity|]. split; congruence.
        -- destruct (lastChar s1 =? EOF); injection Hr as <- <-; right; right.
           ++ split; [right; right; reflexivity|]. split; congruence.
           ++ split; [right; left; reflexivity|]. split; congruence.
Qed.

Lemma numberValue_idem (d : Z) : numberValue (numberValue d) = numberValue d.
Proof.
  unfold numberValue.
  pose proof (u32_in_u32 (Z.min d (2 ^ 64 - 1))) as Hr. unfold in_u32 in Hr.
  rewrite Z.min_l by lia. apply u32_id. exact Hr.
Qed.

Lemma lookup_tokenEnumStr (name : string) :
  lookup name <> IDENTIFIER ->
  tokenEnumStr (lookup name) = name.
Proof.
  intros Hne. destruct (lookup_keyword name) as [Hid|[_ Hn]];
    [contradiction|exact Hn].
Qed.

(** X21.  The lexemes are an abstraction of the characters.  Let the
    token loop of [main] print the lines [lexemes] for the stream [s].
    Then [getNextToken] on the characters and [getNextToken] of the lexer
    on the lexemes, from the same [identifier] and [value], return the
    same token and leave the same [identifier], [value] and [lastToken];
    and what the token loop prints from the new stream is the rest of the
    lexemes.  So the tokens and names a parser reads from the file are
    those it reads from the lexemes. *)
Theorem lexemes_abstract_the_characters (fuel : nat) (s : Stream)
        (lexemes : list Lexeme) (last : Token) :
  tokensOnly (S fuel) s = Some (Returns lexemes) ->
  exists t s',
    Scanner.getNextToken s = Some (Returns (t, s')) /\
    Asm.getNextToken (mkLexer lexemes (identifier s) (value s) last)
    = (t, mkLexer (tl lexemes) (identifier s') (value s') (lastToken s')) /\
    (if Token_eqb t END_OF_FILE then lexemes = []
     else tokensOnly fuel s' = Some (Returns (tl lexemes))).
Proof.
  cbn [tokensOnly]. intros Hloop.
  destruct (Scanner.getNextToken s) as [[[t s1]|w|u]|] eqn:Hnext;
    try discriminate Hloop.
  exists t, s1. split; [reflexivity|].
  unfold Scanner.getNextToken in Hnext.
  destruct (readToken (readToken_fuel s) s) as [[[t0 s0]|w|u]|] eqn:Hread;
    try discriminate Hnext.
  injection Hnext as -> <-.
  pose proof (readToken_shape _ _ _ _ (unread_fuel s) Hread) as Hshape.
  cbn [identifier value lastToken set_lastToken] in *.
  assert (Hrest : forall line,
            match tokensOnly fuel (set_lastToken t s0) with
            | Some (Returns rest) => Some (Returns (line :: rest))
            | other => other
            end = Some (Returns lexemes) ->
            lexemes = line :: tl lexemes /\
            tokensOnly fuel (set_lastToken t s0) = Some (Returns (tl lexemes))).
  { intros line Hl.
    destruct (tokensOnly fuel (set_lastToken t s0)) as [[rest| |]|];
      try discriminate Hl.
    injection Hl as <-. split; reflexivity. }
  destruct Hshape as [[Hlook Hv]|[(Hnum & Hi & d & Hv)|(Hsym & Hi & Hv)]].
  - destruct (lookup_keyword (identifier s0)) as [Hid|[Hin Hname]].
    + rewrite Hid in Hlook. subst t. cbn [Token_eqb].
      destruct (Hrest _ Hloop) as [Hl Htail]. split; [|exact Htail].
      rewrite Hl at 1. unfold Asm.getNextToken. cbn [tokens].
      rewrite Hid, Hv. reflexivity.
    + rewrite <- Hlook in Hin, Hname.
      assert (Hline : lexemes = Word (tokenEnumStr t) :: tl lexemes /\
                      tokensOnly fuel (set_lastToken t s0)
                      = Some (Returns (tl lexemes)) /\
                      Token_eqb t END_OF_FILE = false).
      { cbn in Hin.
        repeat (destruct Hin as [<-|Hin];
                [destruct (Hrest _ Hloop) as [Hl Htail];
                 split; [exact Hl|split; [exact Htail|reflexivity]]|]).
        contradiction. }
      destruct Hline as (Hl & Htail & ->). split; [|exact Htail].
      rewrite Hl at 1. unfold Asm.getNextToken. cbn [tokens].
      rewrite Hname, <- Hlook, Hv. reflexivity.
  - subst t. cbn [Token_eqb].
    destruct (Hrest _ Hloop) as [Hl Htail]. split; [|exact Htail].
    rewrite Hl at 1. unfold Asm.getNextToken. cbn [tokens Asm.identifier].
    rewrite Hv, numberValue_idem, Hi. reflexivity.
  - destruct Hsym as [-> | [-> | ->]]; cbn [Token_eqb].
    + destruct (Hrest _ Hloop) as [Hl Htail]. split; [|exact Htail].
      rewrite Hl at 1. unfold Asm.getNextToken.
      cbn [tokens Asm.identifier Asm.value]. rewrite Hi, Hv. reflexivity.
    + destruct (Hrest _ Hloop) as [Hl Htail]. split; [|exact Htail].
      rewrite Hl at 1. unfold Asm.getNextToken.
      cbn [tokens Asm.identifier Asm.value]. rewrite Hi, Hv. reflexivity.
    + injection Hloop as <-. split; [|reflexivity].
      unfold Asm.getNextToken. cbn [tokens tl Asm.identifier Asm.value].
      rewrite Hi, Hv. reflexivity.
Qed.

Lemma lexemes_abstract_the_characters_witness :
  exists t s',
    Scanner.getNextToken (openFile [66; 82; 32; 49])
    = Some (Returns (t, s')) /\
    Asm.getNextToken (mkLexer [Word "BR"; Number 1] "" 0 NONE)
    = (t, mkLexer [Number 1] (identifier s') (value s') (lastToken s')).
Proof.
  assert (Hloop : tokensOnly 3 (openFile [66; 82; 32; 49])
                  = Some (Returns [Word "BR"; Number 1]))
    by (vm_compute; reflexivity).
  destruct (lexemes_abstract_the_characters 2 (openFile [66; 82; 32; 49])
              [Word "BR"; Number 1] NONE Hloop)
    as (t & s' & H1 & H2 & _).
  exists t, s'. split; assumption.
Defined.
End LexerOnCharacters.

(** * The length the layout assumes and the size that is emitted *)

Lemma numNibbles_le (v n : Z) :
  in_int v -> 1 <= n ->
  (numNibbles v <= n <-> - 16 ^ n <= v < 16 ^ n).
Proof.
  intros Hv Hn.
  assert (Hpow : 0 < 16 ^ n) by (apply Z.pow_pos_nonneg; lia).
  assert (B : forall w N, 0 <= w -> nibbles_spec_nonneg w N ->
                          (N <= n <-> w < 16 ^ n)).
  { intros w N Hw [[-> ->]|[Hpos (HL & HU & HM)]].
    - split; lia.
    - split.
      + intros Hle. eapply Z.lt_le_trans; [exact HU|].
        apply Z.pow_le_mono_r; lia.
      + intros Hlt. apply HM; assumption. }
  destruct (numNibbles_spec v Hv) as [[Hnn Hs]|[Hneg Hs]].
  - rewrite (B v _ Hnn Hs). lia.
  - rewrite (B (Z.lnot v) _ ltac:(unfold Z.lnot; lia) Hs).
    unfold Z.lnot. lia.
Qed.

Lemma immSize_cases (v : Z) :
  (v < 0 /\ numNibbles v = 1 /\ immSize v = 2) \/
  (~ (v < 0 /\ numNibbles v = 1) /\ immSize v = numNibbles v).
Proof.
  unfold immSize.
  destruct (Z.ltb_spec v 0); destruct (Z.eqb_spec (numNibbles v) 1);
    cbn [andb]; [left|right|right|right]; repeat split; lia.
Qed.

Lemma sizeGap_cases (d : Z) :
  (-15 <= d <= 0 /\ sizeGap d = 1) \/
  ((d = 17 \/ d = 258 \/ d = 4099 \/ d = 65540 \/ d = 1048581 \/
    d = 16777222 \/ d = 268435463) /\ sizeGap d = -1) \/
  (~ (-15 <= d <= 0) /\ d <> 17 /\ d <> 258 /\ d <> 4099 /\ d <> 65540 /\
   d <> 1048581 /\ d <> 16777222 /\ d <> 268435463 /\ sizeGap d = 0).
Proof.
  unfold sizeGap. cbn [existsb].
  change (16 ^ 1 + 1) with 17. change (16 ^ 2 + 2) with 258.
  change (16 ^ 3 + 3) with 4099. change (16 ^ 4 + 4) with 65540.
  change (16 ^ 5 + 5) with 1048581. change (16 ^ 6 + 6) with 16777222.
  change (16 ^ 7 + 7) with 268435463.
  destruct (Z.leb_spec (-15) d); destruct (Z.leb_spec d 0); cbn [andb];
    [left; split; [lia|reflexivity]| | |];
    (destruct (Z.eqb_spec d 17); cbn [orb];
     [right; left; split; [lia|reflexivity]|]);
    (destruct (Z.eqb_spec d 258); cbn [orb];
     [right; left; split; [lia|reflexivity]|]);
    (destruct (Z.eqb_spec d 4099); cbn [orb];
     [right; left; split; [lia|reflexivity]|]);
    (destruct (Z.eqb_spec d 65540); cbn [orb];
     [right; left; split; [lia|reflexivity]|]);
    (destruct (Z.eqb_spec d 1048581); cbn [orb];
     [right; left; split; [lia|reflexivity]|]);
    (destruct (Z.eqb_spec d 16777222); cbn [orb];
     [right; left; split; [lia|reflexivity]|]);
    (destruct (Z.eqb_spec d 268435463); cbn [orb];
     [right; left; split; [lia|reflexivity]|]);
    right; right; repeat split; lia || reflexivity.
Qed.

(** The length that the layout subtracts and the size that is emitted:
    for a label reference whose target lies within [2^30] bytes of its
    instruction (so that nothing wraps around), the stored displacement is
    the distance less [instrLen], and the size with which the reference is
    emitted is [instrLen] plus [sizeGap] of the distance. *)
Lemma instrLen_size_gap (token : Token) (label : string)
        (labelValue byteOffset : Z) :
  - 2 ^ 30 <= labelValue - byteOffset <= 2 ^ 30 ->
  let length := instrLen labelValue byteOffset in
  let v := wrap32 (wrap32 (labelValue - byteOffset) - length) in
  let size := getSize (InstrLabel token label v) in
  v = labelValue - byteOffset - length /\
  size = length + sizeGap (labelValue - byteOffset) /\
  byteOffset + size + v = labelValue + sizeGap (labelValue - byteOffset).
Proof.
  intros Hd length v size.
  destruct (instrLen_loop_exit labelValue byteOffset) as (HL & Hexit & Hmin).
  fold length in HL, Hexit, Hmin.
  set (d := labelValue - byteOffset) in *.
  assert (Hw : forall l, 0 <= l <= 8 -> wrap32 (d - l) = d - l).
  { intros l Hl. apply wrap32_id. unfold in_int, min_int, max_int. lia. }
  assert (Hv : v = d - length).
  { unfold v. rewrite (wrap32_id d) by (unfold in_int, min_int, max_int; lia).
    apply wrap32_id. unfold in_int, min_int, max_int. lia. }
  assert (Hint : forall l, 0 <= l <= 8 -> in_int (d - l)).
  { intros l Hl. unfold in_int, min_int, max_int. lia. }
  rewrite (Hw length) in Hexit by lia. rewrite <- Hv in Hexit.
  assert (Hvint : in_int v) by (rewrite Hv; apply Hint; lia).
  assert (Hmin' : forall l, 1 <= l <= 7 -> l < length ->
                            ~ (- 16 ^ l <= d - l < 16 ^ l)).
  { intros l Hl Hlt Hrange.
    specialize (Hmin l ltac:(lia)). rewrite (Hw l) in Hmin by lia.
    apply (numNibbles_le (d - l) l (Hint l ltac:(lia)) ltac:(lia)) in Hrange.
    lia. }
  pose proof (numNibbles_bounds v Hvint) as Hn0.
  pose proof (immSize_cases v) as Hsize. fold size in Hsize.
  change (getSize (InstrLabel token label v)) with (immSize v) in size.
  pose proof (sizeGap_cases d) as Hgap.
  split; [exact Hv|].
  assert (Hmain : size = length + sizeGap d).
  { assert (HLc : length = 1 \/ length = 2 \/ length = 3 \/ length = 4 \/
                  length = 5 \/ length = 6 \/ length = 7 \/ length = 8)
      by lia.
    clear Hmin Hw Hint HL.
    destruct HLc as [HLc|[HLc|[HLc|[HLc|[HLc|[HLc|[HLc|HLc]]]]]]];
      rewrite HLc in *.
    - pose proof (proj1 (numNibbles_le v 1 Hvint ltac:(lia)) Hexit) as E.
      clear Hmin'. change (16 ^ 1) with 16 in E. lia.
    - pose proof (proj1 (numNibbles_le v 2 Hvint ltac:(lia)) Hexit) as E.
      pose proof (numNibbles_le v 1 Hvint ltac:(lia)) as N1.
      pose proof (Hmin' 1 ltac:(lia) ltac:(lia)) as M1. clear Hmin'.
      change (16 ^ 1) with 16 in *. change (16 ^ 2) with 256 in *. lia.
    - pose proof (proj1 (numNibbles_le v 3 Hvint ltac:(lia)) Hexit) as E.
      pose proof (numNibbles_le v 1 Hvint ltac:(lia)) as N1.
      pose proof (numNibbles_le v 2 Hvint ltac:(lia)) as N2.
      pose proof (Hmin' 1 ltac:(lia) ltac:(lia)) as M1.
      pose proof (Hmin' 2 ltac:(lia) ltac:(lia)) as M2. clear Hmin'.
      change (16 ^ 1) with 16 in *. change (16 ^ 2) with 256 in *.
      change (16 ^ 3) with 4096 in *. lia.
    - pose proof (proj1 (numNibbles_le v 4 Hvint ltac:(lia)) Hexit) as E.
      pose proof (numNibbles_le v 2 Hvint ltac:(lia)) as N2.
      pose proof (numNibbles_le v 3 Hvint ltac:(lia)) as N3.
      pose proof (Hmin' 1 ltac:(lia) ltac:(lia)) as M1.
      pose proof (Hmin' 2 ltac:(lia) ltac:(lia)) as M2.
      pose proof (Hmin' 3 ltac:(lia) ltac:(lia)) as M3. clear Hmin'.
      change (16 ^ 1) with 16 in *. change (16 ^ 2) with 256 in *.
      change (16 ^ 3) with 4096 in *. change (16 ^ 4) with 65536 in *. lia.
    - pose proof (proj1 (numNibbles_le v 5 Hvint ltac:(lia)) Hexit) as E.
      pose proof (numNibbles_le v 3 Hvint ltac:(lia)) as N3.
      pose proof (numNibbles_le v 4 Hvint ltac:(lia)) as N4.
      pose proof (Hmin' 1 ltac:(lia) ltac:(lia)) as M1.
      pose proof (Hmin' 2 ltac:(lia) ltac:(lia)) as M2.
      pose proof (Hmin' 3 ltac:(lia) ltac:(lia)) as M3.
      pose proof (Hmin' 4 ltac:(lia) ltac:(lia)) as M4. clear Hmin'.
      change (16 ^ 1) with 16 in *. change (16 ^ 2) with 256 in *.
      change (16 ^ 3) with 4096 in *. change (16 ^ 4) with 65536 in *.
      change (16 ^ 5) with 1048576 in *. lia.
    - pose proof (proj1 (numNibbles_le v 6 Hvint ltac:(lia)) Hexit) as E.
      pose proof (numNibbles_le v 4 Hvint ltac:(lia)) as N4.
      pose proof (numNibbles_le v 5 Hvint ltac:(lia)) as N5.
      pose proof (Hmin' 1 ltac:(lia) ltac:(lia)) as M1.
      pose proof (Hmin' 2 ltac:(lia) ltac:(lia)) as M2.
      pose proof (Hmin' 3 ltac:(lia) ltac:(lia)) as M3.
      pose proof (Hmin' 4 ltac:(lia) ltac:(lia)) as M4.
      pose proof (Hmin' 5 ltac:(lia) ltac:(lia)) as M5. clear Hmin'.
      change (16 ^ 1) with 16 in *. change (16 ^ 2) with 256 in *.
      change (16 ^ 3) with 4096 in *. change (16 ^ 4) with 65536 in *.
      change (16 ^ 5) with 1048576 in *. change (16 ^ 6) with 16777216 in *.
      lia.
    - pose proof (proj1 (numNibbles_le v 7 Hvint ltac:(lia)) Hexit) as E.
      pose proof (numNibbles_le v 5 Hvint ltac:(lia)) as N5.
      pose proof (numNibbles_le v 6 Hvint ltac:(lia)) as N6.
      pose proof (Hmin' 1 ltac:(lia) ltac:(lia)) as M1.
      pose proof (Hmin' 2 ltac:(lia) ltac:(lia)) as M2.
      pose proof (Hmin' 3 ltac:(lia) ltac:(lia)) as M3.
      pose proof (Hmin' 4 ltac:(lia) ltac:(lia)) as M4.
      pose proof (Hmin' 5 ltac:(lia) ltac:(lia)) as M5.
      pose proof (Hmin' 6 ltac:(lia) ltac:(lia)) as M6. clear Hmin'.
      change (16 ^ 1) with 16 in *. change (16 ^ 2) with 256 in *.
      change (16 ^ 3) with 4096 in *. change (16 ^ 4) with 65536 in *.
      change (16 ^ 5) with 1048576 in *. change (16 ^ 6) with 16777216 in *.
      change (16 ^ 7) with 268435456 in *. lia.
    - pose proof (numNibbles_le v 6 Hvint ltac:(lia)) as N6.
      pose proof (numNibbles_le v 7 Hvint ltac:(lia)) as N7.
      pose proof (Hmin' 1 ltac:(lia) ltac:(lia)) as M1.
      pose proof (Hmin' 2 ltac:(lia) ltac:(lia)) as M2.
      pose proof (Hmin' 3 ltac:(lia) ltac:(lia)) as M3.
      pose proof (Hmin' 4 ltac:(lia) ltac:(lia)) as M4.
      pose proof (Hmin' 5 ltac:(lia) ltac:(lia)) as M5.
      pose proof (Hmin' 6 ltac:(lia) ltac:(lia)) as M6.
      pose proof (Hmin' 7 ltac:(lia) ltac:(lia)) as M7. clear Hmin'.
      change (16 ^ 1) with 16 in *. change (16 ^ 2) with 256 in *.
      change (16 ^ 3) with 4096 in *. change (16 ^ 4) with 65536 in *.
      change (16 ^ 5) with 1048576 in *. change (16 ^ 6) with 16777216 in *.
      change (16 ^ 7) with 268435456 in *. change (2 ^ 30) with 1073741824 in *.
      lia. }
  split; [exact Hmain|]. rewrite Hmain, Hv. unfold d. lia.
Qed.

Lemma decodedOperand_in_u32 (v : Z) : in_int v -> in_u32 (decodedOperand v).
Proof.
  intros Hv. unfold decodedOperand.
  destruct (Z.ltb_spec v 0) as [Hneg|Hnn].
  - pose proof (land255_range v) as Hlow.
    apply in_u32_bits.
    + apply Z.lor_nonneg. lia.
    + intros k Hk. rewrite Z.lor_spec, testbit_high_mask by lia.
      rewrite (testbit_byte_high (Z.land v 255)) by lia.
      destruct (Z.ltb_spec k 32); [lia|].
      rewrite andb_false_r. reflexivity.
  - unfold in_int, min_int, max_int in Hv. unfold in_u32. lia.
Qed.

Lemma u32_add_cancel (a x y : Z) :
  u32 (a + x) = u32 (a + y) -> u32 x = u32 y.
Proof.
  unfold u32. intros Heq.
  replace x with (a + x - a) by lia. replace y with (a + y - a) by lia.
  rewrite (Zminus_mod (a + x)), (Zminus_mod (a + y)), Heq. reflexivity.
Qed.

Section BranchToLabel.
Context {E : Encoding} {H : HostIO} (ok : EncodingOk E).

End BranchToLabel.

